(** * Multicorn, [multicorn/corns/filesystem.py]: the Filesystem access point

    A shallow embedding of the pattern compiler ([_tokenize_pattern],
    [_parse_pattern]), of the path derivation ([FilesystemItem.filename],
    [full_filename]), of the read-once content accessor ([LazyFileReader])
    and of the [Filesystem] operations ([register], [save], [delete],
    [_walk]), together with the properties of the specification that were
    checked against them.

    Conventions of the embedding.
    - A Python unicode string is a [text], the list of its characters
      (the tokenizer itself starts with [char_list = list(pattern)]).
    - A raised exception is a value of [exn]; a function that may raise
      returns a [result].
    - A generator is the list of the values it yields, followed by the
      exception that ends it, if one does.
    - The hosting environment (the [re], [str.format], [os] and [io]
      modules of Python 2 on a POSIX system) is not part of the repository;
      the fragment the access point uses is modelled in the modules
      [Re], [Str] and [Os] below.
    - The order in which a dictionary of Python 2 lists its items is
      that of its hash table.  What depends on it takes the order as a
      parameter, [Re.Dict_order], of which only this is known: every item
      is listed, once. *)

From Stdlib Require Import String Ascii List ZArith Lia Bool.
From stdpp Require Import base option list gmap strings.

Open Scope char_scope.
Open Scope list_scope.

(** ** Text *)

Notation text := (list ascii) (only parsing).

(** [u "abc"] is the unicode literal [u"abc"]. *)
Definition u (s : string) : text := list_ascii_of_string s.

Definition text_eqb (a b : text) : bool := bool_decide (a = b).

Definition slash : ascii := "/".
Definition lbrace : ascii := "{".
Definition rbrace : ascii := "}".
Definition newline : ascii := "010".
Definition carriage_return : ascii := "013".

(** ** Exceptions and results *)

Inductive value_error :=
  | Single_close_brace                      (* "Single '}' encountered in format string" *)
  | Unmatched_open_brace                    (* "Unmatched '{' in format string" *)
  | Empty_part (pattern : text)             (* "A slash-separated part is empty in %r" *)
  | Invalid_property_name (token : text)    (* "Invalid property name for Filesystem: %r. ..." *)
  | Duplicate_property_name (token pattern : text)
                                            (* "Property name %r appears more than once ..." *)
  | Slash_in_value                          (* "Filename property values can not contain a slash ..." *)
  | Single_open_brace                       (* format: "Single '{' encountered in format string" *)
  | Unmatched_in_format.                    (* format: "unmatched '{' in format" *)

Inductive type_error :=
  | Not_unicode                             (* "Filename property values must be of type unicode, ..." *)
  | No_extra_properties.                    (* "Filesystem does not take extra properties." *)

Inductive exn :=
  | ValueError (e : value_error)
  | TypeError (e : type_error)
  | KeyError (name : text)
  | IndexError
  | AssertionError
  | OSError (path : text)
  | UnicodeError
  | Unmodelled.   (* not an exception: the call leaves the modelled
                     fragment of the hosting environment *)

Inductive result (A : Type) :=
  | Ok (a : A)
  | Raise (e : exn).
Arguments Ok {A} a.
Arguments Raise {A} e.

Definition bind {A B} (r : result A) (k : A -> result B) : result B :=
  match r with
  | Ok a => k a
  | Raise e => Raise e
  end.

Notation "'let*' x ':=' r 'in' k" := (bind r (fun x => k))
  (at level 10, x pattern, r at level 100, k at level 200).

(** ** The tokenizer *)

Inductive token :=
  | Property (field_name : text)       (* ('property', field_name) *)
  | Path_separator (char : ascii)      (* ('path separator', char) *)
  | Literal (char : ascii).            (* ('literal', char) *)

(** What a generator produced: the values yielded, and the exception that
    ended the iteration when there is one. *)
Definition generated (A : Type) : Type := (list A * option exn)%type.

Definition yield {A} (a : A) (g : generated A) : generated A := (a :: g.1, g.2).

Definition is_brace (char : ascii) : bool := (char =? lbrace) || (char =? rbrace).

Definition opt_ascii_eqb (o : option ascii) (char : ascii) : bool :=
  match o with
  | Some c => c =? char
  | None => false
  end.

(** The loop of [_tokenize_pattern] over
    [zip([None] + char_list[:-1], char_list, char_list[1:] + [None])]:
    [prev_char] is the character before the current one, [next_char] the
    head of what follows.  [field] is [Some field_name] when [in_field] is
    true and [None] otherwise (the source resets [field_name] to [None]
    exactly when it leaves a field). *)
Fixpoint tokenize_loop (prev_char : option ascii) (field : option text)
    (chars : list ascii) : generated token :=
  match chars with
  | [] =>
      match field with
      | Some _ => ([], Some (ValueError Unmatched_open_brace))
      | None => ([Path_separator slash], None)
      end
  | char :: rest =>
      let next_char := head rest in
      match field with
      | Some field_name =>
          if char =? rbrace
          then yield (Property field_name) (tokenize_loop (Some char) None rest)
          else tokenize_loop (Some char) (Some (field_name ++ [char])) rest
      | None =>
          if char =? slash
          then yield (Path_separator char) (tokenize_loop (Some char) None rest)
          else if is_brace char && opt_ascii_eqb next_char char
          then tokenize_loop (Some char) None rest
          else if (char =? rbrace) && negb (opt_ascii_eqb prev_char char)
          then ([], Some (ValueError Single_close_brace))
          else if (char =? lbrace) && negb (opt_ascii_eqb prev_char char)
          then tokenize_loop (Some char) (Some []) rest
          else yield (Literal char) (tokenize_loop (Some char) None rest)
      end
  end.

Definition _tokenize_pattern (pattern : text) : generated token :=
  tokenize_loop None None pattern.

(** ** Regular expressions of the pattern compiler

    [_parse_pattern] builds the source of each regular expression from two
    kinds of pieces only: [re.escape(token)] for a literal character and,
    for a property, a group named after the token around [.*] (any
    characters, as many as possible).  A [regex] is the list of these
    pieces; it stands for [re.compile('^%s$' % next_re)]. *)

Inductive re_piece :=
  | Escaped (char : ascii)        (* re.escape(char) *)
  | Group (name : text).          (* the group ?P<name> around .* *)

Definition regex := list re_piece.

(** Modelled from the spec: [isidentifier] of [multicorn/utils.py], which
    is not among the sources.  The specification asks for "unique
    identifiers (alphanumeric/underscore, not starting with a digit)". *)
Definition is_digit (c : ascii) : bool :=
  let n := nat_of_ascii c in (48 <=? n)%nat && (n <=? 57)%nat.

Definition is_letter (c : ascii) : bool :=
  let n := nat_of_ascii c in
  ((65 <=? n)%nat && (n <=? 90)%nat) || ((97 <=? n)%nat && (n <=? 122)%nat).

Definition is_ident_start (c : ascii) : bool := is_letter c || (c =? "_").
Definition is_ident_char (c : ascii) : bool := is_ident_start c || is_digit c.

Definition isidentifier (s : text) : bool :=
  match s with
  | [] => false
  | c :: rest => is_ident_start c && forallb is_ident_char rest
  end.

(** ** The parser *)

Definition mem_text (x : text) (l : list text) : bool := existsb (text_eqb x) l.

(** The state of the loop of [_parse_pattern]. *)
Record parser_state := Parser_state {
  path_properties : list text;
  path_parts_re : list regex;
  next_re : regex
}.

Definition parse_token (pattern : text) (st : parser_state) (tok : token)
    : result parser_state :=
  match tok with
  | Path_separator _ =>
      match next_re st with
      | [] => Raise (ValueError (Empty_part pattern))
      | _ => Ok (Parser_state (path_properties st)
                              (path_parts_re st ++ [next_re st]) [])
      end
  | Property token =>
      if negb (isidentifier token)
      then Raise (ValueError (Invalid_property_name token))
      else if mem_text token (path_properties st)
      then Raise (ValueError (Duplicate_property_name token pattern))
      else Ok (Parser_state (path_properties st ++ [token])
                            (path_parts_re st)
                            (next_re st ++ [Group token]))
  | Literal token =>
      Ok (Parser_state (path_properties st) (path_parts_re st)
                       (next_re st ++ [Escaped token]))
  end.

(** The [for] loop over the tokens: the tokenizer is a generator, so an
    exception of the parser on an early token comes before the exception
    that ends the tokenizer. *)
Fixpoint parse_loop (pattern : text) (st : parser_state) (toks : list token)
    (ending : option exn) : result parser_state :=
  match toks with
  | [] =>
      match ending with
      | Some e => Raise e
      | None => Ok st
      end
  | tok :: rest =>
      let* st' := parse_token pattern st tok in
      parse_loop pattern st' rest ending
  end.

(** [_parse_pattern].  The last token of a tokenizer that ends without
    an exception is the artificial separator, so the final
    [assert token_type == 'path separator'] cannot fail. *)
Definition _parse_pattern (pattern : text) : result (list regex * list text) :=
  let toks := _tokenize_pattern pattern in
  let* st := parse_loop pattern (Parser_state [] [] []) toks.1 toks.2 in
  Ok (path_parts_re st, path_properties st).

(** ** The [re] module: matching a compiled pattern

    Python's matcher is a backtracking one.  For the expressions above:
    - [^] with [match] anchors the match at the start of the string;
    - an escaped character matches that character and nothing else;
    - [.] matches any character but a newline, and [.*] is greedy: it is
      first tried on the longest run, then on shorter ones;
    - [$] (no flag is given) matches at the end of the string and also
      just before a newline that is the last character of the string. *)
Module Re.

Definition groups := list (text * text).

(** Where [$] matches. *)
Definition dollar (s : text) : bool :=
  match s with
  | [] => true
  | [c] => c =? newline
  | _ => false
  end.

(** The greedy group [.*] named [name], followed by the rest of the
    expression, [continue].  [taken] is what the group has taken so far.
    It first goes on taking characters, as long as they are no newlines;
    when the rest of the expression does not match after that, it stops
    where it is and tries the rest of the expression there. *)
Fixpoint star (continue : text -> option (groups * text)) (name : text)
    (taken s : text) : option (groups * text) :=
  let stop :=
    match continue s with
    | Some (gs, rest) => Some ((name, taken) :: gs, rest)
    | None => None
    end in
  match s with
  | c :: s' =>
      if c =? newline then stop
      else match star continue name (taken ++ [c]) s' with
           | Some r => Some r
           | None => stop
           end
  | [] => stop
  end.

(** [run pieces s] matches [pieces] followed by [$] at the start of [s].
    It returns the groups and the part of [s] after the match. *)
Fixpoint run (pieces : regex) (s : text) : option (groups * text) :=
  match pieces with
  | [] => if dollar s then Some ([], s) else None
  | Escaped char :: pieces' =>
      match s with
      | c :: s' => if c =? char then run pieces' s' else None
      | [] => None
      end
  | Group name :: pieces' => star (run pieces') name [] s
  end.

(** The match object of [r.match(name)]: its groups, by number, and the
    text left after the end of the match; [None] when there is no
    match. *)
Definition match_ (r : regex) (name : text) : option (groups * text) :=
  run r name.

(** The order of [dict.items()].  A dictionary of Python 2 lists its
    items in the order of its hash table, which is neither the order of
    insertion nor one a program can rely on; every item is listed, once. *)
Class Dict_order := {
  items : groups -> groups;
  items_permutation : forall gs, items gs ≡ₚ gs
}.

(** [match.groupdict().items()]. *)
Definition groupdict_items `{Dict_order} (m : groups * text) : groups := items m.1.

End Re.

(** ** [unicode.format], [unicode.split] and [posixpath.join] *)
Module Str.

(** [sep in s] for a separator of one character. *)
Definition contains (c : ascii) (s : text) : bool := existsb (fun x => x =? c) s.

(** [s.split(sep)] for a separator of one character: never empty. *)
Fixpoint split (sep : ascii) (s : text) : list text :=
  match s with
  | [] => [[]]
  | c :: s' =>
      if c =? sep then [] :: split sep s'
      else match split sep s' with
           | part :: parts => (c :: part) :: parts
           | [] => [[c]]
           end
  end.

Definition startswith (s prefix : text) : bool :=
  bool_decide (take (length prefix) s = prefix).

Definition endswith (s suffix : text) : bool :=
  bool_decide (drop (length s - length suffix) s = suffix).

(** The replacement fields of the fragment: a field whose text is a
    keyword name.  A field with a conversion ([!]), a format
    specification ([:]), an attribute or index access ([.], [[]]) or
    nested braces is outside the fragment, and so is positional
    numbering (an empty or numeric field). *)
Definition plain_field (field : text) : bool :=
  match field with
  | [] => false
  | c :: _ =>
      negb (is_digit c) &&
      forallb (fun x => negb ((x =? "!") || (x =? ":") || (x =? ".") || (x =? "[")
                              || (x =? lbrace) || (x =? rbrace))) field
  end.

Inductive mode :=
  | Outside                              (* in literal text *)
  | After (brace : ascii)                (* just after a brace in literal text *)
  | Inside (depth : nat) (field : text). (* in a replacement field *)

(** The value of a replacement field: a keyword argument.  No
    positional argument is ever passed ([format( **values )]). *)
Definition get_field (kwargs : gmap text text) (field : text) : result text :=
  match field with
  | [] => Raise IndexError
  | c :: _ =>
      if forallb is_digit field then Raise IndexError
      else if plain_field field
      then match kwargs !! field with
           | Some v => Ok v
           | None => Raise (KeyError field)
           end
      else Raise Unmodelled
  end.

Definition emit (s : text) (r : result text) : result text :=
  let* out := r in Ok (s ++ out).

(** The scanner of [format] reads the template from left to right.  In
    literal text a brace followed by the same brace is an escaped brace
    and both are consumed; another [}] is an error; another [{] opens a
    replacement field, which runs to the matching [}]. *)
Fixpoint format_loop (kwargs : gmap text text) (m : mode) (chars : text)
    : result text :=
  match chars with
  | [] =>
      match m with
      | Outside => Ok []
      | After brace =>
          if brace =? lbrace then Raise (ValueError Single_open_brace)
          else Raise (ValueError Single_close_brace)
      | Inside _ _ => Raise (ValueError Unmatched_in_format)
      end
  | c :: rest =>
      match m with
      | Outside =>
          if is_brace c then format_loop kwargs (After c) rest
          else emit [c] (format_loop kwargs Outside rest)
      | After brace =>
          if c =? brace then emit [brace] (format_loop kwargs Outside rest)
          else if brace =? rbrace then Raise (ValueError Single_close_brace)
          else if c =? rbrace
          then let* v := get_field kwargs [] in
               emit v (format_loop kwargs Outside rest)
          else format_loop kwargs (Inside 0 [c]) rest
      | Inside depth field =>
          if c =? lbrace then format_loop kwargs (Inside (S depth) (field ++ [c])) rest
          else if c =? rbrace
          then match depth with
               | O => let* v := get_field kwargs field in
                      emit v (format_loop kwargs Outside rest)
               | S depth' => format_loop kwargs (Inside depth' (field ++ [c])) rest
               end
          else format_loop kwargs (Inside depth (field ++ [c])) rest
      end
  end.

Definition format (template : text) (kwargs : gmap text text) : result text :=
  format_loop kwargs Outside template.

(** [posixpath.join(a, *p)]. *)
Definition join (a : text) (p : list text) : text :=
  fold_left
    (fun path b =>
       if startswith b [slash] then b
       else if text_eqb path [] || endswith path [slash] then path ++ b
       else path ++ [slash] ++ b)
    p a.

(** [s.rstrip('/')]. *)
Fixpoint lstrip_slash (s : text) : text :=
  match s with
  | c :: s' => if c =? slash then lstrip_slash s' else s
  | [] => []
  end.

Definition rstrip_slash (s : text) : text := rev (lstrip_slash (rev s)).

(** [p.rfind('/') + 1]. *)
Fixpoint after_last_slash (p : text) : nat :=
  match p with
  | [] => 0
  | c :: p' =>
      match after_last_slash p' with
      | O => if c =? slash then 1 else 0
      | S i => S (S i)
      end
  end.

(** [posixpath.dirname(p)]. *)
Definition dirname (p : text) : text :=
  let head := take (after_last_slash p) p in
  if negb (text_eqb head []) && negb (forallb (fun c => c =? slash) head)
  then rstrip_slash head
  else head.

End Str.

(** ** The [os] and [io] modules on a POSIX file system

    A file system without symbolic links and without permissions: a finite
    map from absolute, resolved paths (the list of names from [/]) to
    nodes.  [/] itself always exists and is a directory.  A path given as
    text is resolved name by name, as the kernel does: the empty name and
    [.] stay in place, [..] goes to the parent, and every name but the last
    has to be walked through an existing directory.  Relative paths are
    taken from [/]. *)
Module Os.

Inductive node :=
  | File (data : text)
  | Dir.

Definition fs := gmap (list text) node.

Definition node_at (st : fs) (q : list text) : option node :=
  match q with
  | [] => Some Dir
  | _ => st !! q
  end.

Definition is_dir_at (st : fs) (q : list text) : bool :=
  match node_at st q with
  | Some Dir => true
  | _ => false
  end.

Definition is_file_at (st : fs) (q : list text) : bool :=
  match node_at st q with
  | Some (File _) => true
  | _ => false
  end.

Definition step (cur : list text) (name : text) : list text :=
  if text_eqb name [] || text_eqb name (u ".") then cur
  else if text_eqb name (u "..") then removelast cur
  else cur ++ [name].

Fixpoint walk_names (st : fs) (cur : list text) (names : list text)
    : option (list text) :=
  match names with
  | [] => Some cur
  | name :: names' =>
      if is_dir_at st cur then walk_names st (step cur name) names' else None
  end.

(** Where a path leads; [None] when it cannot be walked.  The place
    itself need not exist. *)
Definition locate (st : fs) (p : text) : option (list text) :=
  match p with
  | [] => None
  | _ => walk_names st [] (Str.split slash p)
  end.

(** The names in a directory, in the order of the map. *)
Definition entries (st : fs) (q : list text) : list text :=
  omap (fun k => if bool_decide (removelast k = q) then last k else None)
       (map fst (map_to_list st)).

Definition exists_ (st : fs) (p : text) : bool :=
  match locate st p with
  | Some q => bool_decide (is_Some (node_at st q))
  | None => false
  end.

Definition isfile (st : fs) (p : text) : bool :=
  match locate st p with
  | Some q => is_file_at st q
  | None => false
  end.

Definition isdir (st : fs) (p : text) : bool :=
  match locate st p with
  | Some q => is_dir_at st q
  | None => false
  end.

Definition listdir (st : fs) (p : text) : result (list text) :=
  match locate st p with
  | Some q => if is_dir_at st q then Ok (entries st q) else Raise (OSError p)
  | None => Raise (OSError p)
  end.

(** [os.remove]: unlinks a file, never a directory. *)
Definition remove (st : fs) (p : text) : result fs :=
  match locate st p with
  | Some q => if is_file_at st q then Ok (delete q st) else Raise (OSError p)
  | None => Raise (OSError p)
  end.

(** The last name of a path, trailing slashes apart. *)
Definition last_name (p : text) : text :=
  default [] (last (filter (fun n => n <> []) (Str.split slash p))).

(** [os.rmdir]: removes an empty directory; [/] cannot be removed, and
    neither can a path that ends in [.] or [..]. *)
Definition rmdir (st : fs) (p : text) : result fs :=
  match locate st p with
  | Some q =>
      if is_dir_at st q && negb (bool_decide (q = []))
         && bool_decide (entries st q = [])
         && negb (text_eqb (last_name p) (u "."))
         && negb (text_eqb (last_name p) (u ".."))
      then Ok (delete q st)
      else Raise (OSError p)
  | None => Raise (OSError p)
  end.

Definition mkdir (st : fs) (p : text) : result fs :=
  match locate st p with
  | Some q =>
      match node_at st q with
      | None => Ok (<[q := Dir]> st)
      | Some _ => Raise (OSError p)
      end
  | None => Raise (OSError p)
  end.

(** [io.open(p, 'wb' or 'wt')]: creates the file or truncates it. *)
Definition open_w (st : fs) (p : text) : result fs :=
  match locate st p with
  | Some q =>
      match node_at st q with
      | Some Dir => Raise (OSError p)
      | _ => if Str.endswith p [slash] then Raise (OSError p)
             else Ok (<[q := File []]> st)
      end
  | None => Raise (OSError p)
  end.

(** [stream.write(data)] on a file just opened for writing. *)
Definition write (st : fs) (p : text) (data : text) : result fs :=
  match locate st p with
  | Some q => Ok (<[q := File data]> st)
  | None => Raise (OSError p)
  end.

(** [io.open(p, 'rb' or 'rt')] followed by [read()], undecoded. *)
Definition read_bytes (st : fs) (p : text) : result text :=
  match locate st p with
  | Some q =>
      match node_at st q with
      | Some (File data) => Ok data
      | _ => Raise (OSError p)
      end
  | None => Raise (OSError p)
  end.

End Os.

(** The text codecs of the hosting environment, by encoding name. *)
Class Codecs := {
  encode : text -> text -> result text;   (* u.encode(encoding) *)
  decode : text -> text -> result text    (* b.decode(encoding) *)
}.

(** Latin-1, where every byte is a character, under any name. *)
Definition latin1 : Codecs := {|
  encode := fun _ s => Ok s;
  decode := fun _ b => Ok b
|}.

(** ASCII, under any name: a byte or a character above 127 is refused. *)
Definition ascii_codec : Codecs := {|
  encode := fun _ s =>
    if forallb (fun c => (nat_of_ascii c <? 128)%nat) s then Ok s else Raise UnicodeError;
  decode := fun _ b =>
    if forallb (fun c => (nat_of_ascii c <? 128)%nat) b then Ok b else Raise UnicodeError
|}.

(** Two orders of the items of a dictionary: the order of insertion, and
    the reverse of it. *)
Definition insertion_order : Re.Dict_order := {|
  Re.items := fun gs => gs;
  Re.items_permutation := fun gs => Permutation_refl gs
|}.

Definition reverse_order : Re.Dict_order := {|
  Re.items := fun gs => reverse gs;
  Re.items_permutation := fun gs => reverse_Permutation gs
|}.

(** ** Values of item properties *)

Inductive pyvalue :=
  | PyUnicode (s : text)     (* a unicode object *)
  | PyStr (b : text)         (* a byte string *)
  | PyOther.                 (* anything that is not a basestring *)

(** [unicode(value)] on a byte string decodes it as ASCII. *)
Definition is_ascii_text (b : text) : bool :=
  forallb (fun c => (nat_of_ascii c <? 128)%nat) b.

Definition strict_unicode (value : pyvalue) : result text :=
  match value with
  | PyUnicode s => Ok s
  | PyStr b => if is_ascii_text b then Ok b else Raise UnicodeError
  | PyOther => Raise (TypeError Not_unicode)
  end.

(** ** The access point *)

Inductive pytype := Unicode_type | Bytes_type.

(** [Type(type=..., corn=self, name=...)]. *)
Record Type_ := { type : pytype; type_name : text }.

Record Filesystem := {
  name : text;
  root_dir : text;
  pattern : text;
  encoding : option text;
  content_property : text;
  _path_parts_re : list regex;
  identity_properties : list text;
  properties : gmap text Type_
}.

(** [Filesystem.__init__].  Modelled from the spec: [AbstractCorn.__init__]
    (in [abstract.py], not among the sources) records the name and the
    identity properties and starts with no property. *)
Definition __init__ (name root_dir pattern : text) (encoding : option text)
    (content_property : text) : result Filesystem :=
  let* (parts, path_properties) := _parse_pattern pattern in
  let properties0 : gmap text Type_ := ∅ in
  let properties1 :=
    fold_left (fun props property_name =>
                 <[property_name := {| type := Unicode_type; type_name := name |}]> props)
              path_properties properties0 in
  let properties2 :=
    <[content_property :=
        {| type := match encoding with None => Bytes_type | Some _ => Unicode_type end;
           type_name := content_property |}]> properties1 in
  Ok {| name := name; root_dir := root_dir; pattern := pattern;
        encoding := encoding; content_property := content_property;
        _path_parts_re := parts; identity_properties := path_properties;
        properties := properties2 |}.

(** [Filesystem.register(name, **kwargs)]: the outcome and the access
    point after the call. *)
Definition register (self : Filesystem) (name : text) (kwargs : gmap text pyvalue)
    : result unit * Filesystem :=
  (Raise (TypeError No_extra_properties), self).

(** An item: its values by property name. *)
Definition item_values := gmap text pyvalue.

(** The loop of [FilesystemItem.filename] over the identity properties.
    [self[name]] raises [KeyError] for a missing property. *)
Fixpoint filename_values (item : item_values) (names : list text)
    (values : gmap text text) : result (gmap text text) :=
  match names with
  | [] => Ok values
  | name :: names' =>
      let* v := match item !! name with
                | Some v => Ok v
                | None => Raise (KeyError name)
                end in
      let* value := strict_unicode v in
      if Str.contains slash value
      then Raise (ValueError Slash_in_value)
      else filename_values item names' (<[name := value]> values)
  end.

(** [FilesystemItem.filename]. *)
Definition filename (corn : Filesystem) (item : item_values) : result text :=
  let* values := filename_values item (identity_properties corn) ∅ in
  Str.format (pattern corn) values.

(** [FilesystemItem.full_filename]. *)
Definition full_filename (corn : Filesystem) (item : item_values) : result text :=
  let* filename := filename corn item in
  Ok (Str.join (root_dir corn) (Str.split slash filename)).

(** [Filesystem._join]. *)
Definition _join (self : Filesystem) (path_parts : list text) : text :=
  Str.join (root_dir self) path_parts.

(** [Filesystem._match_part]: [self._path_parts_re[depth]] raises
    [IndexError] out of range. *)
Definition _match_part `{Re.Dict_order} (self : Filesystem) (depth : nat) (name : text)
    : result (option Re.groups) :=
  match _path_parts_re self !! depth with
  | None => Raise IndexError
  | Some r =>
      match Re.match_ r name with
      | None => Ok None
      | Some m => Ok (Some (Re.groupdict_items m))
      end
  end.

(** ** [LazyFileReader] *)

Record LazyFileReader := {
  reader_filename : text;
  reader_encoding : option text;
  content : option pyvalue
}.

(** [LazyFileReader.__init__]. *)
Definition LazyFileReader_init (filename : text) (encoding : option text)
    : LazyFileReader :=
  {| reader_filename := filename; reader_encoding := encoding; content := None |}.

Definition set_content (self : LazyFileReader) (c : pyvalue) : LazyFileReader :=
  {| reader_filename := reader_filename self;
     reader_encoding := reader_encoding self;
     content := Some c |}.

(** What one call of the reader did. *)
Record called := {
  outcome : result pyvalue;       (* the value returned, or the exception *)
  after : LazyFileReader;         (* the reader after the call *)
  reads : list text               (* the files whose [read()] returned *)
}.

(** What a text stream makes of the ends of lines ([io.open] is called
    without [newline], which is the universal newlines mode): a carriage
    return followed by a line feed, and a carriage return alone, are read
    as one line feed. *)
Fixpoint universal_newlines (s : text) : text :=
  match s with
  | [] => []
  | c :: rest =>
      if c =? carriage_return
      then newline ::
           match rest with
           | c' :: rest' =>
               if c' =? newline then universal_newlines rest' else universal_newlines rest
           | [] => []
           end
      else c :: universal_newlines rest
  end.

(** [LazyFileReader.__call__(item)] on a given file system.  Mode ['rb']
    gives the bytes of the file; mode ['rt'] reads them, decodes them and
    translates the ends of lines.  The file is read as soon as it is open:
    a content that cannot be decoded has been read all the same, and
    nothing is kept of it. *)
Definition __call__ `{Codecs} (self : LazyFileReader) (st : Os.fs) : called :=
  match content self with
  | Some c => {| outcome := Ok c; after := self; reads := [] |}
  | None =>
      match Os.read_bytes st (reader_filename self) with
      | Raise e => {| outcome := Raise e; after := self; reads := [] |}
      | Ok data =>
          let decoded :=
            match reader_encoding self with
            | None => Ok (PyStr data)
            | Some enc =>
                let* s := decode enc data in Ok (PyUnicode (universal_newlines s))
            end in
          match decoded with
          | Ok c => {| outcome := Ok c; after := set_content self c;
                       reads := [reader_filename self] |}
          | Raise e => {| outcome := Raise e; after := self;
                          reads := [reader_filename self] |}
          end
      end
  end.

(** The content requested once per file system of [sts], in turn: the
    outcomes, and all the reads. *)
Fixpoint requests `{Codecs} (self : LazyFileReader) (sts : list Os.fs)
    : list (result pyvalue) * list text :=
  match sts with
  | [] => ([], [])
  | st :: sts' =>
      let c := __call__ self st in
      let r := requests (after c) sts' in
      (outcome c :: r.1, reads c ++ r.2)
  end.

(** ** Commands on the file system

    A command runs on a file system and leaves one behind, also when it
    raises: nothing is rolled back. *)
Definition io (A : Type) : Type := Os.fs -> result A * Os.fs.

Definition io_ret {A} (a : A) : io A := fun st => (Ok a, st).

Definition io_raise {A} (e : exn) : io A := fun st => (Raise e, st).

Definition io_bind {A B} (c : io A) (k : A -> io B) : io B :=
  fun st =>
    match c st with
    | (Ok a, st') => k a st'
    | (Raise e, st') => (Raise e, st')
    end.

(** A system call that changes the file system, or fails and changes nothing. *)
Definition syscall (f : Os.fs -> result Os.fs) : io unit :=
  fun st =>
    match f st with
    | Ok st' => (Ok tt, st')
    | Raise e => (Raise e, st)
    end.

(** A call that only looks at the file system. *)
Definition inspect {A} (f : Os.fs -> A) : io A := fun st => (Ok (f st), st).

Definition io_lift {A} (r : result A) : io A := fun st => (r, st).

Notation "'do' x '<-' c ';' k" := (io_bind c (fun x => k))
  (at level 10, x pattern, c at level 100, k at level 200).
Notation "'do_' c ';' k" := (io_bind c (fun _ => k))
  (at level 10, c at level 100, k at level 200).

(** [os.makedirs]: the missing ancestors are made first, from the top; the
    directory itself is then made, which fails when it exists. *)
Fixpoint makedirs_loop (done : text) (todo : list text) : io unit :=
  match todo with
  | [] => io_ret tt
  | name :: todo' =>
      let here := done ++ name in
      do_ (match todo' with
           | [] => syscall (fun st => Os.mkdir st here)
           | _ => do present <- inspect (fun st => text_eqb here [] || Os.exists_ st here);
                  if (present : bool) then io_ret tt
                  else syscall (fun st => Os.mkdir st here)
           end);
      makedirs_loop (here ++ [slash]) todo'
  end.

Definition makedirs (p : text) : io unit :=
  makedirs_loop [] (Str.split slash (Str.rstrip_slash p)).

(** What [stream.write] accepts: bytes in mode ['wb'], unicode in mode
    ['wt'], which is encoded (a line feed is written as it is on a POSIX
    system). *)
Definition to_write `{Codecs} (encoding : option text) (v : pyvalue) : result text :=
  match encoding, v with
  | None, PyStr b => Ok b
  | Some enc, PyUnicode s => encode enc s
  | _, _ => Raise (TypeError Not_unicode)
  end.

(** [Filesystem.save].  The item is one of this access point
    ([assert item.corn is self]); [full] is the local [filename] of the
    source. *)
Definition save `{Codecs} (self : Filesystem) (item : item_values) : io unit :=
  do full <- io_lift (full_filename self item);
  if negb (Str.startswith full (root_dir self)) then io_raise AssertionError
  else
    let directory := Str.dirname full in
    do present <- inspect (fun st => Os.exists_ st directory);
    do_ (if (present : bool) then io_ret tt else makedirs directory);
    do_ syscall (fun st => Os.open_w st full);
    do v <- io_lift (match item !! content_property self with
                     | Some v => Ok v
                     | None => Raise (KeyError (content_property self))
                     end);
    do data <- io_lift (to_write (encoding self) v);
    syscall (fun st => Os.write st full data).

(** The [while] loop of [Filesystem.delete].  [path_parts] is held in
    reverse, so that [path_parts.pop()] takes the head off. *)
Fixpoint remove_empty_directories (self : Filesystem) (rev_path_parts : list text)
    : io unit :=
  match rev_path_parts with
  | [] => io_ret tt
  | _ :: parents =>
      let directory := _join self (rev rev_path_parts) in
      do names <- (fun st => (Os.listdir st directory, st));
      match names with
      | _ :: _ => io_ret tt
      | [] =>
          do_ syscall (fun st => Os.rmdir st directory);
          remove_empty_directories self parents
      end
  end.

(** [Filesystem.delete]. *)
Definition delete_ (self : Filesystem) (item : item_values) : io unit :=
  do full <- io_lift (full_filename self item);
  if negb (Str.startswith full (root_dir self)) then io_raise AssertionError
  else
    do_ syscall (fun st => Os.remove st full);
    do relative <- io_lift (filename self item);
    let path_parts := Str.split slash relative in
    remove_empty_directories self (tail (rev path_parts)).

(** ** Enumeration *)

(** Modelled from the spec: [AbstractCorn.create] (in [abstract.py], not
    among the sources) makes the record: "merged FieldValueSet plus a
    DeferredContent bound to the concrete file path, wired to a content
    field name supplied at configuration time". *)
Record Item := {
  values : Re.groups;
  lazy_values : text * LazyFileReader
}.

Definition create (values : Re.groups) (lazy_values : text * LazyFileReader) : Item :=
  {| values := values; lazy_values := lazy_values |}.

(** [Filesystem._create_item]. *)
Definition _create_item (self : Filesystem) (filename : text) (values : Re.groups)
    : Item :=
  let reader := LazyFileReader_init filename (encoding self) in
  create values (content_property self, reader).

(** A generator that goes on with another one, unless it has raised. *)
Definition and_then {A} (g : generated A) (g' : generated A) : generated A :=
  match g.2 with
  | Some e => g
  | None => (g.1 ++ g'.1, g'.2)
  end.

(** The [for] loop of [Filesystem._walk] over the names of a directory;
    [descend] is the recursive call [self._walk]. *)
Fixpoint walk_entries `{Re.Dict_order} (self : Filesystem) (st : Os.fs)
    (descend : list text -> Re.groups -> option (generated Item))
    (path_parts : list text) (previous_values : Re.groups)
    (depth : nat) (is_leaf : bool) (names : list text)
    : option (generated Item) :=
  match names with
  | [] => Some ([], None)
  | name :: names' =>
      let continue := walk_entries self st descend path_parts previous_values
                                   depth is_leaf names' in
      match _match_part self depth name with
      | Raise e => Some ([], Some e)
      | Ok None => continue
      | Ok (Some new_values) =>
          let values := previous_values ++ new_values in
          let new_path_parts := path_parts ++ [name] in
          let filename := _join self new_path_parts in
          if is_leaf && Os.isfile st filename
          then g ← continue;
               Some (yield (_create_item self filename values) g)
          else if negb is_leaf && Os.isdir st filename
          then sub ← descend new_path_parts values;
               match sub.2 with
               | Some e => Some sub
               | None => g ← continue; Some (and_then sub g)
               end
          else continue
      end
  end.

(** [Filesystem._walk] on a file system that does not change during the
    walk.  [fuel] bounds the depth of the recursion; [None] is the walk
    that needs more. *)
Fixpoint _walk `{Re.Dict_order} (fuel : nat) (self : Filesystem) (st : Os.fs)
    (path_parts : list text) (previous_values : Re.groups)
    : option (generated Item) :=
  match fuel with
  | O => None
  | S fuel' =>
      let depth := length path_parts in
      let is_leaf :=
        (Z.of_nat depth =? Z.of_nat (length (_path_parts_re self)) - 1)%Z in
      match Os.listdir st (_join self path_parts) with
      | Raise e => Some ([], Some e)
      | Ok names =>
          walk_entries self st (_walk fuel' self st) path_parts previous_values
                       depth is_leaf names
      end
  end.

(** [Filesystem._all], with fuel for a walk as deep as the pattern. *)
Definition _all `{Re.Dict_order} (self : Filesystem) (st : Os.fs)
    : option (generated Item) :=
  _walk (length (_path_parts_re self)) self st [] [].

(** ** The examples of the specification *)

Definition dir_2024 : Os.fs :=
  <[ [u "srv"] := Os.Dir ]>
  (<[ [u "srv"; u "data"] := Os.Dir ]>
  (<[ [u "srv"; u "data"; u "2024"] := Os.Dir ]>
  (<[ [u "srv"; u "data"; u "2024"; u "03-01.txt"] := Os.File (u "hello") ]>
  (<[ [u "srv"; u "data"; u "2024"; u "notes.txt"] := Os.File (u "notes") ]> ∅)))).

Definition corn_ymd : result Filesystem :=
  __init__ (u "log") (u "/srv/data") (u "{year}/{month}-{day}.txt") None (u "content").

(** Whether the path [p] leads to the directory [root] or below it. *)
Definition lies_under (st : Os.fs) (root p : text) : bool :=
  match Os.locate st root, Os.locate st p with
  | Some r, Some q => bool_decide (r `prefix_of` q)
  | _, _ => false
  end.

(** The value errors of the specification (section 7): a field value
    that is not text, a field value with a path separator, an identity
    field that is missing. *)
Definition is_value_error (e : exn) : bool :=
  match e with
  | ValueError Slash_in_value => true
  | TypeError Not_unicode => true
  | UnicodeError => true
  | KeyError _ => true
  | _ => false
  end.

Definition corn_ab : result Filesystem :=
  __init__ (u "pairs") (u "/srv/data") (u "{a}/{b}") None (u "content").

Definition dir_flat : Os.fs :=
  <[ [u "srv"] := Os.Dir ]>
  (<[ [u "srv"; u "data"] := Os.Dir ]>
  (<[ [u "srv"; u "data"; u "x"] := Os.File (u "payload") ]> ∅)).

Definition dir_outside : Os.fs :=
  <[ [u "srv"] := Os.Dir ]>
  (<[ [u "srv"; u "data"] := Os.Dir ]>
  (<[ [u "srv"; u "x"] := Os.File (u "not ours") ]> ∅)).

(** A directory with a file that is no ASCII text. *)
Definition dir_blob : Os.fs :=
  <[ [u "srv"] := Os.Dir ]>
  (<[ [u "srv"; u "data"] := Os.Dir ]>
  (<[ [u "srv"; u "data"; u "blob"] := Os.File ["255"%char] ]> ∅)).

(** A directory with a text file whose lines end as on Windows. *)
Definition dir_crlf : Os.fs :=
  <[ [u "srv"] := Os.Dir ]>
  (<[ [u "srv"; u "data"] := Os.Dir ]>
  (<[ [u "srv"; u "data"; u "memo"] :=
        Os.File (u "one" ++ [carriage_return; newline] ++ u "two") ]> ∅)).

Definition item_ab (a b : string) : item_values :=
  <[u "a" := PyUnicode (u a)]>
  (<[u "b" := PyUnicode (u b)]>
  (<[u "content" := PyStr (u "payload")]> ∅)).

(** The records of the specification (section 4.2), as a relation:
    [record_below self st path_parts previous item] when [item] is a
    record found under the directory of the components [path_parts] below
    the root, [previous] being the field values captured on the way down
    to it.  At leaf depth an entry of the directory whose name is matched
    by the matcher of the depth and which is a regular file is a record:
    it holds the field values captured down to it and a content accessor,
    not yet read, bound to the path of the entry, under the content
    property and with the encoding of the access point.  Above leaf depth
    an entry whose name is matched and which is a directory is descended
    into. *)
Inductive record_below `{Re.Dict_order} (self : Filesystem) (st : Os.fs)
    : list text -> Re.groups -> Item -> Prop :=
  | record_at_leaf path_parts previous names name matcher m :
      Z.of_nat (length path_parts) = (Z.of_nat (length (_path_parts_re self)) - 1)%Z ->
      Os.listdir st (Str.join (root_dir self) path_parts) = Ok names ->
      name ∈ names ->
      _path_parts_re self !! length path_parts = Some matcher ->
      Re.match_ matcher name = Some m ->
      Os.isfile st (Str.join (root_dir self) (path_parts ++ [name])) = true ->
      record_below self st path_parts previous
        {| values := previous ++ Re.groupdict_items m;
           lazy_values :=
             (content_property self,
              {| reader_filename := Str.join (root_dir self) (path_parts ++ [name]);
                 reader_encoding := encoding self;
                 content := None |}) |}
  | record_in_directory path_parts previous names name matcher m item :
      (Z.of_nat (length path_parts) < Z.of_nat (length (_path_parts_re self)) - 1)%Z ->
      Os.listdir st (Str.join (root_dir self) path_parts) = Ok names ->
      name ∈ names ->
      _path_parts_re self !! length path_parts = Some matcher ->
      Re.match_ matcher name = Some m ->
      Os.isdir st (Str.join (root_dir self) (path_parts ++ [name])) = true ->
      record_below self st (path_parts ++ [name]) (previous ++ Re.groupdict_items m) item ->
      record_below self st path_parts previous item.

(** A record found among the entries [names] of the directory
    [path_parts]: the step of [record_below] for one listing. *)
Definition record_among `{Re.Dict_order} (self : Filesystem) (st : Os.fs)
    (path_parts : list text) (previous : Re.groups) (names : list text)
    (item : Item) : Prop :=
  exists name new_values,
    name ∈ names
    /\ _match_part self (length path_parts) name = Ok (Some new_values)
    /\ ((Z.of_nat (length path_parts) = (Z.of_nat (length (_path_parts_re self)) - 1)%Z
         /\ Os.isfile st (_join self (path_parts ++ [name])) = true
         /\ item = _create_item self (_join self (path_parts ++ [name]))
                                (previous ++ new_values))
        \/ ((Z.of_nat (length path_parts) < Z.of_nat (length (_path_parts_re self)) - 1)%Z
            /\ Os.isdir st (_join self (path_parts ++ [name])) = true
            /\ record_below self st (path_parts ++ [name]) (previous ++ new_values) item)).

(** What is established of a walk below [path_parts]: it ends, without an
    exception, and yields the records of the specification. *)
Definition walk_result_ok (self : Filesystem) (st : Os.fs)
    (P : Item -> Prop) (r : option (generated Item)) : Prop :=
  exists g, r = Some g /\ g.2 = None /\ forall item, item ∈ g.1 <-> P item.

(** A property of the access point that a construction gives; it fails
    when the construction raises. *)
Definition on_corn (r : result Filesystem) (P : Filesystem -> Prop) : Prop :=
  match r with
  | Ok corn => P corn
  | Raise _ => False
  end.

(** ** Patterns by their elements

    Read as [format] reads a template, a pattern is a sequence of
    elements: a character that is no brace, an escaped brace, or a
    replacement field. *)
Inductive chunk :=
  | Plain (c : ascii)          (* a character other than a brace *)
  | Open_brace                 (* the two characters of an escaped opening brace *)
  | Close_brace                (* the two characters of an escaped closing brace *)
  | Field (name : text).       (* an opening brace, a name, a closing brace *)

Definition unparse_chunk (k : chunk) : text :=
  match k with
  | Plain c => [c]
  | Open_brace => [lbrace; lbrace]
  | Close_brace => [rbrace; rbrace]
  | Field name => lbrace :: name ++ [rbrace]
  end.

(** The text of a pattern. *)
Definition unparse (ks : list chunk) : text := concat (map unparse_chunk ks).

Definition brace_free (s : text) : bool := forallb (fun c => negb (is_brace c)) s.

Definition chunk_ok (k : chunk) : bool :=
  match k with
  | Plain c => negb (is_brace c)
  | Field name => brace_free name
  | _ => true
  end.

(** No escaped brace is directly followed by a brace of its kind: after
    an escaped opening brace comes no opening brace (of an escape or of a
    field), after an escaped closing brace no escaped closing brace. *)
Fixpoint well_spaced (ks : list chunk) : bool :=
  match ks with
  | [] => true
  | k :: ks' =>
      chunk_ok k && well_spaced ks' &&
      match k, ks' with
      | Open_brace, Open_brace :: _ => false
      | Open_brace, Field _ :: _ => false
      | Close_brace, Close_brace :: _ => false
      | _, _ => true
      end
  end.

(** The token of an element. *)
Definition token_of (k : chunk) : token :=
  match k with
  | Plain c => if c =? slash then Path_separator c else Literal c
  | Open_brace => Literal lbrace
  | Close_brace => Literal rbrace
  | Field name => Property name
  end.

(** The piece of a regular expression for an element that is no slash. *)
Definition piece_of (k : chunk) : re_piece :=
  match k with
  | Plain c => Escaped c
  | Open_brace => Escaped lbrace
  | Close_brace => Escaped rbrace
  | Field name => Group name
  end.

Definition is_separator (k : chunk) : bool :=
  match k with
  | Plain c => c =? slash
  | _ => false
  end.

(** The slash-separated parts of a pattern. *)
Fixpoint segments (ks : list chunk) : list (list chunk) :=
  match ks with
  | [] => [[]]
  | k :: ks' =>
      if is_separator k then [] :: segments ks'
      else match segments ks' with
           | seg :: segs => (k :: seg) :: segs
           | [] => [[k]]
           end
  end.

Definition field_names (ks : list chunk) : list text :=
  omap (fun k => match k with Field name => Some name | _ => None end) ks.

(** The text that [format] makes of the elements. *)
Fixpoint derive (kwargs : gmap text text) (ks : list chunk) : result text :=
  match ks with
  | [] => Ok []
  | Field name :: ks' =>
      let* v := Str.get_field kwargs name in
      Str.emit v (derive kwargs ks')
  | Plain c :: ks' => Str.emit [c] (derive kwargs ks')
  | Open_brace :: ks' => Str.emit [lbrace] (derive kwargs ks')
  | Close_brace :: ks' => Str.emit [rbrace] (derive kwargs ks')
  end.

(** Matching the components of a relative path, each with the matcher of
    its depth, and merging the captured values as [_walk] does
    ([values = previous_values + new_values]).  [Ok None] when a component
    does not match. *)
Fixpoint match_parts `{Re.Dict_order} (self : Filesystem) (depth : nat) (names : list text)
    (previous_values : Re.groups) : result (option Re.groups) :=
  match names with
  | [] => Ok (Some previous_values)
  | name :: names' =>
      match _match_part self depth name with
      | Raise e => Raise e
      | Ok None => Ok None
      | Ok (Some new_values) =>
          match_parts self (S depth) names' (previous_values ++ new_values)
      end
  end.

(** The record with the given text values. *)
Definition as_item (vs : Re.groups) : item_values :=
  list_to_map (map (fun nv => (nv.1, PyUnicode nv.2)) vs).

(** Every part of the pattern has one field at most. *)
Definition group_names (r : regex) : list text :=
  omap (fun p => match p with Group name => Some name | Escaped _ => None end) r.

Definition one_field_per_part (parts : list regex) : bool :=
  forallb (fun r => (length (group_names r) <=? 1)%nat) parts.

(** The first character of a pattern. *)
Definition first_char (ks : list chunk) : option ascii :=
  match ks with
  | [] => None
  | Plain c :: _ => Some c
  | Open_brace :: _ => Some lbrace
  | Close_brace :: _ => Some rbrace
  | Field _ :: _ => Some lbrace
  end.

(** The text an expression matches in full when its groups take [vals]. *)
Fixpoint expand (r : regex) (vals : list text) : text :=
  match r with
  | [] => []
  | Escaped c :: r' => c :: expand r' vals
  | Group _ :: r' =>
      match vals with
      | v :: vals' => v ++ expand r' vals'
      | [] => expand r' []
      end
  end.

Definition newline_free (s : text) : bool := negb (Str.contains newline s).
Definition slash_free (s : text) : bool := negb (Str.contains slash s).

(** The number of newlines of a text, and of the literals of an expression. *)
Fixpoint newlines (s : text) : nat :=
  match s with
  | [] => 0
  | c :: s' => (if c =? newline then 1 else 0) + newlines s'
  end.

Fixpoint newline_literals (r : regex) : nat :=
  match r with
  | [] => 0
  | Escaped c :: r' => (if c =? newline then 1 else 0) + newline_literals r'
  | Group _ :: r' => newline_literals r'
  end.

(** The value of a field in keyword arguments, empty when it is missing. *)
Definition value_of (kwargs : gmap text text) (name : text) : text :=
  default [] (kwargs !! name).

(** [sep.join(parts)] for the slash. *)
Fixpoint join_slash (parts : list text) : text :=
  match parts with
  | [] => []
  | [part] => part
  | part :: parts' => part ++ slash :: join_slash parts'
  end.

Definition corn_dash : result Filesystem :=
  __init__ (u "pairs") (u "/srv/data") (u "{a}-{b}") None (u "content").

(** The text of an element under keyword arguments, and of a sequence of
    elements. *)
Definition text_of (kwargs : gmap text text) (k : chunk) : text :=
  match k with
  | Plain c => [c]
  | Open_brace => [lbrace]
  | Close_brace => [rbrace]
  | Field name => value_of kwargs name
  end.

Definition render (kwargs : gmap text text) (ks : list chunk) : text :=
  concat (map (text_of kwargs) ks).

(** The text value of a property of a record, empty when it has none. *)
Definition text_value (item : item_values) (name : text) : text :=
  match item !! name with
  | Some (PyUnicode s) => s
  | _ => []
  end.

(** What matching a part of the path has to capture: the fields of the
    part of the pattern, with values that make the same text. *)
Definition captured_for (kwargs : gmap text text) (seg : list chunk)
    (gs : Re.groups) : Prop :=
  map fst gs = field_names seg
  /\ expand (map piece_of seg) (map snd gs) = render kwargs seg.

(** The pattern [a{{b}}c/{x}] by its elements, and a record for it. *)
Definition pattern_escaped : list chunk :=
  [Plain "a"; Open_brace; Plain "b"; Close_brace; Plain "c"; Plain "/"; Field (u "x")].

Definition corn_escaped : result Filesystem :=
  __init__ (u "escaped") (u "/srv/data") (unparse pattern_escaped) None (u "content").

Definition item_x : item_values :=
  <[u "x" := PyUnicode (u "1")]> (<[u "content" := PyStr (u "payload")]> ∅).

(** ** Further notions for the properties of the code *)


(** What the loop of [_parse_pattern] keeps true of its state: no matcher
    is empty, and the property names are the group names of the matchers
    and of the expression under construction, in order, distinct and
    identifiers. *)
Definition parser_inv (st : parser_state) : Prop :=
  Forall (fun r => r <> []) (path_parts_re st)
  /\ path_properties st
     = concat (map group_names (path_parts_re st)) ++ group_names (next_re st)
  /\ NoDup (path_properties st)
  /\ Forall (fun n => isidentifier n = true) (path_properties st).

(** The number of slashes of a text. *)
Fixpoint slashes (s : text) : nat :=
  match s with
  | [] => 0
  | c :: s' => (if c =? slash then 1 else 0) + slashes s'
  end.

(** The separator tokens of a token list, and the slashes in the names of
    its property tokens. *)
Fixpoint separators (toks : list token) : nat :=
  match toks with
  | [] => 0
  | Path_separator _ :: toks' => S (separators toks')
  | _ :: toks' => separators toks'
  end.

Fixpoint property_slashes (toks : list token) : nat :=
  match toks with
  | [] => 0
  | Property name :: toks' => slashes name + property_slashes toks'
  | _ :: toks' => property_slashes toks'
  end.

(** A generator of tokens that yields one more separator before it ends,
    unless it raises. *)
Definition one_more_separator (g : generated token) : generated token :=
  match g.2 with
  | None => (g.1 ++ [Path_separator slash], None)
  | Some _ => g
  end.

(** * Properties *)

(** ** The environment model on examples *)

Example parse_year_month_day :
  _parse_pattern (u "{year}/{month}-{day}.txt") =
  Ok ([ [Group (u "year")];
        [Group (u "month"); Escaped "-"; Group (u "day");
         Escaped "."; Escaped "t"; Escaped "x"; Escaped "t"] ],
      [u "year"; u "month"; u "day"]).
Proof. reflexivity. Qed.

Example format_year_month_day :
  Str.format (u "{year}/{month}-{day}.txt")
    (<[u "year" := u "2024"]> (<[u "month" := u "03"]> (<[u "day" := u "01"]> ∅)))
  = Ok (u "2024/03-01.txt").
Proof. vm_compute. reflexivity. Qed.

Example format_escaped_braces :
  Str.format (u "a{{b}}c/{x}") (<[u "x" := u "1"]> ∅) = Ok (u "a{b}c/1").
Proof. vm_compute. reflexivity. Qed.

Example dirname_examples :
  Str.dirname (u "/srv/data/2024/03-01.txt") = u "/srv/data/2024" /\
  Str.dirname (u "/x") = u "/" /\ Str.dirname (u "x") = u "" /\
  Str.join (u "/srv") [u ""; u "x"] = u "/srv/x" /\
  Str.join (u "/srv") [u ""] = u "/srv/" /\
  Str.split slash (u "/x") = [u ""; u "x"].
Proof. vm_compute. repeat split. Qed.

(** ** The pattern compiler *)

(** C6.  The pattern [{year}/{month}-{day}.txt] compiles to exactly two
    segment matchers and to the three field names year, month, day in the
    order of their declaration; the pattern [{a}/{a}.txt] is refused
    because the name [a] appears twice. *)
Theorem parse_pattern_examples :
  _parse_pattern (u "{year}/{month}-{day}.txt") =
    Ok ([ [Group (u "year")];
          [Group (u "month"); Escaped "-"; Group (u "day");
           Escaped "."; Escaped "t"; Escaped "x"; Escaped "t"] ],
        [u "year"; u "month"; u "day"])
  /\ _parse_pattern (u "{a}/{a}.txt") =
    Raise (ValueError (Duplicate_property_name (u "a") (u "{a}/{a}.txt"))).
Proof. split; reflexivity. Qed.

(** C4.  On the pattern [{{{a}] the tokenizer does not read an escaped
    brace followed by the field [a]: it skips two braces, emits the third
    one as a literal, and then raises on the closing brace, so the pattern
    is refused.  In [{{{{] the four braces give one literal brace, not two.
    [format] reads both templates as the specification describes.  The
    pattern [a{{b}}c/{x}], where the braces come in isolated pairs,
    compiles to a first matcher for the text [a{b}c]. *)
Theorem tokenize_brace_runs :
  _tokenize_pattern (u "{{{a}") =
    ([Literal "{"; Literal "a"], Some (ValueError Single_close_brace))
  /\ _parse_pattern (u "{{{a}") = Raise (ValueError Single_close_brace)
  /\ Str.format (u "{{{a}") (<[u "a" := u "1"]> ∅) = Ok (u "{1")
  /\ _tokenize_pattern (u "{{{{") = ([Literal "{"; Path_separator "/"], None)
  /\ Str.format (u "{{{{") ∅ = Ok (u "{{")
  /\ _parse_pattern (u "a{{b}}c/{x}") =
       Ok ([ [Escaped "a"; Escaped "{"; Escaped "b"; Escaped "}"; Escaped "c"];
             [Group (u "x")] ], [u "x"]).
Proof. vm_compute. repeat split. Qed.

(** C7.  The second matcher of [{year}/{month}-{day}.txt] accepts the
    name [03-01.txt] followed by a newline: the match stops before the
    newline, which is a character of the name that the match leaves out.
    [_match_part] returns the two captured values, in the order of the
    dictionary. *)
Theorem match_stops_before_final_newline `{Re.Dict_order} :
  on_corn corn_ymd (fun corn =>
    _path_parts_re corn !! 1%nat =
      Some [Group (u "month"); Escaped "-"; Group (u "day");
            Escaped "."; Escaped "t"; Escaped "x"; Escaped "t"]
    /\ Re.match_ [Group (u "month"); Escaped "-"; Group (u "day");
                  Escaped "."; Escaped "t"; Escaped "x"; Escaped "t"]
                 (u "03-01.txt" ++ [newline]) =
         Some ([(u "month", u "03"); (u "day", u "01")], [newline])
    /\ _match_part corn 1 (u "03-01.txt" ++ [newline]) =
         Ok (Some (Re.items [(u "month", u "03"); (u "day", u "01")]))).
Proof. vm_compute. repeat split. Qed.

(** ** Mutation *)

(** C2.  With the pattern [{a}/{b}] and a record whose [a] is the empty
    text, the derived file is [/srv/data/x], directly in the root.  Once
    the file is removed, the loop of [delete] joins the root with the
    empty name, finds the root empty and removes it. *)
Theorem delete_removes_the_root :
  on_corn corn_ab (fun corn =>
    root_dir corn = u "/srv/data"
    /\ full_filename corn (item_ab "" "x") = Ok (u "/srv/data/x")
    /\ Os.isdir dir_flat (root_dir corn) = true
    /\ (delete_ corn (item_ab "" "x") dir_flat).1 = Ok tt
    /\ Os.exists_ (delete_ corn (item_ab "" "x") dir_flat).2 (root_dir corn) = false
    /\ Os.listdir (delete_ corn (item_ab "" "x") dir_flat).2 (u "/srv") = Ok []).
Proof. vm_compute. repeat split. Qed.

(** C3.  With the pattern [{a}/{b}] and a record whose [a] is [..], the
    derived path [/srv/data/../x] starts with the text of the root, so the
    assertion of [save] and [delete] holds, although the path leads out of
    the root: [save] writes [/srv/x] and [delete] removes it, and neither
    raises. *)
Theorem dotdot_escapes_the_root :
  on_corn corn_ab (fun corn =>
    full_filename corn (item_ab ".." "x") = Ok (u "/srv/data/../x")
    /\ Str.startswith (u "/srv/data/../x") (root_dir corn) = true
    /\ lies_under dir_flat (root_dir corn) (u "/srv/data/../x") = false
    /\ Os.exists_ dir_flat (u "/srv/x") = false
    /\ (save (H := latin1) corn (item_ab ".." "x") dir_flat).1 = Ok tt
    /\ Os.read_bytes (save (H := latin1) corn (item_ab ".." "x") dir_flat).2 (u "/srv/x")
       = Ok (u "payload")
    /\ Os.read_bytes dir_outside (u "/srv/x") = Ok (u "not ours")
    /\ (delete_ corn (item_ab ".." "x") dir_outside).1 = Ok tt
    /\ Os.exists_ (delete_ corn (item_ab ".." "x") dir_outside).2 (u "/srv/x") = false).
Proof. vm_compute. repeat split. Qed.

(** ** Registration *)

Lemma dom_fold_insert (t : Type_) (names : list text) (m : gmap text Type_) :
  dom (fold_left (fun props n => <[n := t]> props) names m)
  = (list_to_set names ∪ dom m : gset text).
Proof.
  revert m. induction names as [|n names IH]; intros m; simpl.
  - set_solver.
  - rewrite IH, dom_insert_L. set_solver.
Qed.

Lemma init_inv name0 root pat enc cp corn :
  __init__ name0 root pat enc cp = Ok corn ->
  _parse_pattern pat = Ok (_path_parts_re corn, identity_properties corn)
  /\ root_dir corn = root /\ pattern corn = pat /\ encoding corn = enc
  /\ content_property corn = cp.
Proof.
  unfold __init__. destruct (_parse_pattern pat) as [[parts props]|e]; simpl; [|discriminate].
  intros [= <-]. simpl. auto.
Qed.

(** C10.  On an access point that was constructed, the properties are the
    field names of the pattern and the content property, and [register]
    raises [TypeError] whatever its arguments are, leaving the access
    point as it was. *)
Theorem register_raises_type_error
    (name0 root pat : text) (enc : option text) (cp : text) (corn : Filesystem) :
  __init__ name0 root pat enc cp = Ok corn ->
  dom (properties corn) = (list_to_set (identity_properties corn) ∪ {[cp]} : gset text)
  /\ forall (n : text) (kwargs : gmap text pyvalue),
       register corn n kwargs = (Raise (TypeError No_extra_properties), corn).
Proof.
  intros Hinit. split; [|reflexivity].
  revert Hinit. unfold __init__.
  destruct (_parse_pattern pat) as [[parts props]|e]; simpl; [|discriminate].
  intros [= <-]. simpl.
  rewrite dom_insert_L, dom_fold_insert. set_solver.
Qed.

Lemma register_raises_type_error_witness :
  exists corn,
    corn_ymd = Ok corn
    /\ dom (properties corn)
       = (list_to_set [u "year"; u "month"; u "day"] ∪ {[u "content"]} : gset text)
    /\ register corn (u "size") ∅ = (Raise (TypeError No_extra_properties), corn).
Proof.
  destruct corn_ymd as [corn|e] eqn:E; [|vm_compute in E; discriminate].
  exists corn.
  pose proof (register_raises_type_error _ _ _ _ _ _ E) as [Hdom Hreg].
  assert (identity_properties corn = [u "year"; u "month"; u "day"]) as Hid.
  { vm_compute in E. injection E as <-. reflexivity. }
  rewrite Hid in Hdom.
  split; [reflexivity|]. split; [exact Hdom | apply Hreg].
Defined.

(** ** Path derivation *)

Lemma strict_unicode_error v e :
  strict_unicode v = Raise e -> is_value_error e = true.
Proof.
  destruct v as [s|b|]; simpl; try discriminate.
  - destruct (is_ascii_text b); [discriminate|]. intros [= <-]. reflexivity.
  - intros [= <-]. reflexivity.
Qed.

Lemma filename_values_rejects_slash (item : item_values) (names : list text) :
  forall (acc : gmap text text) (name : text) (v : pyvalue) (value : text),
    name ∈ names -> item !! name = Some v -> strict_unicode v = Ok value ->
    Str.contains slash value = true ->
    exists e,
      is_value_error e = true
      /\ filename_values item names acc = Raise e
      /\ ((forall n, n ∈ names -> exists s, item !! n = Some (PyUnicode s)) ->
          e = ValueError Slash_in_value).
Proof.
  induction names as [|n names IH]; intros acc name v value Hin Hv Hs Hc.
  - inversion Hin.
  - simpl. destruct (item !! n) as [v'|] eqn:En; simpl.
    + destruct (strict_unicode v') as [s|e] eqn:Es; simpl.
      * destruct (Str.contains slash s) eqn:Ec.
        { exists (ValueError Slash_in_value). repeat split; auto. }
        apply elem_of_cons in Hin as [->|Hin].
        { rewrite Hv in En. injection En as <-. rewrite Hs in Es.
          injection Es as <-. congruence. }
        destruct (IH (<[n := s]> acc) name v value Hin Hv Hs Hc) as (e & He & Hr & Hall).
        exists e. repeat split; auto.
        intros Hu. apply Hall. intros n' Hn'. apply Hu. now apply list_elem_of_further.
      * exists e. split; [eapply strict_unicode_error; eauto|]. split; [reflexivity|].
        intros Hu. destruct (Hu n) as [s Hn]; [apply list_elem_of_here|].
        rewrite Hn in En. injection En as <-. discriminate.
    + exists (KeyError n). repeat split; auto.
      intros Hu. destruct (Hu n) as [s Hn]; [apply list_elem_of_here|]. congruence.
Qed.

(** C8.  When an identity property of a record has a text value with a
    slash in it, deriving the path ([filename], [full_filename]) raises a
    value error, and so does [save], which leaves the file system as it
    was: nothing is created, written or removed.  The error is the
    [ValueError] about the slash as soon as all identity values are
    unicode; an identity value that comes first and is missing or is no
    text raises the value error of its own. *)
Theorem slash_value_is_rejected `{Codecs}
    (corn : Filesystem) (item : item_values) (st : Os.fs)
    (name : text) (v : pyvalue) (value : text) :
  name ∈ identity_properties corn ->
  item !! name = Some v ->
  strict_unicode v = Ok value ->
  Str.contains slash value = true ->
  exists e,
    is_value_error e = true
    /\ filename corn item = Raise e
    /\ full_filename corn item = Raise e
    /\ save corn item st = (Raise e, st)
    /\ delete_ corn item st = (Raise e, st)
    /\ ((forall n, n ∈ identity_properties corn ->
                   exists s, item !! n = Some (PyUnicode s)) ->
        e = ValueError Slash_in_value).
Proof.
  intros Hin Hv Hs Hc.
  destruct (filename_values_rejects_slash item (identity_properties corn) ∅
              name v value Hin Hv Hs Hc) as (e & He & Hr & Hall).
  exists e.
  assert (filename corn item = Raise e) as Hf.
  { unfold filename. rewrite Hr. reflexivity. }
  assert (full_filename corn item = Raise e) as Hff.
  { unfold full_filename. rewrite Hf. reflexivity. }
  repeat split; auto.
  - unfold save, io_bind, io_lift. rewrite Hff. reflexivity.
  - unfold delete_, io_bind, io_lift. rewrite Hff. reflexivity.
Qed.

Lemma slash_value_is_rejected_witness :
  exists corn e,
    corn_ab = Ok corn
    /\ is_value_error e = true
    /\ filename corn (item_ab "2024/03" "x") = Raise e
    /\ save (H := latin1) corn (item_ab "2024/03" "x") dir_flat = (Raise e, dir_flat).
Proof.
  destruct corn_ab as [corn|e0] eqn:E; [|vm_compute in E; discriminate].
  assert (identity_properties corn = [u "a"; u "b"]) as Hid.
  { vm_compute in E. injection E as <-. reflexivity. }
  destruct (slash_value_is_rejected (H := latin1) corn (item_ab "2024/03" "x") dir_flat
              (u "a") (PyUnicode (u "2024/03")) (u "2024/03"))
    as (e & He & Hf & _ & Hs & _).
  - rewrite Hid. apply list_elem_of_here.
  - reflexivity.
  - reflexivity.
  - reflexivity.
  - exists corn, e. auto.
Defined.

(** ** The read-once content accessor *)

Lemma call_cached `{Codecs} (self : LazyFileReader) (c : pyvalue) (st : Os.fs) :
  content self = Some c ->
  __call__ self st = {| outcome := Ok c; after := self; reads := [] |}.
Proof. intros Hc. unfold __call__. rewrite Hc. reflexivity. Qed.

Lemma requests_cached `{Codecs} (self : LazyFileReader) (c : pyvalue) (sts : list Os.fs) :
  content self = Some c ->
  requests self sts = (map (fun _ => Ok c) sts, []).
Proof.
  intros Hc. induction sts as [|st sts IH]; simpl; [reflexivity|].
  rewrite (call_cached self c st Hc). simpl. rewrite IH. reflexivity.
Qed.

(** A request that raises leaves the reader as it was. *)
Lemma call_failed `{Codecs} (self : LazyFileReader) (st : Os.fs) (e : exn) :
  outcome (__call__ self st) = Raise e -> after (__call__ self st) = self.
Proof.
  unfold __call__. destruct (content self) as [c|]; [discriminate|].
  destruct (Os.read_bytes st (reader_filename self)) as [data|e']; [|reflexivity].
  destruct (reader_encoding self) as [enc|]; [|discriminate].
  destruct (decode enc data) as [s|e']; [discriminate|reflexivity].
Qed.

(** The request that reads a readable file. *)
Lemma call_read `{Codecs} (filename0 : text) (encoding0 : option text) (st : Os.fs)
    (data : text) (c : pyvalue) :
  Os.read_bytes st filename0 = Ok data ->
  match encoding0 with
  | None => c = PyStr data
  | Some enc => exists s, decode enc data = Ok s /\ c = PyUnicode (universal_newlines s)
  end ->
  __call__ (LazyFileReader_init filename0 encoding0) st
  = {| outcome := Ok c;
       after := set_content (LazyFileReader_init filename0 encoding0) c;
       reads := [filename0] |}.
Proof.
  intros Hread Hc. unfold __call__, LazyFileReader_init.
  cbn [content reader_filename reader_encoding]. rewrite Hread.
  destruct encoding0 as [enc|].
  - destruct Hc as (s & Hs & ->). rewrite Hs. reflexivity.
  - subst c. reflexivity.
Qed.

Lemma requests_after_failures `{Codecs} (self : LazyFileReader) (before rest : list Os.fs) :
  Forall (fun st0 => exists e, outcome (__call__ self st0) = Raise e) before ->
  requests self (before ++ rest)
  = (map (fun st0 => outcome (__call__ self st0)) before ++ (requests self rest).1,
     concat (map (fun st0 => reads (__call__ self st0)) before) ++ (requests self rest).2).
Proof.
  induction 1 as [|st0 before [e He] _ IH]; simpl.
  - now destruct (requests self rest).
  - rewrite (call_failed self st0 e He), IH. simpl. now rewrite <- app_assoc.
Qed.

(** C9, amended.  Take a reader that has not read its file, any number of
    requests that fail, and then a request on a file system where the
    file can be read and, when an encoding is configured, decoded.  The
    requests that fail are each as the first one would be: nothing is kept
    of them.  The request that follows reads the file, once, and returns
    the whole of it: its bytes when no encoding is configured, and
    otherwise the decoded text with the ends of lines translated.  Every
    later request returns that value and reads nothing, whatever the file
    has become. *)
Theorem lazy_reader_reads_once `{Codecs}
    (filename0 : text) (encoding0 : option text)
    (before : list Os.fs) (st : Os.fs) (later : list Os.fs)
    (data : text) (c : pyvalue) :
  Forall (fun st0 => exists e,
            outcome (__call__ (LazyFileReader_init filename0 encoding0) st0) = Raise e)
         before ->
  Os.read_bytes st filename0 = Ok data ->
  match encoding0 with
  | None => c = PyStr data
  | Some enc => exists s, decode enc data = Ok s /\ c = PyUnicode (universal_newlines s)
  end ->
  requests (LazyFileReader_init filename0 encoding0) (before ++ st :: later)
  = (map (fun st0 => outcome (__call__ (LazyFileReader_init filename0 encoding0) st0)) before
       ++ Ok c :: map (fun _ => Ok c) later,
     concat (map (fun st0 => reads (__call__ (LazyFileReader_init filename0 encoding0) st0))
                 before)
       ++ [filename0]).
Proof.
  intros Hbefore Hread Hc.
  rewrite (requests_after_failures _ before (st :: later) Hbefore).
  cbn [requests]. rewrite (call_read filename0 encoding0 st data c Hread Hc).
  cbn [outcome after reads].
  rewrite (requests_cached _ c later) by reflexivity. reflexivity.
Qed.

Lemma lazy_reader_reads_once_witness :
  requests (H := latin1) (LazyFileReader_init (u "/srv/data/memo") (Some (u "latin-1")))
    ([dir_flat] ++ dir_crlf :: [dir_flat; dir_blob])
  = ([Raise (OSError (u "/srv/data/memo"));
      Ok (PyUnicode (u "one" ++ [newline] ++ u "two"));
      Ok (PyUnicode (u "one" ++ [newline] ++ u "two"));
      Ok (PyUnicode (u "one" ++ [newline] ++ u "two"))],
     [u "/srv/data/memo"]).
Proof.
  apply (lazy_reader_reads_once (H := latin1) (u "/srv/data/memo") (Some (u "latin-1"))
           [dir_flat] dir_crlf [dir_flat; dir_blob]
           (u "one" ++ [carriage_return; newline] ++ u "two")
           (PyUnicode (u "one" ++ [newline] ++ u "two"))).
  - constructor; [|constructor]. exists (OSError (u "/srv/data/memo")). reflexivity.
  - reflexivity.
  - exists (u "one" ++ [carriage_return; newline] ++ u "two"). split; reflexivity.
Defined.

(** C9, as stated, fails.  A file that cannot be decoded is read by
    every request: the read succeeds, the decoding raises, and nothing is
    kept, so that the next request opens and reads the file again. *)
Lemma undecodable_file_is_read_again :
  requests (H := ascii_codec) (LazyFileReader_init (u "/srv/data/blob") (Some (u "ascii")))
    [dir_blob; dir_blob; dir_blob]
  = ([Raise UnicodeError; Raise UnicodeError; Raise UnicodeError],
     [u "/srv/data/blob"; u "/srv/data/blob"; u "/srv/data/blob"]).
Proof. vm_compute. reflexivity. Qed.

(** ** Enumeration *)

Lemma match_part_spec `{Re.Dict_order} self depth name0 new_values :
  _match_part self depth name0 = Ok (Some new_values) <->
  exists matcher m,
    _path_parts_re self !! depth = Some matcher
    /\ Re.match_ matcher name0 = Some m
    /\ new_values = Re.groupdict_items m.
Proof.
  unfold _match_part. split.
  - destruct (_path_parts_re self !! depth) as [r|]; [|discriminate].
    destruct (Re.match_ r name0) as [m|] eqn:Hm; [|discriminate].
    intros [= <-]. exists r, m. auto.
  - intros (r & m & -> & -> & ->). reflexivity.
Qed.

Lemma record_below_among `{Re.Dict_order} self st path_parts previous item :
  record_below self st path_parts previous item <->
  exists names,
    Os.listdir st (_join self path_parts) = Ok names
    /\ record_among self st path_parts previous names item.
Proof.
  split.
  - intros Hr.
    destruct Hr as [pp prev names n matcher m Hd Hl Hin Hm Hrun Hf
                   |pp prev names n matcher m item Hd Hl Hin Hm Hrun Hdir Hrec];
      exists names; (split; [exact Hl|]); exists n, (Re.groupdict_items m);
      (split; [exact Hin|]); (split; [apply match_part_spec; eauto|]).
    + left. split; [exact Hd|]. split; [exact Hf|reflexivity].
    + right. auto.
  - intros (names & Hl & n & new_values & Hin & Hm & Hcases).
    apply match_part_spec in Hm as (matcher & m & Hm & Hrun & ->).
    destruct Hcases as [(Hd & Hf & ->)|(Hd & Hdir & Hr)].
    + exact (record_at_leaf self st path_parts previous names n matcher m
               Hd Hl Hin Hm Hrun Hf).
    + exact (record_in_directory self st path_parts previous names n matcher m item
               Hd Hl Hin Hm Hrun Hdir Hr).
Qed.

Lemma isdir_listdir st p :
  Os.isdir st p = true -> exists names, Os.listdir st p = Ok names.
Proof.
  unfold Os.isdir, Os.listdir. destruct (Os.locate st p) as [q|]; [|discriminate].
  intros ->. eauto.
Qed.

Lemma match_part_in_range `{Re.Dict_order} self depth name0 :
  (depth < length (_path_parts_re self))%nat ->
  exists o, _match_part self depth name0 = Ok o.
Proof.
  intros Hlt. unfold _match_part.
  destruct (lookup_lt_is_Some_2 (_path_parts_re self) depth Hlt) as [r ->].
  destruct (Re.match_ r name0); eauto.
Qed.

Lemma record_among_nil `{Re.Dict_order} self st path_parts previous item :
  ~ record_among self st path_parts previous [] item.
Proof. intros (n & v & Hin & _). inversion Hin. Qed.

Lemma record_among_cons `{Re.Dict_order} self st path_parts previous name0 names item :
  record_among self st path_parts previous (name0 :: names) item <->
  record_among self st path_parts previous [name0] item
  \/ record_among self st path_parts previous names item.
Proof.
  unfold record_among. split.
  - intros (n & v & Hin & Hrest). apply elem_of_cons in Hin as [->|Hin].
    + left. exists name0, v. split; [apply list_elem_of_here|auto].
    + right. exists n, v. auto.
  - intros [(n & v & Hin & Hrest)|(n & v & Hin & Hrest)]; exists n, v; split; auto.
    + apply list_elem_of_singleton in Hin as ->. apply list_elem_of_here.
    + now apply list_elem_of_further.
Qed.

Lemma walk_entries_spec `{Re.Dict_order} self st descend path_parts previous names :
  (length path_parts < length (_path_parts_re self))%nat ->
  (forall name0 new_values,
      (Z.of_nat (length path_parts) < Z.of_nat (length (_path_parts_re self)) - 1)%Z ->
      Os.isdir st (_join self (path_parts ++ [name0])) = true ->
      walk_result_ok self st
        (record_below self st (path_parts ++ [name0]) (previous ++ new_values))
        (descend (path_parts ++ [name0]) (previous ++ new_values))) ->
  walk_result_ok self st
    (record_among self st path_parts previous names)
    (walk_entries self st descend path_parts previous (length path_parts)
       (Z.of_nat (length path_parts) =? Z.of_nat (length (_path_parts_re self)) - 1)%Z
       names).
Proof.
  intros Hlt Hdesc. induction names as [|name0 names IH].
  - exists ([], None). simpl. repeat split; auto.
    + intros Hin. inversion Hin.
    + intros Hr. now apply record_among_nil in Hr.
  - destruct IH as (g & Hg & Hg2 & Hgi). simpl.
    destruct (match_part_in_range self (length path_parts) name0 Hlt) as [o Ho].
    rewrite Ho.
    assert (forall item, record_among self st path_parts previous [name0] item <->
              exists new_values, o = Some new_values /\
                ((Z.of_nat (length path_parts) = (Z.of_nat (length (_path_parts_re self)) - 1)%Z
                  /\ Os.isfile st (_join self (path_parts ++ [name0])) = true
                  /\ item = _create_item self (_join self (path_parts ++ [name0]))
                                         (previous ++ new_values))
                 \/ ((Z.of_nat (length path_parts) < Z.of_nat (length (_path_parts_re self)) - 1)%Z
                     /\ Os.isdir st (_join self (path_parts ++ [name0])) = true
                     /\ record_below self st (path_parts ++ [name0])
                                     (previous ++ new_values) item))) as Hone.
    { intros item. split.
      - intros (n & v & Hin & Hm & Hcases). apply list_elem_of_singleton in Hin as ->.
        rewrite Ho in Hm. injection Hm as ->. eauto.
      - intros (v & -> & Hcases). exists name0, v. split; [apply list_elem_of_here|]. auto. }
    destruct o as [new_values|].
    2:{ exists g. repeat split; auto.
        - intros Hin. apply record_among_cons. right. now apply Hgi.
        - intros Hr. apply record_among_cons in Hr as [Hr|Hr]; [|now apply Hgi].
          apply Hone in Hr as (v & Hv & _). discriminate. }
    destruct (Z.of_nat (length path_parts) =? Z.of_nat (length (_path_parts_re self)) - 1)%Z
      eqn:Hleaf.
    + apply Z.eqb_eq in Hleaf. simpl.
      destruct (Os.isfile st (_join self (path_parts ++ [name0]))) eqn:Hfile; simpl.
      * rewrite Hg. simpl.
        exists (yield (_create_item self (_join self (path_parts ++ [name0]))
                                    (previous ++ new_values)) g).
        repeat split; auto.
        -- simpl. intros Hin. apply record_among_cons.
           apply elem_of_cons in Hin as [->|Hin].
           ++ left. apply Hone. exists new_values. split; auto.
           ++ right. now apply Hgi.
        -- simpl. intros Hr. apply record_among_cons in Hr as [Hr|Hr].
           ++ apply Hone in Hr as (v & [= <-] & [(_ & _ & ->)|(Hd & _)]).
              ** apply list_elem_of_here.
              ** lia.
           ++ apply list_elem_of_further. now apply Hgi.
      * exists g. repeat split; auto.
        -- intros Hin. apply record_among_cons. right. now apply Hgi.
        -- intros Hr. apply record_among_cons in Hr as [Hr|Hr]; [|now apply Hgi].
           apply Hone in Hr as (v & [= <-] & [(_ & Hf & _)|(Hd & _)]); [congruence|lia].
    + apply Z.eqb_neq in Hleaf. simpl.
      assert (Z.of_nat (length path_parts) < Z.of_nat (length (_path_parts_re self)) - 1)%Z
        as Hbelow by lia.
      destruct (Os.isdir st (_join self (path_parts ++ [name0]))) eqn:Hdir; simpl.
      * destruct (Hdesc name0 new_values Hbelow Hdir) as (sub & Hsub & Hsub2 & Hsubi).
        rewrite Hsub. simpl. rewrite Hsub2. rewrite Hg. simpl.
        exists (and_then sub g). unfold and_then. rewrite Hsub2. simpl.
        repeat split; auto.
        -- intros Hin. apply record_among_cons. apply elem_of_app in Hin as [Hin|Hin].
           ++ left. apply Hone. exists new_values. split; auto. right.
              repeat split; auto. now apply Hsubi.
           ++ right. now apply Hgi.
        -- intros Hr. apply elem_of_app. apply record_among_cons in Hr as [Hr|Hr].
           ++ apply Hone in Hr as (v & [= <-] & [(Hd & _)|(_ & _ & Hrec)]); [lia|].
              left. now apply Hsubi.
           ++ right. now apply Hgi.
      * exists g. repeat split; auto.
        -- intros Hin. apply record_among_cons. right. now apply Hgi.
        -- intros Hr. apply record_among_cons in Hr as [Hr|Hr]; [|now apply Hgi].
           apply Hone in Hr as (v & [= <-] & [(Hd & _)|(_ & Hd & _)]); [lia|congruence].
Qed.

Lemma walk_spec `{Re.Dict_order} self st :
  forall fuel path_parts previous names,
    (length path_parts < length (_path_parts_re self))%nat ->
    (length (_path_parts_re self) - length path_parts <= fuel)%nat ->
    Os.listdir st (_join self path_parts) = Ok names ->
    walk_result_ok self st (record_below self st path_parts previous)
      (_walk fuel self st path_parts previous).
Proof.
  induction fuel as [|fuel IH]; intros path_parts previous names Hlt Hfuel Hl.
  - lia.
  - simpl. rewrite Hl.
    destruct (walk_entries_spec self st (_walk fuel self st) path_parts previous names Hlt)
      as (g & Hg & Hg2 & Hgi).
    + intros name0 new_values Hbelow Hdir.
      destruct (isdir_listdir _ _ Hdir) as [names' Hl'].
      apply (IH (path_parts ++ [name0]) (previous ++ new_values) names').
      * rewrite length_app. simpl. lia.
      * rewrite length_app. simpl. lia.
      * exact Hl'.
    + exists g. repeat split; auto.
      * intros Hin. apply record_below_among. exists names. split; [exact Hl|]. now apply Hgi.
      * intros Hr. apply record_below_among in Hr as (names' & Hl' & Hr).
        rewrite Hl in Hl'. injection Hl' as <-. now apply Hgi.
Qed.

Lemma tokenize_ends_with_separator chars :
  forall prev field toks,
    tokenize_loop prev field chars = (toks, None) ->
    exists toks', toks = toks' ++ [Path_separator slash].
Proof.
  induction chars as [|c chars IH]; intros prev field toks; simpl.
  - destruct field; [discriminate|]. intros [= <-]. exists []. reflexivity.
  - destruct field as [field_name|].
    + destruct (c =? rbrace).
      * destruct (tokenize_loop (Some c) None chars) as [ts e] eqn:E. unfold yield. simpl.
        intros [= <- ->]. destruct (IH _ _ _ E) as [toks' ->].
        exists (Property field_name :: toks'). reflexivity.
      * apply IH.
    + destruct (c =? slash).
      { destruct (tokenize_loop (Some c) None chars) as [ts e] eqn:E. unfold yield. simpl.
        intros [= <- ->]. destruct (IH _ _ _ E) as [toks' ->].
        exists (Path_separator c :: toks'). reflexivity. }
      destruct (is_brace c && opt_ascii_eqb (head chars) c); [apply IH|].
      destruct ((c =? rbrace) && negb (opt_ascii_eqb prev c)); [discriminate|].
      destruct ((c =? lbrace) && negb (opt_ascii_eqb prev c)); [apply IH|].
      destruct (tokenize_loop (Some c) None chars) as [ts e] eqn:E. unfold yield. simpl.
      intros [= <- ->]. destruct (IH _ _ _ E) as [toks' ->].
      exists (Literal c :: toks'). reflexivity.
Qed.

Lemma parse_loop_app pat toks toks' ending :
  forall st,
    parse_loop pat st (toks ++ toks') ending =
    (let* st' := parse_loop pat st toks None in parse_loop pat st' toks' ending).
Proof.
  induction toks as [|tok toks IH]; intros st; simpl; [reflexivity|].
  destruct (parse_token pat st tok) as [st'|e]; simpl; [apply IH|reflexivity].
Qed.

Lemma parse_pattern_has_a_part pat parts props :
  _parse_pattern pat = Ok (parts, props) -> (1 <= length parts)%nat.
Proof.
  unfold _parse_pattern.
  destruct (_tokenize_pattern pat) as [toks ending] eqn:Et. simpl.
  destruct (parse_loop pat (Parser_state [] [] []) toks ending) as [st|e] eqn:Ep;
    simpl; [|discriminate].
  intros [= <- <-].
  destruct ending as [e|].
  - exfalso. clear Et. revert Ep. generalize (Parser_state [] [] []).
    induction toks as [|tok toks IH]; intros st0; simpl; [discriminate|].
    destruct (parse_token pat st0 tok); simpl; [apply IH|discriminate].
  - destruct (tokenize_ends_with_separator _ _ _ _ Et) as [toks' ->].
    rewrite parse_loop_app in Ep.
    destruct (parse_loop pat (Parser_state [] [] []) toks' None) as [st1|e]; simpl in Ep;
      [|discriminate].
    destruct (next_re st1); simpl in Ep; [discriminate|].
    injection Ep as <-. simpl. rewrite length_app. simpl. lia.
Qed.

(** ** The tokenizer and [format] on the elements of a pattern *)

Lemma not_brace_inv c :
  is_brace c = false -> (c =? lbrace) = false /\ (c =? rbrace) = false.
Proof. unfold is_brace. intros H. now apply orb_false_iff in H. Qed.

Lemma tokenize_field name :
  forall prev acc rest,
    brace_free name = true ->
    tokenize_loop prev (Some acc) (name ++ rbrace :: rest)
    = yield (Property (acc ++ name)) (tokenize_loop (Some rbrace) None rest).
Proof.
  induction name as [|c name IH]; intros prev acc rest Hfree; simpl.
  - rewrite app_nil_r. reflexivity.
  - simpl in Hfree. apply andb_true_iff in Hfree as [Hc Hfree].
    apply negb_true_iff, not_brace_inv in Hc as [_ Hc]. rewrite Hc.
    rewrite IH by assumption. rewrite <- app_assoc. reflexivity.
Qed.


Lemma head_unparse ks : head (unparse ks) = first_char ks.
Proof. destruct ks as [|[c| | |name] ks]; reflexivity. Qed.

Lemma tokenize_chunks ks :
  forall prev,
    well_spaced ks = true ->
    match ks with Field _ :: _ => prev <> Some lbrace | _ => True end ->
    tokenize_loop prev None (unparse ks)
    = (map token_of ks ++ [Path_separator slash], None).
Proof.
  induction ks as [|k ks IH]; intros prev Hwf Hprev; [reflexivity|].
  simpl in Hwf. apply andb_true_iff in Hwf as [Hwf Hadj].
  apply andb_true_iff in Hwf as [Hk Hwf].
  destruct k as [c| | |name]; unfold unparse; simpl; fold (unparse ks).
  - simpl in Hk. apply negb_true_iff in Hk.
    destruct (not_brace_inv c Hk) as [Hl Hr].
    assert (tokenize_loop (Some c) None (unparse ks)
            = (map token_of ks ++ [Path_separator slash], None)) as Hrest.
    { apply IH; [assumption|]. destruct ks as [|[]]; auto.
      intros [= ->]. discriminate. }
    rewrite Hrest, Hk, Hl, Hr. simpl.
    destruct (c =? slash); reflexivity.
  - rewrite head_unparse.
    assert (opt_ascii_eqb (first_char ks) lbrace = false) as Hhead.
    { destruct ks as [|[c| | |name] ks]; simpl in *; try reflexivity; try discriminate.
      apply andb_true_iff in Hwf as [Hwf _]. apply andb_true_iff in Hwf as [Hc _].
      simpl in Hc. apply negb_true_iff, not_brace_inv in Hc as [Hc _]. exact Hc. }
    rewrite Hhead. simpl.
    rewrite IH; [reflexivity|assumption|].
    destruct ks as [|[]]; auto; discriminate.
  - rewrite head_unparse.
    assert (opt_ascii_eqb (first_char ks) rbrace = false) as Hhead.
    { destruct ks as [|[c| | |name] ks]; simpl in *; try reflexivity; try discriminate.
      apply andb_true_iff in Hwf as [Hwf _]. apply andb_true_iff in Hwf as [Hc _].
      simpl in Hc. apply negb_true_iff, not_brace_inv in Hc as [_ Hc]. exact Hc. }
    rewrite Hhead. simpl.
    rewrite IH; [reflexivity|assumption|].
    destruct ks as [|[]]; auto; discriminate.
  - simpl in Hk.
    assert (opt_ascii_eqb (head (name ++ rbrace :: unparse ks)) lbrace = false) as Hhead.
    { destruct name as [|c name]; [reflexivity|]. simpl in *.
      apply andb_true_iff in Hk as [Hc _].
      apply negb_true_iff, not_brace_inv in Hc as [Hc _]. exact Hc. }
    rewrite <- app_assoc. simpl. rewrite Hhead. simpl.
    assert (opt_ascii_eqb prev lbrace = false) as Hp.
    { destruct prev as [p|]; [|reflexivity]. simpl.
      destruct (Ascii.eqb_spec p lbrace); [subst; congruence|reflexivity]. }
    rewrite Hp. simpl.
    rewrite tokenize_field by assumption.
    rewrite IH; [reflexivity|assumption|].
    destruct ks as [|[]]; auto; discriminate.
Qed.

Lemma format_field kwargs name :
  forall acc rest,
    brace_free name = true ->
    Str.format_loop kwargs (Str.Inside 0 acc) (name ++ rbrace :: rest)
    = (let* v := Str.get_field kwargs (acc ++ name) in
       Str.emit v (Str.format_loop kwargs Str.Outside rest)).
Proof.
  induction name as [|c name IH]; intros acc rest Hfree; simpl.
  - rewrite app_nil_r. reflexivity.
  - simpl in Hfree. apply andb_true_iff in Hfree as [Hc Hfree].
    apply negb_true_iff, not_brace_inv in Hc as [Hl Hr]. rewrite Hl, Hr.
    rewrite IH by assumption. rewrite <- app_assoc. reflexivity.
Qed.

Lemma unparse_cons k ks : unparse (k :: ks) = unparse_chunk k ++ unparse ks.
Proof. reflexivity. Qed.

Lemma format_plain kwargs c rest :
  is_brace c = false ->
  Str.format_loop kwargs Str.Outside (c :: rest)
  = Str.emit [c] (Str.format_loop kwargs Str.Outside rest).
Proof. intros H. simpl. rewrite H. reflexivity. Qed.

Lemma format_escaped kwargs c rest :
  is_brace c = true ->
  Str.format_loop kwargs Str.Outside (c :: c :: rest)
  = Str.emit [c] (Str.format_loop kwargs Str.Outside rest).
Proof. intros H. simpl. rewrite H, Ascii.eqb_refl. reflexivity. Qed.

Lemma format_replacement kwargs name rest :
  brace_free name = true ->
  Str.format_loop kwargs Str.Outside (lbrace :: name ++ rbrace :: rest)
  = (let* v := Str.get_field kwargs name in
     Str.emit v (Str.format_loop kwargs Str.Outside rest)).
Proof.
  intros Hfree. destruct name as [|c name]; [reflexivity|].
  simpl in Hfree. apply andb_true_iff in Hfree as [Hc Hfree].
  apply negb_true_iff, not_brace_inv in Hc as [Hl Hr].
  change (Str.format_loop kwargs Str.Outside (lbrace :: (c :: name) ++ rbrace :: rest))
    with (if c =? lbrace
          then Str.emit [lbrace] (Str.format_loop kwargs Str.Outside (name ++ rbrace :: rest))
          else if c =? rbrace
               then let* v := Str.get_field kwargs [] in
                    Str.emit v (Str.format_loop kwargs Str.Outside (name ++ rbrace :: rest))
               else Str.format_loop kwargs (Str.Inside 0 [c]) (name ++ rbrace :: rest)).
  rewrite Hl, Hr. apply format_field. assumption.
Qed.

Lemma format_chunks kwargs ks :
  forallb chunk_ok ks = true ->
  Str.format_loop kwargs Str.Outside (unparse ks) = derive kwargs ks.
Proof.
  induction ks as [|k ks IH]; intros Hok; [reflexivity|].
  simpl in Hok. apply andb_true_iff in Hok as [Hk Hok].
  specialize (IH Hok). rewrite unparse_cons.
  destruct k as [c| | |name]; simpl unparse_chunk; simpl derive.
  - simpl in Hk. apply negb_true_iff in Hk.
    change ([c] ++ unparse ks) with (c :: unparse ks).
    rewrite format_plain, IH by assumption. reflexivity.
  - change ([lbrace; lbrace] ++ unparse ks) with (lbrace :: lbrace :: unparse ks).
    rewrite format_escaped, IH by reflexivity. reflexivity.
  - change ([rbrace; rbrace] ++ unparse ks) with (rbrace :: rbrace :: unparse ks).
    rewrite format_escaped, IH by reflexivity. reflexivity.
  - simpl in Hk.
    change ((lbrace :: name ++ [rbrace]) ++ unparse ks)
      with (lbrace :: (name ++ [rbrace]) ++ unparse ks).
    rewrite <- app_assoc. simpl app at 2.
    rewrite format_replacement, IH by assumption. reflexivity.
Qed.

Lemma well_spaced_ok ks : well_spaced ks = true -> forallb chunk_ok ks = true.
Proof.
  induction ks as [|k ks IH]; [reflexivity|]. simpl. intros H.
  apply andb_true_iff in H as [H _]. apply andb_true_iff in H as [Hk H].
  rewrite Hk. simpl. auto.
Qed.

(** ** The matcher: what it accepts and what it captures *)

Lemma newlines_app a b : newlines (a ++ b) = (newlines a + newlines b)%nat.
Proof. induction a as [|c a IH]; simpl; [reflexivity|]. rewrite IH. lia. Qed.

Lemma newline_free_cons c s :
  newline_free (c :: s) = true <-> (c =? newline) = false /\ newline_free s = true.
Proof.
  unfold newline_free. simpl. rewrite negb_true_iff, orb_false_iff, negb_true_iff.
  reflexivity.
Qed.

Lemma newline_free_app a b :
  newline_free (a ++ b) = true <-> newline_free a = true /\ newline_free b = true.
Proof.
  induction a as [|c a IH]; simpl.
  - split; [intros H; split; [reflexivity|exact H]|intros [_ H]; exact H].
  - rewrite !newline_free_cons, IH. tauto.
Qed.

Lemma newline_free_newlines s : newline_free s = true -> newlines s = 0%nat.
Proof.
  induction s as [|c s IH]; [reflexivity|].
  intros H. apply newline_free_cons in H as [Hc Hs]. simpl. rewrite Hc, IH by assumption.
  reflexivity.
Qed.

Lemma expand_newlines r :
  forall vals,
    Forall (fun v => newline_free v = true) vals ->
    newlines (expand r vals) = newline_literals r.
Proof.
  induction r as [|[c|n] r IH]; intros vals Hv; simpl; [reflexivity| |].
  - rewrite IH by assumption. reflexivity.
  - destruct vals as [|v vals].
    + apply IH. constructor.
    + inversion Hv; subst. rewrite newlines_app, newline_free_newlines by assumption.
      simpl. apply IH. assumption.
Qed.

(** What a successful [star] has done. *)
Lemma star_sound continue name0 s :
  forall taken gs rest,
    Re.star continue name0 taken s = Some (gs, rest) ->
    exists v s' gs',
      s = v ++ s' /\ newline_free v = true
      /\ gs = (name0, taken ++ v) :: gs' /\ continue s' = Some (gs', rest).
Proof.
  induction s as [|c s IH]; intros taken gs rest; simpl.
  - destruct (continue []) as [[gs' rest']|] eqn:Ek; [|discriminate].
    intros [= <- <-]. exists [], [], gs'. repeat split; auto. now rewrite app_nil_r.
  - assert (match continue (c :: s) with
            | Some (gs0, rest0) => Some ((name0, taken) :: gs0, rest0)
            | None => None
            end = Some (gs, rest) ->
            exists v s' gs',
              c :: s = v ++ s' /\ newline_free v = true
              /\ gs = (name0, taken ++ v) :: gs' /\ continue s' = Some (gs', rest)) as Hstop.
    { destruct (continue (c :: s)) as [[gs' rest']|] eqn:Ek; [|discriminate].
      intros [= <- <-]. exists [], (c :: s), gs'. repeat split; auto. now rewrite app_nil_r. }
    destruct (c =? newline) eqn:Hc; [exact Hstop|].
    destruct (Re.star continue name0 (taken ++ [c]) s) as [[gs1 rest1]|] eqn:Es;
      [|exact Hstop].
    intros [= <- <-].
    destruct (IH _ _ _ Es) as (v & s' & gs' & -> & Hv & -> & Hk).
    exists (c :: v), s', gs'. rewrite <- app_assoc. repeat split; auto.
    apply newline_free_cons. auto.
Qed.

Lemma run_sound r :
  forall s gs rest,
    Re.run r s = Some (gs, rest) ->
    map fst gs = group_names r
    /\ s = expand r (map snd gs) ++ rest
    /\ Re.dollar rest = true
    /\ Forall (fun v => newline_free v = true) (map snd gs).
Proof.
  induction r as [|[ch|n] r IH]; intros s gs rest; simpl.
  - destruct (Re.dollar s) eqn:Hd; [|discriminate]. intros [= <- <-]. simpl. auto.
  - destruct s as [|c s]; [discriminate|].
    destruct (Ascii.eqb_spec c ch) as [->|]; [|discriminate].
    intros Hrun. destruct (IH _ _ _ Hrun) as (Hn & -> & Hd & Hv). auto.
  - intros Hstar.
    destruct (star_sound _ _ _ _ _ _ Hstar) as (v & s' & gs' & -> & Hv & -> & Hrun).
    destruct (IH _ _ _ Hrun) as (Hn & -> & Hd & Hvs).
    simpl. rewrite Hn, <- app_assoc. repeat split; auto.
Qed.

(** [star] succeeds as soon as the rest of the expression matches after
    some run of characters that are no newlines. *)
Lemma star_stop continue name0 taken s :
  is_Some (continue s) -> is_Some (Re.star continue name0 taken s).
Proof.
  intros [[gs rest] Hk]. destruct s as [|c s]; simpl; rewrite Hk; [eauto|].
  destruct (c =? newline); [eauto|].
  destruct (Re.star continue name0 (taken ++ [c]) s); eauto.
Qed.

Lemma star_complete continue name0 v :
  forall taken s',
    newline_free v = true -> is_Some (continue s') ->
    is_Some (Re.star continue name0 taken (v ++ s')).
Proof.
  induction v as [|c v IH]; intros taken s' Hv Hk; simpl.
  - now apply star_stop.
  - apply newline_free_cons in Hv as [Hc Hv]. rewrite Hc.
    destruct (IH (taken ++ [c]) s' Hv Hk) as [r ->]. eauto.
Qed.

Lemma run_complete r :
  forall vals rest,
    Forall (fun v => newline_free v = true) vals ->
    Re.dollar rest = true ->
    is_Some (Re.run r (expand r vals ++ rest)).
Proof.
  induction r as [|[ch|n] r IH]; intros vals rest Hv Hd; simpl.
  - rewrite Hd. eauto.
  - rewrite Ascii.eqb_refl. now apply IH.
  - destruct vals as [|v vals].
    + apply (star_complete _ _ [] [] _); [reflexivity|]. apply IH; [constructor|assumption].
    + inversion Hv; subst. rewrite <- app_assoc.
      apply star_complete; [assumption|]. now apply IH.
Qed.

(** On a text made from the expression with values free of newlines, the
    matcher succeeds, matches the text in full, and captures values that
    make the same text. *)
Lemma run_roundtrip r vals :
  Forall (fun v => newline_free v = true) vals ->
  exists gs,
    Re.run r (expand r vals) = Some (gs, [])
    /\ map fst gs = group_names r
    /\ expand r (map snd gs) = expand r vals
    /\ Forall (fun v => newline_free v = true) (map snd gs).
Proof.
  intros Hv.
  destruct (run_complete r vals [] Hv eq_refl) as [[gs rest] Hrun].
  rewrite app_nil_r in Hrun.
  destruct (run_sound _ _ _ _ Hrun) as (Hn & Heq & Hd & Hvs).
  assert (rest = []) as ->.
  { assert (newlines rest = 0%nat) as Hz.
    { pose proof (f_equal newlines Heq) as Hc.
      rewrite newlines_app, !expand_newlines in Hc by assumption. lia. }
    destruct rest as [|c [|c' rest]]; [reflexivity| |discriminate].
    simpl in Hd. simpl in Hz. rewrite Hd in Hz. discriminate. }
  rewrite app_nil_r in Heq. exists gs. auto.
Qed.

(** ** The parser on the elements of a pattern *)

Lemma segments_cons ks : exists seg segs, segments ks = seg :: segs.
Proof.
  induction ks as [|k ks (seg & segs & IH)]; simpl; [eauto|].
  destruct (is_separator k); [eauto|]. rewrite IH. eauto.
Qed.

Lemma mem_text_false x l : mem_text x l = false -> x ∉ l.
Proof.
  unfold mem_text. induction l as [|y l IH]; simpl; intros H Hin.
  - inversion Hin.
  - apply orb_false_iff in H as [Hxy H]. apply elem_of_cons in Hin as [->|Hin].
    + unfold text_eqb in Hxy. apply bool_decide_eq_false in Hxy. congruence.
    + now apply IH.
Qed.

Lemma parse_chunks pat ks :
  forallb chunk_ok ks = true ->
  forall st st',
    parse_loop pat st (map token_of ks ++ [Path_separator slash]) None = Ok st' ->
    exists seg segs,
      segments ks = seg :: segs
      /\ path_parts_re st' =
           path_parts_re st ++ (next_re st ++ map piece_of seg) :: map (map piece_of) segs
      /\ path_properties st' = path_properties st ++ field_names ks
      /\ Forall (fun n => isidentifier n = true) (field_names ks)
      /\ (NoDup (path_properties st) -> NoDup (path_properties st'))
      /\ Forall (Forall (fun k => is_separator k = false)) (seg :: segs).
Proof.
  induction ks as [|k ks IH]; intros Hok st st'.
  - simpl. destruct (next_re st) as [|p r] eqn:Hre; simpl; [discriminate|].
    intros [= <-]. exists [], []. simpl. rewrite !app_nil_r. repeat split; auto.
  - simpl in Hok. apply andb_true_iff in Hok as [Hk Hok]. specialize (IH Hok).
    destruct (segments_cons ks) as (seg & segs & Hseg).
    simpl map. simpl app. simpl parse_loop.
    destruct (parse_token pat st (token_of k)) as [st1|e] eqn:Etok; simpl; [|discriminate].
    intros Hloop. destruct (IH st1 st' Hloop) as (seg' & segs' & Hseg' & Hparts & Hprops & Hid & Hnd & Hsep).
    rewrite Hseg in Hseg'. injection Hseg' as <- <-.
    assert (forall k0, is_separator k0 = false ->
              Forall (Forall (fun k => is_separator k = false)) ((k0 :: seg) :: segs)) as Hsep'.
    { intros k0 Hk0. inversion Hsep; subst. constructor; [constructor|]; auto. }
    destruct k as [c| | |n]; simpl in Etok.
    + destruct (c =? slash) eqn:Hc; simpl in Etok.
      * destruct (next_re st) as [|p r] eqn:Hre; [discriminate|]. injection Etok as <-.
        simpl in *. exists [], (seg :: segs). rewrite Hc, Hseg.
        split; [reflexivity|]. split; [rewrite Hparts, app_nil_r, <- app_assoc; reflexivity|].
        split; [exact Hprops|]. split; [exact Hid|]. split; [exact Hnd|].
        constructor; [constructor|exact Hsep].
      * injection Etok as <-. simpl in *. exists (Plain c :: seg), segs.
        rewrite Hc, Hseg.
        split; [reflexivity|]. split; [rewrite Hparts, <- app_assoc; reflexivity|].
        split; [exact Hprops|]. split; [exact Hid|]. split; [exact Hnd|].
        apply Hsep'. exact Hc.
    + injection Etok as <-. simpl in *. exists (Open_brace :: seg), segs.
      rewrite Hseg.
      split; [reflexivity|]. split; [rewrite Hparts, <- app_assoc; reflexivity|].
      split; [exact Hprops|]. split; [exact Hid|]. split; [exact Hnd|].
      apply Hsep'. reflexivity.
    + injection Etok as <-. simpl in *. exists (Close_brace :: seg), segs.
      rewrite Hseg.
      split; [reflexivity|]. split; [rewrite Hparts, <- app_assoc; reflexivity|].
      split; [exact Hprops|]. split; [exact Hid|]. split; [exact Hnd|].
      apply Hsep'. reflexivity.
    + destruct (isidentifier n) eqn:Hident; simpl in Etok; [|discriminate].
      destruct (mem_text n (path_properties st)) eqn:Hmem; [discriminate|].
      injection Etok as <-. simpl in *. exists (Field n :: seg), segs.
      rewrite Hseg.
      split; [reflexivity|]. split; [rewrite Hparts, <- app_assoc; reflexivity|].
      split; [rewrite Hprops, <- app_assoc; reflexivity|].
      split; [constructor; assumption|].
      split; [|apply Hsep'; reflexivity].
      intros Hnd0. apply Hnd. apply NoDup_app. repeat split; auto.
      * intros x Hx Hx'. apply list_elem_of_singleton in Hx' as ->.
        now apply mem_text_false in Hmem.
      * apply NoDup_singleton.
Qed.

Lemma parse_pattern_chunks ks parts props :
  well_spaced ks = true ->
  _parse_pattern (unparse ks) = Ok (parts, props) ->
  parts = map (map piece_of) (segments ks)
  /\ props = field_names ks
  /\ Forall (fun n => isidentifier n = true) props
  /\ NoDup props
  /\ Forall (Forall (fun k => is_separator k = false)) (segments ks).
Proof.
  intros Hwf. unfold _parse_pattern, _tokenize_pattern.
  rewrite tokenize_chunks; [|assumption|destruct ks as [|[]]; auto; discriminate].
  simpl.
  destruct (parse_loop (unparse ks) (Parser_state [] [] [])
              (map token_of ks ++ [Path_separator slash]) None) as [st|e] eqn:Ep;
    simpl; [|discriminate].
  intros [= <- <-].
  destruct (parse_chunks _ _ (well_spaced_ok _ Hwf) _ _ Ep)
    as (seg & segs & Hseg & Hparts & Hprops & Hid & Hnd & Hsep).
  simpl in *. rewrite Hseg, Hparts, Hprops. repeat split; auto.
  - rewrite <- Hprops. apply Hnd. constructor.
Qed.

(** ** Deriving a path from the elements of a pattern *)

Lemma ident_char_plain c :
  is_ident_char c = true ->
  negb ((c =? "!") || (c =? ":") || (c =? ".") || (c =? "[")
        || (c =? lbrace) || (c =? rbrace)) = true.
Proof.
  destruct c as [b0 b1 b2 b3 b4 b5 b6 b7].
  destruct b0, b1, b2, b3, b4, b5, b6, b7; vm_compute; intros H;
    first [reflexivity | discriminate H].
Qed.

Lemma ident_start_not_digit c : is_ident_start c = true -> is_digit c = false.
Proof.
  destruct c as [b0 b1 b2 b3 b4 b5 b6 b7].
  destruct b0, b1, b2, b3, b4, b5, b6, b7; vm_compute; intros H;
    first [reflexivity | discriminate H].
Qed.

Lemma identifier_plain_field n :
  isidentifier n = true ->
  Str.plain_field n = true /\ forallb is_digit n = false /\ n <> [].
Proof.
  destruct n as [|c n]; [discriminate|]. simpl.
  intros H. apply andb_true_iff in H as [Hc Hn].
  pose proof (ident_start_not_digit c Hc) as Hd. rewrite Hd. simpl.
  repeat split; [|discriminate].
  assert (is_ident_char c = true) as Hc' by (unfold is_ident_char; rewrite Hc; reflexivity).
  rewrite (ident_char_plain c Hc'). simpl.
  clear -Hn. induction n as [|c n IH]; [reflexivity|]. simpl in *.
  apply andb_true_iff in Hn as [Hc Hn]. rewrite (ident_char_plain c Hc). simpl. auto.
Qed.

Lemma get_field_identifier kwargs n v :
  isidentifier n = true -> kwargs !! n = Some v -> Str.get_field kwargs n = Ok v.
Proof.
  intros Hid Hv. destruct (identifier_plain_field n Hid) as (Hp & Hd & Hne).
  unfold Str.get_field. destruct n as [|c n]; [congruence|].
  rewrite Hd, Hp, Hv. reflexivity.
Qed.

Lemma derive_render kwargs ks :
  (forall n, n ∈ field_names ks -> isidentifier n = true /\ is_Some (kwargs !! n)) ->
  derive kwargs ks = Ok (render kwargs ks).
Proof.
  induction ks as [|k ks IH]; intros H; [reflexivity|].
  assert (derive kwargs ks = Ok (render kwargs ks)) as Hrest.
  { apply IH. intros n Hn. apply H. destruct k; simpl; auto. now apply list_elem_of_further. }
  destruct k as [c| | |n]; simpl; rewrite ?Hrest; try reflexivity.
  destruct (H n) as [Hid [v Hv]]; [simpl; apply list_elem_of_here|].
  rewrite (get_field_identifier _ _ _ Hid Hv). simpl. rewrite ?Hrest. simpl.
  change (render kwargs (Field n :: ks)) with (value_of kwargs n ++ render kwargs ks).
  unfold value_of. rewrite Hv. reflexivity.
Qed.

Lemma split_app_free v rest :
  slash_free v = true ->
  Str.split slash (v ++ rest) =
  match Str.split slash rest with
  | part :: parts => (v ++ part) :: parts
  | [] => [v]
  end.
Proof.
  induction v as [|c v IH]; intros Hv; simpl.
  - destruct (Str.split slash rest) eqn:E; [|reflexivity].
    destruct rest as [|c rest]; simpl in E; [discriminate|].
    destruct (c =? slash); [discriminate|]. destruct (Str.split slash rest); discriminate.
  - unfold slash_free in Hv. simpl in Hv. apply negb_true_iff, orb_false_iff in Hv as [Hc Hv].
    rewrite Hc, IH by (unfold slash_free; rewrite Hv; reflexivity).
    destruct (Str.split slash rest); reflexivity.
Qed.

Lemma split_render kwargs ks :
  forallb chunk_ok ks = true ->
  (forall n, n ∈ field_names ks -> slash_free (value_of kwargs n) = true) ->
  Str.split slash (render kwargs ks) = map (render kwargs) (segments ks).
Proof.
  induction ks as [|k ks IH]; intros Hok Hv; [reflexivity|].
  simpl in Hok. apply andb_true_iff in Hok as [Hk Hok].
  assert (Str.split slash (render kwargs ks) = map (render kwargs) (segments ks)) as Hrest.
  { apply IH; [assumption|]. intros n Hn. apply Hv.
    destruct k; simpl; auto. now apply list_elem_of_further. }
  destruct (segments_cons ks) as (seg & segs & Hseg). rewrite Hseg in Hrest.
  assert (forall c, (c =? slash) = false ->
            Str.split slash (c :: render kwargs ks)
            = (c :: render kwargs seg) :: map (render kwargs) segs) as Hchar.
  { intros c Hc. simpl. rewrite Hc, Hrest. reflexivity. }
  destruct k as [c| | |n]; simpl segments; rewrite ?Hseg.
  - simpl is_separator. destruct (c =? slash) eqn:Hc.
    + unfold render at 1. simpl. fold (render kwargs ks). rewrite Hc, Hrest. reflexivity.
    + apply Hchar. exact Hc.
  - apply Hchar. reflexivity.
  - apply Hchar. reflexivity.
  - unfold render at 1. simpl. fold (render kwargs ks).
    rewrite split_app_free, Hrest; [reflexivity|].
    apply Hv. simpl. apply list_elem_of_here.
Qed.

Lemma render_expand kwargs seg :
  render kwargs seg
  = expand (map piece_of seg) (map (value_of kwargs) (field_names seg)).
Proof.
  induction seg as [|k seg IH]; [reflexivity|].
  destruct k as [c| | |n]; unfold render in *; simpl; rewrite IH; reflexivity.
Qed.

Lemma group_names_pieces seg : group_names (map piece_of seg) = field_names seg.
Proof.
  induction seg as [|k seg IH]; [reflexivity|].
  destruct k; simpl; rewrite ?IH; reflexivity.
Qed.

Lemma field_names_segments ks :
  field_names ks = concat (map field_names (segments ks)).
Proof.
  induction ks as [|k ks IH]; [reflexivity|].
  destruct (segments_cons ks) as (seg & segs & Hseg).
  simpl segments. rewrite Hseg in *.
  destruct k as [c| | |n]; simpl; try (destruct (c =? slash)); simpl; rewrite IH; reflexivity.
Qed.

(** ** Round trip: deriving a path and matching it *)

Lemma slash_free_cons c s :
  slash_free (c :: s) = true <-> (c =? slash) = false /\ slash_free s = true.
Proof.
  unfold slash_free. simpl. rewrite negb_true_iff, orb_false_iff, negb_true_iff.
  reflexivity.
Qed.

Lemma slash_free_app a b :
  slash_free (a ++ b) = true <-> slash_free a = true /\ slash_free b = true.
Proof.
  induction a as [|c a IH]; simpl.
  - split; [intros H; split; [reflexivity|exact H]|intros [_ H]; exact H].
  - rewrite !slash_free_cons, IH. tauto.
Qed.

Lemma split_parts_free s : Forall (fun part => slash_free part = true) (Str.split slash s).
Proof.
  induction s as [|c s IH]; simpl; [repeat constructor|].
  destruct (c =? slash) eqn:Hc; [constructor; [reflexivity|assumption]|].
  destruct (Str.split slash s) as [|part parts]; [repeat constructor; apply slash_free_cons; auto|].
  inversion IH; subst. constructor; [|assumption]. apply slash_free_cons. auto.
Qed.

Lemma expand_slash_free r :
  forall vals,
    length vals = length (group_names r) ->
    slash_free (expand r vals) = true ->
    Forall (fun v => slash_free v = true) vals.
Proof.
  induction r as [|[c|n] r IH]; intros vals Hlen Hfree; simpl in *.
  - destruct vals; [constructor|discriminate].
  - apply slash_free_cons in Hfree as [_ Hfree]. now apply IH.
  - destruct vals as [|v vals]; [discriminate|].
    apply slash_free_app in Hfree as [Hv Hfree]. constructor; [assumption|].
    apply IH; [|assumption]. simpl in Hlen. lia.
Qed.

(** With one group at most, the text determines what the group took. *)
Lemma expand_one_group r :
  forall vals vals',
    (length (group_names r) <= 1)%nat ->
    length vals = length (group_names r) ->
    length vals' = length (group_names r) ->
    expand r vals = expand r vals' ->
    vals = vals'.
Proof.
  induction r as [|[c|n] r IH]; intros vals vals' Hone Hl Hl' Heq; simpl in *.
  - destruct vals, vals'; try discriminate. reflexivity.
  - injection Heq as Heq. now apply IH.
  - destruct vals as [|v vals]; [discriminate|]. destruct vals' as [|v' vals']; [discriminate|].
    simpl in *. assert (length (group_names r) = 0%nat) as Hz by lia.
    rewrite Hz in *. destruct vals; [|discriminate]. destruct vals'; [|discriminate].
    f_equal. eapply app_inv_tail. exact Heq.
Qed.

Lemma render_join kwargs ks :
  render kwargs ks = join_slash (map (render kwargs) (segments ks)).
Proof.
  induction ks as [|k ks IH]; [reflexivity|].
  destruct (segments_cons ks) as (seg & segs & Hseg).
  assert (forall s, join_slash ((s ++ render kwargs seg) :: map (render kwargs) segs)
                    = s ++ join_slash (render kwargs seg :: map (render kwargs) segs)) as Hjoin.
  { intros s. simpl. destruct (map (render kwargs) segs); [reflexivity|].
    rewrite <- app_assoc. reflexivity. }
  change (render kwargs (k :: ks)) with (text_of kwargs k ++ render kwargs ks).
  rewrite IH. simpl segments. rewrite Hseg. simpl map.
  destruct (is_separator k) eqn:Hk.
  - destruct k as [c| | |n]; try discriminate. simpl in Hk.
    apply Ascii.eqb_eq in Hk as ->. reflexivity.
  - change (render kwargs (k :: seg)) with (text_of kwargs k ++ render kwargs seg).
    simpl map. apply (eq_sym (Hjoin _)).
Qed.

Lemma filename_values_ok (item : item_values) (f : text -> text) names :
  forall acc,
    (forall n, n ∈ names ->
               item !! n = Some (PyUnicode (f n)) /\ slash_free (f n) = true) ->
    exists kwargs,
      filename_values item names acc = Ok kwargs
      /\ (forall n, n ∈ names -> kwargs !! n = Some (f n))
      /\ (forall n, n ∉ names -> kwargs !! n = acc !! n).
Proof.
  induction names as [|n0 names IH]; intros acc H; simpl.
  - exists acc. repeat split; auto. intros n Hn. inversion Hn.
  - destruct (H n0 (list_elem_of_here _ _)) as [Hv Hfree]. rewrite Hv. simpl.
    unfold slash_free in Hfree. apply negb_true_iff in Hfree. rewrite Hfree.
    destruct (IH (<[n0 := f n0]> acc)) as (kwargs & Hk & Hin & Hout).
    { intros n Hn. apply H. now apply list_elem_of_further. }
    exists kwargs. split; [exact Hk|]. split.
    + intros n Hn. destruct (decide (n ∈ names)) as [Hn'|Hn']; [now apply Hin|].
      apply elem_of_cons in Hn as [->|Hn]; [|contradiction].
      rewrite Hout by assumption. apply lookup_insert_eq.
    + intros n Hn. apply not_elem_of_cons in Hn as [Hne Hn].
      rewrite Hout by assumption. apply lookup_insert_ne. congruence.
Qed.

Lemma match_part_found `{Re.Dict_order} self depth r name0 gs rest :
  _path_parts_re self !! depth = Some r ->
  Re.run r name0 = Some (gs, rest) ->
  _match_part self depth name0 = Ok (Some (Re.items gs)).
Proof. intros Hr Hrun. unfold _match_part, Re.match_. rewrite Hr, Hrun. reflexivity. Qed.

Lemma match_parts_cons `{Re.Dict_order} self depth name0 names prev :
  match_parts self depth (name0 :: names) prev =
  match _match_part self depth name0 with
  | Raise e => Raise e
  | Ok None => Ok None
  | Ok (Some new_values) => match_parts self (S depth) names (prev ++ new_values)
  end.
Proof. reflexivity. Qed.

Lemma match_parts_segments `{Re.Dict_order} self kwargs segs :
  forall depth prev,
    (forall i seg, segs !! i = Some seg ->
                   _path_parts_re self !! (depth + i)%nat = Some (map piece_of seg)) ->
    (forall seg n, seg ∈ segs -> n ∈ field_names seg ->
                   newline_free (value_of kwargs n) = true) ->
    exists gss,
      match_parts self depth (map (render kwargs) segs) prev
      = Ok (Some (prev ++ concat (map Re.items gss)))
      /\ Forall2 (captured_for kwargs) segs gss.
Proof.
  induction segs as [|seg segs IH]; intros depth prev Hparts Hnl.
  - exists []. simpl. rewrite app_nil_r. split; [reflexivity|constructor].
  - pose proof (Hparts 0%nat seg eq_refl) as Hr. rewrite Nat.add_0_r in Hr.
    destruct (run_roundtrip (map piece_of seg) (map (value_of kwargs) (field_names seg)))
      as (gs & Hrun & Hnames & Hexp & _).
    { apply Forall_forall. intros v Hv. apply list_elem_of_fmap in Hv as (n & -> & Hn).
      apply (Hnl seg n); [apply list_elem_of_here|exact Hn]. }
    rewrite <- render_expand in Hrun.
    change (map (render kwargs) (seg :: segs))
      with (render kwargs seg :: map (render kwargs) segs).
    rewrite match_parts_cons, (match_part_found _ _ _ _ _ _ Hr Hrun).
    destruct (IH (S depth) (prev ++ Re.items gs)) as (gss & Hm & Hall).
    { intros i seg' Hi. replace (S depth + i)%nat with (depth + S i)%nat by lia.
      apply Hparts. exact Hi. }
    { intros seg' n Hs Hn. apply (Hnl seg' n); [now apply list_elem_of_further|exact Hn]. }
    exists (gs :: gss). split.
    + rewrite Hm. simpl. rewrite app_assoc. reflexivity.
    + constructor; [|exact Hall]. split.
      * rewrite Hnames. apply group_names_pieces.
      * rewrite Hexp. symmetry. apply render_expand.
Qed.

Lemma captured_names kwargs segs gss :
  Forall2 (captured_for kwargs) segs gss ->
  map fst (concat gss) = concat (map field_names segs).
Proof.
  induction 1 as [|seg gs segs gss [Hn _] _ IH]; [reflexivity|].
  simpl. rewrite map_app, Hn, IH. reflexivity.
Qed.

Lemma values_of_captured (kwargs' : gmap text text) gs :
  (forall n v, (n, v) ∈ gs -> kwargs' !! n = Some v) ->
  map (value_of kwargs') (map fst gs) = map snd gs.
Proof.
  induction gs as [|[n v] gs IH]; intros H; [reflexivity|]. simpl.
  unfold value_of at 1. rewrite (H n v) by apply list_elem_of_here. simpl.
  rewrite IH; [reflexivity|]. intros n' v' Hin. apply H. now apply list_elem_of_further.
Qed.

Lemma captured_render kwargs kwargs' segs gss :
  Forall2 (captured_for kwargs) segs gss ->
  (forall n v, (n, v) ∈ concat gss -> kwargs' !! n = Some v) ->
  map (render kwargs') segs = map (render kwargs) segs.
Proof.
  induction 1 as [|seg gs segs gss [Hn Hexp] _ IH]; intros Hk; [reflexivity|].
  simpl. rewrite IH.
  - f_equal. rewrite render_expand, <- Hn, values_of_captured, Hexp; [reflexivity|].
    intros n v Hin. apply Hk. simpl. apply elem_of_app. now left.
  - intros n v Hin. apply Hk. simpl. apply elem_of_app. now right.
Qed.

Lemma pairs_of_maps (gs : Re.groups) (f : text -> text) names :
  map fst gs = names -> map snd gs = map f names ->
  gs = map (fun n => (n, f n)) names.
Proof.
  revert names. induction gs as [|[n v] gs IH]; intros names Hf Hs.
  - simpl in Hf. subst. reflexivity.
  - destruct names as [|n' names]; [discriminate|]. simpl in *.
    injection Hf as -> Hf. injection Hs as -> Hs. f_equal. now apply IH.
Qed.

Lemma captured_one_field kwargs segs gss :
  Forall2 (captured_for kwargs) segs gss ->
  one_field_per_part (map (map piece_of) segs) = true ->
  concat gss = map (fun n => (n, value_of kwargs n)) (concat (map field_names segs)).
Proof.
  induction 1 as [|seg gs segs gss [Hn Hexp] _ IH]; intros Hone; [reflexivity|].
  simpl in Hone. apply andb_true_iff in Hone as [Hseg Hone].
  simpl. rewrite map_app, IH by assumption. f_equal.
  apply pairs_of_maps; [exact Hn|].
  apply Nat.leb_le in Hseg. rewrite group_names_pieces in Hseg.
  apply (expand_one_group (map piece_of seg)).
  - now rewrite group_names_pieces.
  - rewrite group_names_pieces, <- Hn, !length_map. reflexivity.
  - rewrite group_names_pieces, length_map. reflexivity.
  - rewrite Hexp. apply render_expand.
Qed.

Lemma as_item_lookup caps n v :
  NoDup (map fst caps) -> (n, v) ∈ caps -> as_item caps !! n = Some (PyUnicode v).
Proof.
  intros Hnd Hin. unfold as_item. apply elem_of_list_to_map_1.
  - rewrite <- list_fmap_compose. exact Hnd.
  - apply list_elem_of_fmap. exists (n, v). auto.
Qed.

Lemma captured_slash_free kwargs segs gss :
  Forall2 (captured_for kwargs) segs gss ->
  Forall (fun part => slash_free part = true) (map (render kwargs) segs) ->
  forall n v, (n, v) ∈ concat gss -> slash_free v = true.
Proof.
  induction 1 as [|seg gs segs gss [Hn Hexp] _ IH]; intros Hfree n v Hin.
  - inversion Hin.
  - simpl in Hfree. inversion Hfree as [|? ? Hseg Hrest]; subst.
    simpl in Hin. apply elem_of_app in Hin as [Hin|Hin]; [|now apply (IH Hrest n v)].
    rewrite <- Hexp in Hseg. apply expand_slash_free in Hseg.
    + rewrite Forall_forall in Hseg. apply Hseg.
      apply list_elem_of_fmap. exists (n, v). auto.
    + rewrite group_names_pieces, <- Hn, !length_map. reflexivity.
Qed.

(** Deriving the relative path of a record whose identity values are
    unicode texts without a slash. *)
Lemma filename_render ks name0 root enc cp corn (item : item_values) (f : text -> text) :
  well_spaced ks = true ->
  __init__ name0 root (unparse ks) enc cp = Ok corn ->
  (forall n, n ∈ identity_properties corn ->
             item !! n = Some (PyUnicode (f n)) /\ slash_free (f n) = true) ->
  exists kwargs,
    filename corn item = Ok (render kwargs ks)
    /\ forall n, n ∈ identity_properties corn -> kwargs !! n = Some (f n).
Proof.
  intros Hwf Hinit Hitem.
  destruct (init_inv _ _ _ _ _ _ Hinit) as (Hparse & _ & Hpat & _).
  destruct (parse_pattern_chunks _ _ _ Hwf Hparse) as (_ & Hprops & Hid & _ & _).
  destruct (filename_values_ok item f (identity_properties corn) ∅ Hitem)
    as (kwargs & Hk & Hin & _).
  exists kwargs. split; [|exact Hin].
  unfold filename. rewrite Hk. simpl. rewrite Hpat. unfold Str.format.
  rewrite format_chunks by now apply well_spaced_ok.
  apply derive_render. intros n Hn. rewrite <- Hprops in Hn. split.
  - rewrite Forall_forall in Hid. now apply Hid.
  - rewrite (Hin n Hn). eauto.
Qed.

Lemma concat_items `{Re.Dict_order} (gss : list Re.groups) :
  concat (map Re.items gss) ≡ₚ concat gss.
Proof.
  induction gss as [|gs gss IH]; [reflexivity|]. simpl.
  now rewrite IH, Re.items_permutation.
Qed.

(** The items of a dictionary with one item at most come in one order. *)
Lemma items_of_one `{Re.Dict_order} (gs : Re.groups) :
  (length gs <= 1)%nat -> Re.items gs = gs.
Proof.
  intros Hlen. pose proof (Re.items_permutation gs) as Hperm.
  destruct gs as [|g [|g' gs]]; simpl in Hlen; [| |lia].
  - now apply Permutation_nil_r in Hperm.
  - now apply Permutation_singleton_r in Hperm.
Qed.

Lemma items_one_field `{Re.Dict_order} kwargs segs gss :
  Forall2 (captured_for kwargs) segs gss ->
  one_field_per_part (map (map piece_of) segs) = true ->
  map Re.items gss = gss.
Proof.
  induction 1 as [|seg gs segs gss [Hn _] _ IH]; intros Hone; [reflexivity|].
  simpl in Hone. apply andb_true_iff in Hone as [Hseg Hone].
  simpl. rewrite IH by assumption. f_equal. apply items_of_one.
  apply Nat.leb_le in Hseg. rewrite group_names_pieces, <- Hn, length_map in Hseg.
  exact Hseg.
Qed.

Lemma as_item_permutation (caps caps' : Re.groups) :
  NoDup (map fst caps) -> caps ≡ₚ caps' -> as_item caps = as_item caps'.
Proof.
  intros Hnd Hperm. unfold as_item. apply list_to_map_proper.
  - rewrite <- list_fmap_compose. exact Hnd.
  - now apply fmap_Permutation.
Qed.

(** C1, amended.  Take a pattern made of characters that are no braces,
    escaped braces and fields, in which no escaped brace is directly
    followed by a brace of its kind, and which compiles; take a record
    whose identity values are unicode texts without a slash and without a
    newline.  Then the relative path is derived; each of its components
    is matched by the matcher of its depth; the values captured are
    values for the fields of the pattern, each field once, and they
    derive the same path.  When every part of the pattern has one field
    at most, they are the values of the record. *)
Theorem derive_then_match_roundtrip `{Re.Dict_order}
    (ks : list chunk) (name0 root : text) (enc : option text) (cp : text)
    (corn : Filesystem) (item : item_values) :
  well_spaced ks = true ->
  __init__ name0 root (unparse ks) enc cp = Ok corn ->
  (forall n, n ∈ identity_properties corn ->
             (exists s, item !! n = Some (PyUnicode s))
             /\ slash_free (text_value item n) = true
             /\ newline_free (text_value item n) = true) ->
  exists path captured,
    filename corn item = Ok path
    /\ match_parts corn 0 (Str.split slash path) [] = Ok (Some captured)
    /\ map fst captured ≡ₚ identity_properties corn
    /\ filename corn (as_item captured) = Ok path
    /\ (one_field_per_part (_path_parts_re corn) = true ->
        captured = map (fun n => (n, text_value item n)) (identity_properties corn)).
Proof.
  intros Hwf Hinit Hitem.
  destruct (init_inv _ _ _ _ _ _ Hinit) as (Hparse & _ & Hpat & _).
  destruct (parse_pattern_chunks _ _ _ Hwf Hparse) as (Hparts & Hprops & Hid & Hnd & _).
  destruct (filename_render ks _ _ _ _ corn item (text_value item) Hwf Hinit)
    as (kwargs & Hfile & Hkw).
  { intros n Hn. destruct (Hitem n Hn) as ([s Hs] & Hfree & _).
    split; [|exact Hfree]. unfold text_value. rewrite Hs. reflexivity. }
  assert (forall n, n ∈ field_names ks -> value_of kwargs n = text_value item n) as Hval.
  { intros n Hn. rewrite <- Hprops in Hn. unfold value_of. rewrite (Hkw n Hn). reflexivity. }
  assert (Str.split slash (render kwargs ks) = map (render kwargs) (segments ks)) as Hsplit.
  { apply split_render; [now apply well_spaced_ok|].
    intros n Hn. rewrite (Hval n Hn). rewrite <- Hprops in Hn. apply (Hitem n Hn). }
  destruct (match_parts_segments corn kwargs (segments ks) 0 []) as (gss & Hmatch & Hcap).
  { intros i seg Hi. simpl. rewrite Hparts, list_lookup_fmap, Hi. reflexivity. }
  { intros seg n Hseg Hn.
    assert (n ∈ field_names ks) as Hn'.
    { rewrite field_names_segments. apply list_elem_of_In, in_concat.
      exists (field_names seg). split; [|now apply list_elem_of_In].
      apply in_map. now apply list_elem_of_In. }
    rewrite (Hval n Hn'). rewrite <- Hprops in Hn'. apply (Hitem n Hn'). }
  simpl in Hmatch.
  assert (map fst (concat gss) = identity_properties corn) as Hnames.
  { rewrite (captured_names _ _ _ Hcap), <- field_names_segments. auto. }
  assert (forall n v, (n, v) ∈ concat gss ->
            as_item (concat gss) !! n = Some (PyUnicode v)) as Hlook.
  { intros n v Hin. apply as_item_lookup; [|exact Hin]. rewrite Hnames. exact Hnd. }
  assert (forall n v, (n, v) ∈ concat gss -> slash_free v = true) as Hfree.
  { apply (captured_slash_free kwargs (segments ks)); [exact Hcap|].
    rewrite <- Hsplit. apply split_parts_free. }
  destruct (filename_render ks _ _ _ _ corn (as_item (concat gss))
              (text_value (as_item (concat gss))) Hwf Hinit) as (kwargs' & Hfile' & Hkw').
  { intros n Hn. rewrite <- Hnames in Hn.
    apply list_elem_of_fmap in Hn as ([n' v] & -> & Hin). simpl.
    unfold text_value. rewrite (Hlook _ _ Hin). split; [reflexivity|]. now apply (Hfree n' v). }
  pose proof (concat_items gss) as Hperm.
  assert (as_item (concat (map Re.items gss)) = as_item (concat gss)) as Hsame.
  { apply as_item_permutation; [|exact Hperm].
    rewrite Hperm, Hnames. exact Hnd. }
  exists (render kwargs ks), (concat (map Re.items gss)).
  split; [exact Hfile|]. split; [rewrite Hsplit; exact Hmatch|].
  split; [rewrite Hperm, Hnames; reflexivity|]. split.
  - rewrite Hsame, Hfile'. f_equal. rewrite !render_join. f_equal.
    apply (captured_render _ _ _ _ Hcap).
    intros n v Hin. rewrite Hkw'.
    + unfold text_value. rewrite (Hlook _ _ Hin). reflexivity.
    + rewrite <- Hnames. apply list_elem_of_fmap. exists (n, v). auto.
  - intros Hone. rewrite Hparts in Hone.
    rewrite (items_one_field _ _ _ Hcap Hone).
    rewrite (captured_one_field _ _ _ Hcap Hone), <- field_names_segments, <- Hprops.
    apply map_ext_in. intros n Hn. f_equal. apply Hval.
    rewrite <- Hprops. apply list_elem_of_In. exact Hn.
Qed.

Example unparse_pattern_escaped : unparse pattern_escaped = u "a{{b}}c/{x}".
Proof. reflexivity. Qed.

Lemma derive_then_match_roundtrip_witness :
  exists corn path,
    corn_escaped = Ok corn
    /\ filename corn item_x = Ok path
    /\ match_parts (H := reverse_order) corn 0 (Str.split slash path) []
       = Ok (Some [(u "x", u "1")])
    /\ filename corn (as_item [(u "x", u "1")]) = Ok path.
Proof.
  destruct corn_escaped as [corn|e] eqn:E; [|vm_compute in E; discriminate].
  assert (identity_properties corn = [u "x"] /\ _path_parts_re corn =
            [[Escaped "a"; Escaped "{"; Escaped "b"; Escaped "}"; Escaped "c"];
             [Group (u "x")]]) as [Hid Hparts].
  { vm_compute in E. injection E as <-. split; reflexivity. }
  destruct (derive_then_match_roundtrip (H := reverse_order)
              pattern_escaped _ _ _ _ corn item_x eq_refl E)
    as (path & captured & Hfile & Hmatch & _ & Hfile' & Hone).
  - intros n Hn. rewrite Hid in Hn. apply list_elem_of_singleton in Hn as ->.
    split; [exists (u "1"); reflexivity|]. split; reflexivity.
  - rewrite Hparts, Hid in Hone. specialize (Hone eq_refl).
    assert (captured = [(u "x", u "1")]) as -> by (rewrite Hone; reflexivity).
    exists corn, path. auto.
Defined.

(** C1, as stated, fails.  With the pattern [{a}-{b}], the record with
    [a] = [x] and [b] = [y-z] derives the path [x-y-z]; the matcher, whose
    first group takes as much as it can, captures [a] = [x-y] and
    [b] = [z], which is another record, in whatever order the dictionary
    lists the two. *)
Lemma roundtrip_counterexample :
  on_corn corn_dash (fun corn =>
    filename corn (item_ab "x" "y-z") = Ok (u "x-y-z")
    /\ _path_parts_re corn = [[Group (u "a"); Escaped "-"; Group (u "b")]]
    /\ Re.match_ [Group (u "a"); Escaped "-"; Group (u "b")] (u "x-y-z")
       = Some ([(u "a", u "x-y"); (u "b", u "z")], [])
    /\ match_parts (H := insertion_order) corn 0 (Str.split slash (u "x-y-z")) []
       = Ok (Some [(u "a", u "x-y"); (u "b", u "z")])
    /\ match_parts (H := reverse_order) corn 0 (Str.split slash (u "x-y-z")) []
       = Ok (Some [(u "b", u "z"); (u "a", u "x-y")])
    /\ as_item [(u "a", u "x-y"); (u "b", u "z")] !! u "a" = Some (PyUnicode (u "x-y"))
    /\ item_ab "x" "y-z" !! u "a" = Some (PyUnicode (u "x"))).
Proof. vm_compute. repeat split. Qed.

(** ** The assertion of [save] and [delete] *)

Lemma join_cons path part parts :
  Str.join path (part :: parts)
  = Str.join (if Str.startswith part [slash] then part
              else if text_eqb path [] || Str.endswith path [slash] then path ++ part
                   else path ++ [slash] ++ part) parts.
Proof. reflexivity. Qed.

Lemma join_extends parts :
  forall path,
    Forall (fun part => slash_free part = true) parts ->
    exists suffix, Str.join path parts = path ++ suffix.
Proof.
  induction parts as [|part parts IH]; intros path Hfree.
  - exists []. now rewrite app_nil_r.
  - inversion Hfree as [|? ? Hpart Hparts]; subst.
    assert (Str.startswith part [slash] = false) as Hs.
    { unfold Str.startswith. apply bool_decide_eq_false. destruct part as [|c part]; simpl.
      - discriminate.
      - apply slash_free_cons in Hpart as [Hc _]. intros [= ->]. discriminate. }
    rewrite join_cons, Hs.
    destruct (text_eqb path [] || Str.endswith path [slash]).
    + destruct (IH (path ++ part) Hparts) as [suffix ->].
      exists (part ++ suffix). now rewrite <- app_assoc.
    + destruct (IH (path ++ [slash] ++ part) Hparts) as [suffix ->].
      exists ([slash] ++ part ++ suffix). now rewrite <- !app_assoc.
Qed.

(** The path that [full_filename] derives always starts with the text of
    the root: the assertion of [save] and [delete] holds for every record
    whose path can be derived. *)
Lemma full_filename_starts_with_root corn (item : item_values) full :
  full_filename corn item = Ok full ->
  Str.startswith full (root_dir corn) = true.
Proof.
  unfold full_filename. destruct (filename corn item) as [relative|e]; simpl; [|discriminate].
  intros [= <-].
  destruct (join_extends (Str.split slash relative) (root_dir corn) (split_parts_free _))
    as [suffix ->].
  unfold Str.startswith. apply bool_decide_eq_true. apply take_app_length.
Qed.

(** ** The pattern compiler on every pattern *)

Lemma group_names_app (a b : regex) : group_names (a ++ b) = group_names a ++ group_names b.
Proof. unfold group_names. apply omap_app. Qed.

Lemma concat_snoc {A} (ls : list (list A)) (l : list A) :
  concat (ls ++ [l]) = concat ls ++ l.
Proof. rewrite concat_app. simpl. now rewrite app_nil_r. Qed.

Lemma parse_token_inv pat st tok st' :
  parser_inv st -> parse_token pat st tok = Ok st' -> parser_inv st'.
Proof.
  intros (Hne & Hnames & Hnd & Hid). destruct tok as [n|c|c]; simpl.
  - destruct (isidentifier n) eqn:Hn; simpl; [|discriminate].
    destruct (mem_text n (path_properties st)) eqn:Hmem; [discriminate|].
    intros [= <-]. unfold parser_inv. simpl. repeat split.
    + exact Hne.
    + rewrite Hnames, group_names_app, <- app_assoc. reflexivity.
    + apply NoDup_app. repeat split; auto.
      * intros x Hx Hx'. apply list_elem_of_singleton in Hx' as ->.
        now apply mem_text_false in Hmem.
      * apply NoDup_singleton.
    + apply Forall_app. split; [exact Hid|]. constructor; [exact Hn|constructor].
  - destruct (next_re st) as [|p r] eqn:Hre; [discriminate|].
    intros [= <-]. unfold parser_inv. simpl. repeat split.
    + apply Forall_app. split; [exact Hne|]. constructor; [discriminate|constructor].
    + rewrite Hnames, map_app, concat_app. simpl. rewrite !app_nil_r. reflexivity.
    + exact Hnd.
    + exact Hid.
  - intros [= <-]. unfold parser_inv. simpl. repeat split; auto.
    rewrite Hnames, group_names_app. simpl. rewrite app_nil_r. reflexivity.
Qed.

Lemma parse_loop_inv pat toks :
  forall st st' ending,
    parser_inv st -> parse_loop pat st toks ending = Ok st' -> parser_inv st'.
Proof.
  induction toks as [|tok toks IH]; intros st st' ending Hinv; simpl.
  - destruct ending; [discriminate|]. now intros [= <-].
  - destruct (parse_token pat st tok) as [st1|e] eqn:Et; simpl; [|discriminate].
    apply IH. eapply parse_token_inv; eauto.
Qed.

Lemma parse_loop_never_ok_after_raise pat toks e :
  forall st st', parse_loop pat st toks (Some e) <> Ok st'.
Proof.
  induction toks as [|tok toks IH]; intros st st'; simpl; [discriminate|].
  destruct (parse_token pat st tok); simpl; [apply IH|discriminate].
Qed.

Lemma parse_loop_ends_fresh pat toks :
  forall st st',
    parse_loop pat st (toks ++ [Path_separator slash]) None = Ok st' ->
    next_re st' = [] /\ path_parts_re st' <> [].
Proof.
  intros st st'. rewrite parse_loop_app.
  destruct (parse_loop pat st toks None) as [st1|e]; simpl; [|discriminate].
  destruct (next_re st1); [discriminate|]. intros [= <-]. simpl. split; [reflexivity|].
  intros H. apply app_eq_nil in H as [_ H]. discriminate.
Qed.

(** What compiling gives, by the tokens. *)
Lemma parse_pattern_inv pat parts props :
  _parse_pattern pat = Ok (parts, props) ->
  exists toks st,
    _tokenize_pattern pat = (toks ++ [Path_separator slash], None)
    /\ parse_loop pat (Parser_state [] [] []) (toks ++ [Path_separator slash]) None = Ok st
    /\ parts = path_parts_re st /\ props = path_properties st
    /\ next_re st = [] /\ parser_inv st.
Proof.
  unfold _parse_pattern.
  destruct (_tokenize_pattern pat) as [toks ending] eqn:Et. simpl.
  destruct (parse_loop pat (Parser_state [] [] []) toks ending) as [st|e] eqn:Ep;
    simpl; [|discriminate].
  intros [= <- <-].
  destruct ending as [e|]; [now apply parse_loop_never_ok_after_raise in Ep|].
  destruct (tokenize_ends_with_separator _ _ _ _ Et) as [toks' ->].
  exists toks', st.
  split; [reflexivity|]. split; [exact Ep|]. split; [reflexivity|]. split; [reflexivity|].
  split; [now apply parse_loop_ends_fresh in Ep|].
  eapply parse_loop_inv; [|exact Ep]. unfold parser_inv. simpl.
  repeat split; constructor.
Qed.

(** ** Enumeration: the records of a walk *)

Lemma groupdict_items_names `{Re.Dict_order} r name0 m :
  Re.match_ r name0 = Some m -> map fst (Re.groupdict_items m) ≡ₚ group_names r.
Proof.
  destruct m as [gs rest]. intros Hrun. apply run_sound in Hrun as (Hn & _).
  unfold Re.groupdict_items. simpl. rewrite <- Hn.
  apply fmap_Permutation, Re.items_permutation.
Qed.

Lemma record_below_shape `{Re.Dict_order} self st path_parts previous item :
  record_below self st path_parts previous item ->
  exists names,
    length (path_parts ++ names) = length (_path_parts_re self)
    /\ Os.isfile st (Str.join (root_dir self) (path_parts ++ names)) = true
    /\ lazy_values item
       = (content_property self,
          {| reader_filename := Str.join (root_dir self) (path_parts ++ names);
             reader_encoding := encoding self;
             content := None |})
    /\ (map fst previous
          ≡ₚ concat (map group_names (take (length path_parts) (_path_parts_re self))) ->
        map fst (values item) ≡ₚ concat (map group_names (_path_parts_re self))).
Proof.
  induction 1 as [pp prev names n matcher m Hd Hl Hin Hm Hrun Hf
                 |pp prev names n matcher m item Hd Hl Hin Hm Hrun Hdir Hrec IH].
  - exists [n]. split; [rewrite length_app; simpl; lia|].
    split; [exact Hf|]. split; [reflexivity|].
    intros Hprev. simpl. rewrite map_app, Hprev, (groupdict_items_names _ _ _ Hrun).
    rewrite <- (firstn_all (_path_parts_re self)) at 2.
    replace (length (_path_parts_re self)) with (S (length pp)) by lia.
    rewrite (take_S_r _ _ _ Hm), map_app, concat_app. simpl. now rewrite app_nil_r.
  - destruct IH as (names' & Hlen & Hfile & Hlazy & Hvals). exists (n :: names').
    replace (pp ++ n :: names') with ((pp ++ [n]) ++ names')
      by (rewrite <- app_assoc; reflexivity).
    split; [exact Hlen|]. split; [exact Hfile|]. split; [exact Hlazy|].
    intros Hprev. apply Hvals. rewrite length_app. simpl. rewrite Nat.add_1_r.
    rewrite (take_S_r _ _ _ Hm), !map_app, concat_app, Hprev,
      (groupdict_items_names _ _ _ Hrun).
    simpl. now rewrite app_nil_r.
Qed.

(** C5.  On a constructed access point the enumeration ends, and it
    yields exactly the records of the specification: an entry whose name
    does not match the matcher of its depth is passed over; at leaf depth
    a matching entry is yielded when it is a regular file and only then,
    with the field values captured from the root down to it; above leaf
    depth a matching entry is descended into when it is a directory and
    only then.  No exception is raised on the way, except the one of
    listing the root itself when it cannot be listed.  Every record
    yielded stands for a regular file as many names below the root as the
    pattern has parts; its field values are values for the fields of the
    pattern, each field once, and its content is an accessor, not yet
    read, of that very file, under the content property and with the
    encoding of the access point. *)
Theorem walk_yields_matching_files `{Re.Dict_order}
    (name0 root pat : text) (enc : option text) (cp : text)
    (self : Filesystem) (st : Os.fs) :
  __init__ name0 root pat enc cp = Ok self ->
  exists g,
    _all self st = Some g
    /\ g.2 = match Os.listdir st root with
             | Raise e => Some e
             | Ok _ => None
             end
    /\ (forall item, item ∈ g.1 <-> record_below self st [] [] item)
    /\ (forall item, item ∈ g.1 ->
          exists names,
            length names = length (_path_parts_re self)
            /\ Os.isfile st (Str.join root names) = true
            /\ lazy_values item
               = (cp, {| reader_filename := Str.join root names;
                         reader_encoding := enc;
                         content := None |})
            /\ map fst (values item) ≡ₚ identity_properties self).
Proof.
  intros Hinit. destruct (init_inv _ _ _ _ _ _ Hinit) as (Hparse & Hroot & _ & Henc & Hcp).
  pose proof (parse_pattern_has_a_part _ _ _ Hparse) as Hparts.
  assert (exists g,
             _all self st = Some g
             /\ g.2 = match Os.listdir st root with
                      | Raise e => Some e
                      | Ok _ => None
                      end
             /\ (forall item, item ∈ g.1 <-> record_below self st [] [] item))
    as (g & Hg & Hg2 & Hgi).
  { unfold _all. rewrite <- Hroot.
    change (root_dir self) with (_join self []).
    destruct (Os.listdir st (_join self [])) as [names|e] eqn:Hl.
    - destruct (walk_spec self st (length (_path_parts_re self)) [] [] names)
        as (g & Hg & Hg2 & Hgi); simpl; try lia; auto.
      exists g. auto.
    - destruct (length (_path_parts_re self)) as [|n] eqn:Hn; [lia|].
      simpl. rewrite Hl. exists ([], Some e). repeat split; auto.
      + intros Hin. inversion Hin.
      + intros Hr. apply record_below_among in Hr as (names & Hl' & _). congruence. }
  exists g. split; [exact Hg|]. split; [exact Hg2|]. split; [exact Hgi|].
  intros item Hin. apply Hgi in Hin.
  destruct (record_below_shape _ _ _ _ _ Hin) as (names & Hlen & Hfile & Hlazy & Hvals).
  simpl in *. rewrite Hroot, ?Henc, ?Hcp in *.
  exists names. split; [exact Hlen|]. split; [exact Hfile|]. split; [exact Hlazy|].
  rewrite Hvals by reflexivity.
  destruct (parse_pattern_inv _ _ _ Hparse)
    as (toks & st0 & _ & _ & Hre & Hprops & Hnext & (_ & Hnames & _)).
  rewrite Hprops, Hnames, Hnext, <- Hre. simpl. now rewrite app_nil_r.
Qed.

Lemma walk_yields_matching_files_witness :
  exists self,
    corn_ymd = Ok self
    /\ exists g,
         _all (H := reverse_order) self dir_2024 = Some g
         /\ g.2 = None
         /\ {| values := [(u "year", u "2024"); (u "day", u "01"); (u "month", u "03")];
               lazy_values :=
                 (u "content",
                  {| reader_filename := u "/srv/data/2024/03-01.txt";
                     reader_encoding := None;
                     content := None |}) |} ∈ g.1.
Proof.
  destruct corn_ymd as [self|e] eqn:E; [|vm_compute in E; discriminate].
  exists self. split; [reflexivity|].
  destruct (walk_yields_matching_files (H := reverse_order) _ _ _ _ _ self dir_2024 E)
    as (g & Hg & Hg2 & Hgi & _).
  exists g. split; [exact Hg|].
  split; [rewrite Hg2; vm_compute; reflexivity|]. apply Hgi.
  clear Hg Hg2 Hgi. vm_compute in E. injection E as <-.
  refine (record_in_directory _ dir_2024 [] [] [u "2024"] (u "2024")
            [Group (u "year")] ([(u "year", u "2024")], []) _ _ _ _ _ _ _ _);
    [vm_compute; reflexivity|vm_compute; reflexivity|apply list_elem_of_here
    |vm_compute; reflexivity|vm_compute; reflexivity|vm_compute; reflexivity|].
  refine (record_at_leaf _ dir_2024 [u "2024"] [(u "year", u "2024")]
            [u "notes.txt"; u "03-01.txt"] (u "03-01.txt")
            [Group (u "month"); Escaped "-"; Group (u "day");
             Escaped "."; Escaped "t"; Escaped "x"; Escaped "t"]
            ([(u "month", u "03"); (u "day", u "01")], []) _ _ _ _ _ _);
    [vm_compute; reflexivity|vm_compute; reflexivity
    |apply list_elem_of_further, list_elem_of_here
    |vm_compute; reflexivity|vm_compute; reflexivity|vm_compute; reflexivity].
Defined.

(** ** What a pattern compiles to *)

(** X1.  A pattern that compiles has at least one matcher, and none of
    its matchers is empty. *)
Theorem compiled_matchers_are_not_empty (pat : text) (parts : list regex) (props : list text) :
  _parse_pattern pat = Ok (parts, props) ->
  parts <> [] /\ Forall (fun r => r <> []) parts.
Proof.
  intros Hp. destruct (parse_pattern_inv _ _ _ Hp)
    as (toks & st & _ & Hloop & -> & _ & _ & (Hne & _)).
  split; [|exact Hne]. now apply parse_loop_ends_fresh in Hloop.
Qed.

Lemma compiled_matchers_are_not_empty_witness :
  exists parts props,
    _parse_pattern (u "{year}/{month}-{day}.txt") = Ok (parts, props)
    /\ parts <> [] /\ Forall (fun r => r <> []) parts.
Proof.
  destruct (_parse_pattern (u "{year}/{month}-{day}.txt")) as [[parts props]|e] eqn:E;
    [|vm_compute in E; discriminate].
  exists parts, props. split; [reflexivity|].
  apply (compiled_matchers_are_not_empty (u "{year}/{month}-{day}.txt") parts props E).
Defined.

(** X2.  The property names of a pattern that compiles are the names of
    the groups of its matchers, in the order of the matchers; they are
    distinct and they are identifiers. *)
Theorem compiled_properties_are_the_groups
    (pat : text) (parts : list regex) (props : list text) :
  _parse_pattern pat = Ok (parts, props) ->
  props = concat (map group_names parts)
  /\ NoDup props
  /\ Forall (fun n => isidentifier n = true) props.
Proof.
  intros Hp. destruct (parse_pattern_inv _ _ _ Hp)
    as (toks & st & _ & _ & -> & -> & Hre & (_ & Hnames & Hnd & Hid)).
  rewrite Hre in Hnames. simpl in Hnames. rewrite app_nil_r in Hnames. auto.
Qed.

Lemma compiled_properties_are_the_groups_witness :
  exists parts props,
    _parse_pattern (u "{year}/{month}-{day}.txt") = Ok (parts, props)
    /\ props = concat (map group_names parts) /\ NoDup props.
Proof.
  destruct (_parse_pattern (u "{year}/{month}-{day}.txt")) as [[parts props]|e] eqn:E;
    [|vm_compute in E; discriminate].
  exists parts, props. split; [reflexivity|].
  destruct (compiled_properties_are_the_groups (u "{year}/{month}-{day}.txt") parts props E)
    as (H1 & H2 & _).
  split; [exact H1|exact H2].
Defined.

(** ** The errors of the pattern compiler *)





Lemma one_more_separator_yield tok g :
  one_more_separator (yield tok g) = yield tok (one_more_separator g).
Proof. destruct g as [ts [e|]]; reflexivity. Qed.

Lemma tokenize_trailing_slash chars :
  forall prev field,
    tokenize_loop prev field (chars ++ [slash])
    = one_more_separator (tokenize_loop prev field chars).
Proof.
  induction chars as [|c chars IH]; intros prev field.
  - destruct field; reflexivity.
  - assert (is_brace c && opt_ascii_eqb (head (chars ++ [slash])) c
            = is_brace c && opt_ascii_eqb (head chars) c) as Hnext.
    { destruct chars as [|c' chars]; [|reflexivity]. simpl.
      destruct (is_brace c) eqn:Hb; [|reflexivity]. simpl.
      unfold is_brace in Hb. apply orb_true_iff in Hb as [H|H];
        apply Ascii.eqb_eq in H; subst c; reflexivity. }
    simpl. rewrite Hnext. destruct field as [field_name|].
    + destruct (c =? rbrace); rewrite IH; [now rewrite one_more_separator_yield|reflexivity].
    + destruct (c =? slash); [rewrite IH; now rewrite one_more_separator_yield|].
      destruct (is_brace c && opt_ascii_eqb (head chars) c); [apply IH|].
      destruct ((c =? rbrace) && negb (opt_ascii_eqb prev c)); [reflexivity|].
      destruct ((c =? lbrace) && negb (opt_ascii_eqb prev c)); [apply IH|].
      rewrite IH. now rewrite one_more_separator_yield.
Qed.

(** X4.  A pattern that begins with a slash is refused for its empty
    first part whatever follows, and no pattern that ends with a slash
    compiles; the empty pattern is refused too. *)
Theorem outer_slash_is_refused (pat : text) :
  _parse_pattern (slash :: pat) = Raise (ValueError (Empty_part (slash :: pat)))
  /\ (exists e, _parse_pattern (pat ++ [slash]) = Raise e)
  /\ _parse_pattern [] = Raise (ValueError (Empty_part [])).
Proof.
  split; [|split; [|reflexivity]].
  - unfold _parse_pattern, _tokenize_pattern. simpl.
    destruct (tokenize_loop (Some slash) None pat). reflexivity.
  - destruct (_parse_pattern (pat ++ [slash])) as [[parts props]|e] eqn:Hp; [|eauto].
    exfalso. revert Hp. unfold _parse_pattern, _tokenize_pattern.
    rewrite tokenize_trailing_slash.
    destruct (tokenize_loop None None pat) as [toks ending] eqn:Et.
    unfold one_more_separator. simpl. destruct ending as [e|]; simpl.
    + destruct (parse_loop (pat ++ [slash]) (Parser_state [] [] []) toks (Some e))
        as [st|e1] eqn:Ep; simpl; [|discriminate].
      now apply parse_loop_never_ok_after_raise in Ep.
    + destruct (tokenize_ends_with_separator _ _ _ _ Et) as [toks' ->].
      rewrite parse_loop_app.
      destruct (parse_loop (pat ++ [slash]) (Parser_state [] [] [])
                  (toks' ++ [Path_separator slash]) None) as [st|e1] eqn:Ep;
        simpl; [|discriminate].
      apply parse_loop_ends_fresh in Ep as [Hre _]. rewrite Hre. discriminate.
Qed.

(** ** The number of matchers *)

Lemma ident_char_not_slash c : is_ident_char c = true -> (c =? slash) = false.
Proof.
  destruct c as [b0 b1 b2 b3 b4 b5 b6 b7].
  destruct b0, b1, b2, b3, b4, b5, b6, b7; vm_compute; intros H;
    first [reflexivity | discriminate H].
Qed.

Lemma identifier_no_slash n : isidentifier n = true -> slashes n = 0%nat.
Proof.
  destruct n as [|c n]; [discriminate|]. simpl. intros H.
  apply andb_true_iff in H as [Hc Hn].
  assert (is_ident_char c = true) as Hc' by (unfold is_ident_char; rewrite Hc; reflexivity).
  rewrite (ident_char_not_slash c Hc'). simpl.
  induction n as [|c' n IH]; [reflexivity|]. simpl in *.
  apply andb_true_iff in Hn as [Hc1 Hn]. rewrite (ident_char_not_slash c' Hc1). auto.
Qed.

Lemma slashes_snoc s c :
  slashes (s ++ [c]) = (slashes s + if (c =? slash)%char then 1 else 0)%nat.
Proof. induction s as [|c' s IH]; simpl; [lia|]. rewrite IH. lia. Qed.

Lemma brace_not_slash c : is_brace c = true -> (c =? slash) = false.
Proof.
  unfold is_brace. intros H. apply orb_true_iff in H as [H|H];
    apply Ascii.eqb_eq in H; subst c; reflexivity.
Qed.

(** The slashes of a pattern are the separators the tokenizer yields, the
    artificial one apart, and the slashes it puts into property names. *)
Lemma tokenize_slashes chars :
  forall prev field toks,
    tokenize_loop prev field chars = (toks, None) ->
    (slashes (default [] field) + slashes chars + 1
     = separators toks + property_slashes toks)%nat.
Proof.
  induction chars as [|c chars IH]; intros prev field toks; simpl.
  - destruct field; [discriminate|]. intros [= <-]. reflexivity.
  - destruct field as [field_name|]; simpl.
    + destruct (Ascii.eqb_spec c rbrace) as [->|Hc].
      * destruct (tokenize_loop (Some rbrace) None chars) as [ts e'] eqn:E.
        unfold yield. simpl. intros [= <- ->].
        apply IH in E. simpl in *. lia.
      * intros H. apply IH in H. simpl in H. rewrite slashes_snoc in H. lia.
    + destruct (c =? slash) eqn:Hs.
      { destruct (tokenize_loop (Some c) None chars) as [ts e'] eqn:E.
        unfold yield. simpl. intros [= <- ->]. apply IH in E. simpl in *. lia. }
      destruct (is_brace c && opt_ascii_eqb (head chars) c).
      { intros H. apply IH in H. simpl in H. lia. }
      destruct ((c =? rbrace) && negb (opt_ascii_eqb prev c)); [discriminate|].
      destruct ((c =? lbrace) && negb (opt_ascii_eqb prev c)).
      { intros H. apply IH in H. simpl in H. lia. }
      destruct (tokenize_loop (Some c) None chars) as [ts e'] eqn:E.
      unfold yield. simpl. intros [= <- ->]. apply IH in E. simpl in *. lia.
Qed.

Lemma parse_loop_counts pat toks :
  forall st st',
    parse_loop pat st toks None = Ok st' ->
    length (path_parts_re st') = (length (path_parts_re st) + separators toks)%nat
    /\ property_slashes toks = 0%nat.
Proof.
  induction toks as [|tok toks IH]; intros st st'; simpl.
  - intros [= <-]. split; [lia|reflexivity].
  - destruct (parse_token pat st tok) as [st1|e] eqn:Et; simpl; [|discriminate].
    intros H. apply IH in H as [Hlen Hprops]. revert Et.
    destruct tok as [n|c|c]; simpl.
    + destruct (isidentifier n) eqn:Hn; simpl; [|discriminate].
      destruct (mem_text n (path_properties st)); [discriminate|].
      intros [= <-]. simpl in Hlen. rewrite (identifier_no_slash n Hn), Hprops.
      split; [lia|reflexivity].
    + destruct (next_re st); [discriminate|]. intros [= <-]. simpl in Hlen.
      rewrite length_app in Hlen. simpl in Hlen. split; [lia|exact Hprops].
    + intros [= <-]. simpl in Hlen. split; [lia|exact Hprops].
Qed.

(** X5.  A pattern that compiles has one matcher for each of its
    slash-separated parts: one more than it has slashes. *)
Theorem one_matcher_per_part (pat : text) (parts : list regex) (props : list text) :
  _parse_pattern pat = Ok (parts, props) ->
  length parts = S (slashes pat) /\ length parts = length (Str.split slash pat).
Proof.
  intros Hp.
  assert (length parts = S (slashes pat)) as Hlen.
  { unfold _parse_pattern in Hp.
    destruct (_tokenize_pattern pat) as [toks ending] eqn:Et. simpl in Hp.
    destruct (parse_loop pat (Parser_state [] [] []) toks ending) as [st|e] eqn:Ep;
      simpl in Hp; [|discriminate].
    injection Hp as <- <-.
    destruct ending as [e|]; [now apply parse_loop_never_ok_after_raise in Ep|].
    apply parse_loop_counts in Ep as [Hlen Hprops].
    apply tokenize_slashes in Et. simpl in *. lia. }
  split; [exact Hlen|]. rewrite Hlen. clear.
  induction pat as [|c pat IH]; [reflexivity|]. simpl.
  destruct (c =? slash); simpl; [now rewrite IH|].
  destruct (Str.split slash pat) as [|part parts']; simpl in *; lia.
Qed.

Lemma one_matcher_per_part_witness :
  exists parts props,
    _parse_pattern (u "{year}/{month}-{day}.txt") = Ok (parts, props)
    /\ length parts = 2%nat.
Proof.
  destruct (_parse_pattern (u "{year}/{month}-{day}.txt")) as [[parts props]|e] eqn:E;
    [|vm_compute in E; discriminate].
  exists parts, props. split; [reflexivity|].
  exact (proj1 (one_matcher_per_part (u "{year}/{month}-{day}.txt") parts props E)).
Defined.

(** ** What a matcher accepts *)

Lemma dollar_spec rest : Re.dollar rest = true <-> rest = [] \/ rest = [newline].
Proof.
  destruct rest as [|c [|c' rest]]; simpl.
  - split; auto.
  - split.
    + intros H. apply Ascii.eqb_eq in H as ->. auto.
    + intros [H|H]; [discriminate|]. injection H as ->. reflexivity.
  - split; [discriminate|]. intros [H|H]; discriminate.
Qed.

(** X6.  When a name is accepted at a depth, the values returned are the
    items of the dictionary of what the groups of the matcher of that
    depth captured: in the order of the groups, the name is the text of
    the matcher with these values, followed by nothing or by one newline;
    and no value contains a newline. *)
Theorem match_part_captures `{Re.Dict_order}
    (self : Filesystem) (depth : nat) (name0 : text) (gs : Re.groups) :
  _match_part self depth name0 = Ok (Some gs) ->
  exists r captured rest,
    _path_parts_re self !! depth = Some r
    /\ gs ≡ₚ captured
    /\ map fst captured = group_names r
    /\ name0 = expand r (map snd captured) ++ rest
    /\ (rest = [] \/ rest = [newline])
    /\ Forall (fun v => newline_free v = true) (map snd gs).
Proof.
  intros Hm. apply match_part_spec in Hm as (r & [captured rest] & Hr & Hrun & ->).
  exists r, captured, rest.
  destruct (run_sound _ _ _ _ Hrun) as (Hn & Hs & Hd & Hv).
  unfold Re.groupdict_items. simpl.
  split; [exact Hr|]. split; [apply Re.items_permutation|]. split; [exact Hn|].
  split; [exact Hs|]. split; [now apply dollar_spec|].
  rewrite Forall_forall in *. intros v Hin. apply Hv.
  rewrite <- (Re.items_permutation captured). exact Hin.
Qed.

Lemma match_part_captures_witness :
  exists corn,
    corn_ymd = Ok corn
    /\ exists r captured rest,
         _path_parts_re corn !! 1%nat = Some r
         /\ [(u "day", u "01"); (u "month", u "03")] ≡ₚ captured
         /\ map fst captured = group_names r
         /\ u "03-01.txt" = expand r (map snd captured) ++ rest
         /\ (rest = [] \/ rest = [newline])
         /\ Forall (fun v => newline_free v = true)
                   (map snd [(u "day", u "01"); (u "month", u "03")]).
Proof.
  destruct corn_ymd as [corn|e] eqn:E; [|vm_compute in E; discriminate].
  exists corn. split; [reflexivity|].
  apply (match_part_captures (H := reverse_order) corn 1 (u "03-01.txt")
           [(u "day", u "01"); (u "month", u "03")]).
  vm_compute in E. injection E as <-. vm_compute. reflexivity.
Defined.

(** X7.  The names accepted at a depth are exactly the texts of the
    matcher of that depth with values without a newline for its groups,
    followed by nothing or by one newline; out of range the code raises
    [IndexError] for every name. *)
Theorem match_part_accepts `{Re.Dict_order}
    (self : Filesystem) (depth : nat) (name0 : text) :
  match _path_parts_re self !! depth with
  | None => _match_part self depth name0 = Raise IndexError
  | Some r =>
      (exists gs, _match_part self depth name0 = Ok (Some gs))
      <-> (exists vals rest,
              name0 = expand r vals ++ rest
              /\ (rest = [] \/ rest = [newline])
              /\ Forall (fun v => newline_free v = true) vals)
  end.
Proof.
  destruct (_path_parts_re self !! depth) as [r|] eqn:Hr.
  - split.
    + intros [gs Hm]. apply match_part_spec in Hm as (r' & [gs' rest] & Hr' & Hrun & _).
      pose proof (eq_trans (eq_sym Hr) Hr') as Heq. injection Heq as <-.
      destruct (run_sound _ _ _ _ Hrun) as (Hn & Hs & Hd & Hv).
      exists (map snd gs'), rest. split; [exact Hs|]. split; [now apply dollar_spec|exact Hv].
    + intros (vals & rest & -> & Hrest & Hvals).
      apply dollar_spec in Hrest.
      destruct (run_complete r vals rest Hvals Hrest) as [[gs rest'] Hrun].
      exists (Re.items gs). eapply match_part_found; eauto.
  - unfold _match_part. rewrite Hr. reflexivity.
Qed.

(** ** The file system under [save] and [delete] *)

Lemma is_dir_at_mono (st st' : Os.fs) k :
  st ⊆ st' -> Os.is_dir_at st k = true -> Os.is_dir_at st' k = true.
Proof.
  intros Hsub. unfold Os.is_dir_at, Os.node_at. destruct k as [|n k]; [auto|].
  destruct (st !! (n :: k)) as [[d|]|] eqn:Hk; try discriminate.
  intros _. unfold Os.fs in *. now rewrite (lookup_weaken _ _ _ _ Hk Hsub).
Qed.

Lemma walk_names_mono (st st' : Os.fs) names :
  (forall k, Os.is_dir_at st k = true -> Os.is_dir_at st' k = true) ->
  forall cur q, Os.walk_names st cur names = Some q -> Os.walk_names st' cur names = Some q.
Proof.
  intros Hdir. induction names as [|n names IH]; intros cur q; simpl; [auto|].
  destruct (Os.is_dir_at st cur) eqn:Hc; [|discriminate].
  rewrite (Hdir _ Hc). apply IH.
Qed.

Lemma locate_mono (st st' : Os.fs) p q :
  (forall k, Os.is_dir_at st k = true -> Os.is_dir_at st' k = true) ->
  Os.locate st p = Some q -> Os.locate st' p = Some q.
Proof.
  intros Hdir. unfold Os.locate. destruct p; [discriminate|]. now apply walk_names_mono.
Qed.

Lemma walk_names_same (st st' : Os.fs) names :
  (forall k, Os.is_dir_at st' k = Os.is_dir_at st k) ->
  forall cur, Os.walk_names st' cur names = Os.walk_names st cur names.
Proof.
  intros Hdir. induction names as [|n names IH]; intros cur; simpl; [auto|].
  rewrite Hdir. destruct (Os.is_dir_at st cur); [apply IH|reflexivity].
Qed.

Lemma locate_same (st st' : Os.fs) p :
  (forall k, Os.is_dir_at st' k = Os.is_dir_at st k) ->
  Os.locate st' p = Os.locate st p.
Proof.
  intros Hdir. unfold Os.locate. destruct p; [reflexivity|]. now apply walk_names_same.
Qed.


(** Removing a file changes no directory. *)
Lemma is_dir_at_delete_file (st : Os.fs) q k :
  Os.is_file_at st q = true ->
  Os.is_dir_at (delete q st) k = Os.is_dir_at st k.
Proof.
  intros Hq. unfold Os.is_dir_at, Os.is_file_at, Os.node_at, Os.fs in *.
  destruct k as [|n k]; [reflexivity|].
  destruct (decide (q = n :: k)) as [->|Hne].
  - rewrite lookup_delete_eq. destruct (st !! (n :: k)) as [[?|]|]; congruence.
  - now rewrite lookup_delete_ne.
Qed.











(** ** [delete] *)

Lemma remove_ok (st st' : Os.fs) p :
  Os.remove st p = Ok st' ->
  exists q, Os.locate st p = Some q /\ Os.is_file_at st q = true /\ st' = delete q st.
Proof.
  unfold Os.remove. destruct (Os.locate st p) as [q|]; [|discriminate].
  destruct (Os.is_file_at st q) eqn:Hq; [|discriminate]. intros [= <-]. eauto.
Qed.

Lemma rmdir_shrinks (st st' : Os.fs) p : Os.rmdir st p = Ok st' -> st' ⊆ st.
Proof.
  unfold Os.rmdir. destruct (Os.locate st p) as [q|]; [|discriminate].
  match goal with |- context [if ?c then _ else _] => destruct c end; [|discriminate].
  intros [= <-]. apply delete_subseteq.
Qed.

Lemma remove_empty_directories_shrinks self parts :
  forall st : Os.fs, (remove_empty_directories self parts st).2 ⊆ st.
Proof.
  induction parts as [|part parts IH]; intros st; [reflexivity|].
  simpl. unfold io_bind at 1.
  destruct (Os.listdir st (_join self (rev parts ++ [part]))) as [[|n names]|e];
    [|reflexivity|reflexivity].
  unfold io_bind at 1. unfold syscall at 1.
  destruct (Os.rmdir st (_join self (rev parts ++ [part]))) as [st1|e] eqn:Hrm;
    [|reflexivity].
  etrans; [apply IH|]. now apply rmdir_shrinks in Hrm.
Qed.

Lemma delete_unfold (corn : Filesystem) (item : item_values) (st : Os.fs) :
  delete_ corn item st =
  match full_filename corn item with
  | Raise e => (Raise e, st)
  | Ok full =>
      match Os.remove st full with
      | Raise e => (Raise e, st)
      | Ok st1 =>
          match filename corn item with
          | Raise e => (Raise e, st1)
          | Ok relative =>
              remove_empty_directories corn (tail (rev (Str.split slash relative))) st1
          end
      end
  end.
Proof.
  unfold delete_. unfold io_bind at 1. unfold io_lift at 1.
  destruct (full_filename corn item) as [full|e] eqn:Hfull; [|reflexivity].
  rewrite (full_filename_starts_with_root _ _ _ Hfull). simpl.
  unfold io_bind at 1. unfold syscall at 1.
  destruct (Os.remove st full) as [st1|e]; [|reflexivity].
  unfold io_bind at 1. unfold io_lift at 1.
  destruct (filename corn item); reflexivity.
Qed.

(** X10.  When [delete] returns, the full filename of the item led to a
    regular file before and leads to nothing afterwards, and everything
    that is there afterwards was there before, unchanged; deleting the
    item once more raises the error of [os.remove] and changes nothing. *)
Theorem delete_removes_the_file
    (corn : Filesystem) (item : item_values) (st st' : Os.fs) :
  delete_ corn item st = (Ok tt, st') ->
  exists full,
    full_filename corn item = Ok full
    /\ Os.isfile st full = true
    /\ Os.exists_ st' full = false
    /\ st' ⊆ st
    /\ delete_ corn item st' = (Raise (OSError full), st').
Proof.
  intros Hrun. rewrite delete_unfold in Hrun.
  destruct (full_filename corn item) as [full|e] eqn:Hfull; [|discriminate].
  destruct (Os.remove st full) as [st1|e] eqn:Hrm; [|discriminate].
  destruct (filename corn item) as [relative|e] eqn:Hrel; [|discriminate].
  exists full.
  destruct (remove_ok _ _ _ Hrm) as (q & Hloc & Hfile & ->).
  assert (st' ⊆ delete q st) as Hsub.
  { pose proof (remove_empty_directories_shrinks corn
                  (tail (rev (Str.split slash relative))) (delete q st)) as Hs.
    rewrite Hrun in Hs. exact Hs. }
  split; [reflexivity|]. split; [unfold Os.isfile; now rewrite Hloc|].
  assert (Os.exists_ st' full = false) as Hgone; [|split; [exact Hgone|split]].
  3:{ rewrite delete_unfold, Hfull. unfold Os.remove. unfold Os.exists_ in Hgone.
      destruct (Os.locate st' full) as [k|]; [|reflexivity].
      apply bool_decide_eq_false in Hgone. unfold Os.is_file_at.
      destruct (Os.node_at st' k) as [[d|]|]; try reflexivity.
      exfalso. apply Hgone. eauto. }
  2:{ etrans; [exact Hsub|apply delete_subseteq]. }
  unfold Os.exists_. destruct (Os.locate st' full) as [k|] eqn:Hk; [|reflexivity].
  assert (Os.locate st full = Some k) as Hk'.
  { rewrite <- (locate_same st (delete q st));
      [|intros k'; now apply is_dir_at_delete_file].
    eapply locate_mono; [|exact Hk]. intros k'. now apply is_dir_at_mono. }
  rewrite Hloc in Hk'. injection Hk' as <-.
  apply bool_decide_eq_false. intros [n Hn].
  unfold Os.is_file_at, Os.node_at in *. destruct q; [discriminate|].
  apply (lookup_weaken _ _ _ _ Hn) in Hsub. unfold Os.fs in *.
  rewrite lookup_delete_eq in Hsub. discriminate.
Qed.

Lemma delete_removes_the_file_witness :
  exists corn,
    corn_ab = Ok corn
    /\ exists full,
         full_filename corn (item_ab "2024" "notes.txt") = Ok full
         /\ Os.isfile dir_2024 full = true
         /\ Os.exists_ (delete_ corn (item_ab "2024" "notes.txt") dir_2024).2 full = false
         /\ (delete_ corn (item_ab "2024" "notes.txt") dir_2024).2 ⊆ dir_2024
         /\ delete_ corn (item_ab "2024" "notes.txt")
              (delete_ corn (item_ab "2024" "notes.txt") dir_2024).2
            = (Raise (OSError full), (delete_ corn (item_ab "2024" "notes.txt") dir_2024).2).
Proof.
  eexists. split; [reflexivity|].
  apply (delete_removes_the_file _ (item_ab "2024" "notes.txt") dir_2024).
  rewrite (surjective_pairing (delete_ _ _ _)) at 1. f_equal; try (vm_compute; reflexivity).
Defined.


(** X11.  [delete] adds nothing and changes no content, whatever its
    outcome; when the full filename does not lead to a regular file it
    raises the error of [os.remove] and the file system is as before. *)
Theorem delete_never_adds (corn : Filesystem) (item : item_values) (st : Os.fs) :
  (delete_ corn item st).2 ⊆ st
  /\ match full_filename corn item with
     | Raise e => delete_ corn item st = (Raise e, st)
     | Ok full =>
         if Os.isfile st full then True
         else delete_ corn item st = (Raise (OSError full), st)
     end.
Proof.
  rewrite delete_unfold.
  destruct (full_filename corn item) as [full|e] eqn:Hfull; [|split; reflexivity].
  unfold Os.isfile, Os.remove.
  destruct (Os.locate st full) as [q|]; [|split; reflexivity].
  destruct (Os.is_file_at st q); [|split; reflexivity].
  split; [|exact I].
  destruct (filename corn item) as [relative|e]; [|apply delete_subseteq].
  etrans; [apply remove_empty_directories_shrinks|apply delete_subseteq].
Qed.

(** ** The assertion of [save] and [delete], and their errors *)

Lemma save_unfold `{Codecs} (corn : Filesystem) (item : item_values) (st : Os.fs) :
  save corn item st =
  match full_filename corn item with
  | Raise e => (Raise e, st)
  | Ok full =>
      match (if Os.exists_ st (Str.dirname full) then io_ret tt
             else makedirs (Str.dirname full)) st with
      | (Raise e, st1) => (Raise e, st1)
      | (Ok _, st1) =>
          match Os.open_w st1 full with
          | Raise e => (Raise e, st1)
          | Ok st2 =>
              match item !! content_property corn with
              | None => (Raise (KeyError (content_property corn)), st2)
              | Some v =>
                  match to_write (encoding corn) v with
                  | Raise e => (Raise e, st2)
                  | Ok data =>
                      match Os.write st2 full data with
                      | Raise e => (Raise e, st2)
                      | Ok st3 => (Ok tt, st3)
                      end
                  end
              end
          end
      end
  end.
Proof.
  unfold save. unfold io_bind at 1. unfold io_lift at 1.
  destruct (full_filename corn item) as [full|e] eqn:Hfull; [|reflexivity].
  rewrite (full_filename_starts_with_root _ _ _ Hfull). simpl.
  unfold io_bind at 1. unfold inspect at 1. unfold io_bind at 1.
  destruct ((if Os.exists_ st (Str.dirname full) then io_ret tt
             else makedirs (Str.dirname full)) st) as [[[]|e] st1]; [|reflexivity].
  unfold io_bind at 1. unfold syscall at 1.
  destruct (Os.open_w st1 full) as [st2|e]; [|reflexivity].
  unfold io_bind at 1. unfold io_lift at 1.
  destruct (item !! content_property corn) as [v|]; [|reflexivity].
  unfold io_bind at 1. unfold io_lift at 1.
  destruct (to_write (encoding corn) v) as [data|e]; [|reflexivity].
  unfold syscall. destruct (Os.write st2 full data); reflexivity.
Qed.

Lemma mkdir_error (st : Os.fs) p e : Os.mkdir st p = Raise e -> e = OSError p.
Proof.
  unfold Os.mkdir. destruct (Os.locate st p) as [q|]; [|congruence].
  destruct (Os.node_at st q); congruence.
Qed.

Lemma open_w_error (st : Os.fs) p e : Os.open_w st p = Raise e -> e = OSError p.
Proof.
  unfold Os.open_w. destruct (Os.locate st p) as [q|]; [|congruence].
  destruct (Os.node_at st q) as [[d|]|]; try congruence;
    destruct (Str.endswith p [slash]); congruence.
Qed.

Lemma write_error (st : Os.fs) p data e : Os.write st p data = Raise e -> e = OSError p.
Proof. unfold Os.write. destruct (Os.locate st p); congruence. Qed.

Lemma remove_error (st : Os.fs) p e : Os.remove st p = Raise e -> e = OSError p.
Proof.
  unfold Os.remove. destruct (Os.locate st p) as [q|]; [|congruence].
  destruct (Os.is_file_at st q); congruence.
Qed.

Lemma rmdir_error (st : Os.fs) p e : Os.rmdir st p = Raise e -> e = OSError p.
Proof.
  unfold Os.rmdir. destruct (Os.locate st p) as [q|]; [|congruence].
  match goal with |- context [if ?c then _ else _] => destruct c end; congruence.
Qed.

Lemma listdir_error (st : Os.fs) p e : Os.listdir st p = Raise e -> e = OSError p.
Proof.
  unfold Os.listdir. destruct (Os.locate st p) as [q|]; [|congruence].
  destruct (Os.is_dir_at st q); congruence.
Qed.

Lemma syscall_mkdir_error (st : Os.fs) p e :
  (syscall (fun st0 => Os.mkdir st0 p) st).1 = Raise e -> e = OSError p.
Proof.
  unfold syscall. destruct (Os.mkdir st p) as [st'|e'] eqn:Hm; simpl; [discriminate|].
  intros [= <-]. now apply mkdir_error in Hm.
Qed.

Lemma makedirs_loop_error todo :
  forall done (st : Os.fs) e,
    (makedirs_loop done todo st).1 = Raise e -> exists p, e = OSError p.
Proof.
  induction todo as [|n todo IH]; intros done st e; [discriminate|].
  change (makedirs_loop done (n :: todo)) with
    (io_bind (match todo with
              | [] => syscall (fun st => Os.mkdir st (done ++ n))
              | _ => io_bind (inspect (fun st => text_eqb (done ++ n) []
                                                 || Os.exists_ st (done ++ n)))
                       (fun present : bool =>
                          if present then io_ret tt
                          else syscall (fun st => Os.mkdir st (done ++ n)))
              end)
             (fun _ => makedirs_loop ((done ++ n) ++ [slash]) todo)).
  unfold io_bind at 1.
  match goal with |- context [match ?c st with _ => _ end] =>
    assert (forall e', (c st).1 = Raise e' -> e' = OSError (done ++ n)) as Hstep;
      [|destruct (c st) as [[[]|e'] st1] eqn:Hc]
  end.
  - destruct todo as [|n' todo']; [apply syscall_mkdir_error|].
    unfold io_bind, inspect.
    destruct (text_eqb (done ++ n) [] || Os.exists_ st (done ++ n));
      [discriminate|apply syscall_mkdir_error].
  - apply IH.
  - simpl. intros [= <-]. eexists. now apply Hstep.
Qed.

Lemma filename_values_error (item : item_values) names :
  forall acc e, filename_values item names acc = Raise e -> is_value_error e = true.
Proof.
  induction names as [|n names IH]; intros acc e; simpl; [discriminate|].
  destruct (item !! n) as [v|]; simpl; [|intros [= <-]; reflexivity].
  destruct (strict_unicode v) as [value|e'] eqn:Hv; simpl.
  - destruct (Str.contains slash value); [intros [= <-]; reflexivity|apply IH].
  - intros [= <-]. now apply strict_unicode_error in Hv.
Qed.

Lemma get_field_error kwargs field e :
  Str.get_field kwargs field = Raise e -> e <> AssertionError.
Proof.
  unfold Str.get_field. destruct field as [|c field]; [intros [= <-]; discriminate|].
  destruct (forallb is_digit (c :: field)); [intros [= <-]; discriminate|].
  destruct (Str.plain_field (c :: field)); [|intros [= <-]; discriminate].
  destruct (kwargs !! (c :: field)); [discriminate|intros [= <-]; discriminate].
Qed.

Lemma emit_error s r e :
  Str.emit s r = Raise e -> r = Raise e.
Proof. destruct r; simpl; [discriminate|auto]. Qed.

Lemma format_loop_error kwargs chars :
  forall m e, Str.format_loop kwargs m chars = Raise e -> e <> AssertionError.
Proof.
  induction chars as [|c chars IH]; intros m e; simpl.
  - destruct m as [|brace|depth field]; [discriminate| |intros [= <-]; discriminate].
    destruct (brace =? lbrace); intros [= <-]; discriminate.
  - destruct m as [|brace|depth field].
    + destruct (is_brace c); [apply IH|]. intros H. apply emit_error in H. eapply IH; eauto.
    + destruct (c =? brace); [intros H; apply emit_error in H; eapply IH; eauto|].
      destruct (brace =? rbrace); [intros [= <-]; discriminate|].
      destruct (c =? rbrace); [|apply IH].
      simpl. intros [= <-]. discriminate.
    + destruct (c =? lbrace); [apply IH|].
      destruct (c =? rbrace); [|apply IH].
      destruct depth as [|depth]; [|apply IH].
      destruct (Str.get_field kwargs field) as [v|e'] eqn:Hf; simpl.
      * intros H. apply emit_error in H. eapply IH; eauto.
      * intros [= <-]. eapply get_field_error; eauto.
Qed.

Lemma filename_error corn (item : item_values) e :
  filename corn item = Raise e -> e <> AssertionError.
Proof.
  unfold filename.
  destruct (filename_values item (identity_properties corn) ∅) as [values0|e'] eqn:Hv; simpl.
  - apply format_loop_error.
  - intros [= <-]. apply filename_values_error in Hv. intros ->. discriminate.
Qed.

Lemma full_filename_error corn (item : item_values) e :
  full_filename corn item = Raise e -> e <> AssertionError.
Proof.
  unfold full_filename. destruct (filename corn item) as [f|e'] eqn:Hf; simpl; [discriminate|].
  intros [= <-]. eapply filename_error; eauto.
Qed.

Lemma remove_empty_directories_error self parts :
  forall (st : Os.fs) e,
    (remove_empty_directories self parts st).1 = Raise e -> exists p, e = OSError p.
Proof.
  induction parts as [|part parts IH]; intros st e; [discriminate|].
  simpl. unfold io_bind at 1.
  destruct (Os.listdir st (_join self (rev parts ++ [part]))) as [[|n names]|e'] eqn:Hl;
    [|discriminate|].
  - unfold io_bind at 1. unfold syscall at 1.
    destruct (Os.rmdir st (_join self (rev parts ++ [part]))) as [st1|e'] eqn:Hrm.
    + apply IH.
    + simpl. intros [= <-]. apply rmdir_error in Hrm. eauto.
  - simpl. intros [= <-]. apply listdir_error in Hl. eauto.
Qed.

(** X12.  The assertion of [save] and [delete] on the full filename never
    fails: neither raises [AssertionError], whatever the item and the file
    system ([save] with codecs that raise none). *)
Theorem assertion_never_fails `{Codecs}
    (corn : Filesystem) (item : item_values) (st : Os.fs) :
  (forall enc s, encode enc s <> Raise AssertionError) ->
  (save corn item st).1 <> Raise AssertionError
  /\ (delete_ corn item st).1 <> Raise AssertionError.
Proof.
  intros Hcodec. split.
  - rewrite save_unfold.
    destruct (full_filename corn item) as [full|e] eqn:Hfull;
      [|simpl; intros [= ->]; now apply full_filename_error in Hfull].
    destruct ((if Os.exists_ st (Str.dirname full) then io_ret tt
               else makedirs (Str.dirname full)) st) as [[[]|e] st1] eqn:Hmk.
    + destruct (Os.open_w st1 full) as [st2|e] eqn:Hopen;
        [|simpl; intros [= ->]; now apply open_w_error in Hopen].
      destruct (item !! content_property corn) as [v|]; [|discriminate].
      destruct (to_write (encoding corn) v) as [data|e] eqn:Hdata.
      * destruct (Os.write st2 full data) as [st3|e] eqn:Hw; [discriminate|].
        simpl. intros [= ->]. now apply write_error in Hw.
      * simpl. intros [= ->]. unfold to_write in Hdata.
        destruct (encoding corn), v; try discriminate. now apply Hcodec in Hdata.
    + simpl. intros [= ->].
      destruct (Os.exists_ st (Str.dirname full)); [discriminate|].
      unfold makedirs in Hmk.
      pose proof (makedirs_loop_error (Str.split slash (Str.rstrip_slash (Str.dirname full)))
                    [] st AssertionError) as Herr.
      rewrite Hmk in Herr. destruct (Herr eq_refl). discriminate.
  - rewrite delete_unfold.
    destruct (full_filename corn item) as [full|e] eqn:Hfull;
      [|simpl; intros [= ->]; now apply full_filename_error in Hfull].
    destruct (Os.remove st full) as [st1|e] eqn:Hrm;
      [|simpl; intros [= ->]; now apply remove_error in Hrm].
    destruct (filename corn item) as [relative|e] eqn:Hrel;
      [|simpl; intros [= ->]; now apply filename_error in Hrel].
    intros Herr. apply remove_empty_directories_error in Herr as [p Hp]. discriminate.
Qed.

Lemma assertion_never_fails_witness :
  exists corn,
    corn_ab = Ok corn
    /\ (save (H := latin1) corn (item_ab ".." "x") dir_flat).1 <> Raise AssertionError
    /\ (delete_ corn (item_ab ".." "x") dir_flat).1 <> Raise AssertionError.
Proof.
  eexists. split; [reflexivity|].
  apply (assertion_never_fails (H := latin1) _ (item_ab ".." "x") dir_flat).
  intros enc s. discriminate.
Defined.

(** ** What a filename depends on *)

Lemma filename_values_agree (item1 item2 : item_values) names :
  forall acc,
    (forall n, n ∈ names -> item1 !! n = item2 !! n) ->
    filename_values item1 names acc = filename_values item2 names acc.
Proof.
  induction names as [|n names IH]; intros acc Hsame; [reflexivity|].
  simpl. rewrite (Hsame n) by apply list_elem_of_here.
  destruct (item2 !! n) as [v|]; simpl; [|reflexivity].
  destruct (strict_unicode v) as [value|e]; simpl; [|reflexivity].
  destruct (Str.contains slash value); [reflexivity|].
  apply IH. intros n' Hn'. apply Hsame. now apply list_elem_of_further.
Qed.

(** X13.  The filename of an item is made of its identity properties
    only: two items with the same values for them (missing ones included)
    have the same filename and full filename, or fail with the same
    error, whatever their other properties are. *)
Theorem filename_reads_identity_properties_only
    (corn : Filesystem) (item1 item2 : item_values) :
  (forall n, n ∈ identity_properties corn -> item1 !! n = item2 !! n) ->
  filename corn item1 = filename corn item2
  /\ full_filename corn item1 = full_filename corn item2.
Proof.
  intros Hsame.
  assert (filename corn item1 = filename corn item2) as Hf.
  { unfold filename. now rewrite (filename_values_agree item1 item2 _ ∅ Hsame). }
  split; [exact Hf|]. unfold full_filename. now rewrite Hf.
Qed.

Lemma filename_reads_identity_properties_only_witness :
  exists corn,
    corn_ab = Ok corn
    /\ filename corn (item_ab "2024" "x")
       = filename corn (<[u "content" := PyOther]> (item_ab "2024" "x"))
    /\ full_filename corn (item_ab "2024" "x")
       = full_filename corn (<[u "content" := PyOther]> (item_ab "2024" "x")).
Proof.
  destruct corn_ab as [corn|e] eqn:E; [|vm_compute in E; discriminate].
  exists corn. split; [reflexivity|].
  apply (filename_reads_identity_properties_only corn (item_ab "2024" "x")
           (<[u "content" := PyOther]> (item_ab "2024" "x"))).
  assert (identity_properties corn = [u "a"; u "b"]) as ->
    by (vm_compute in E; injection E as <-; reflexivity).
  intros n Hn. symmetry. apply lookup_insert_ne. intros <-.
  apply elem_of_cons in Hn as [Hn|Hn]; [discriminate|].
  apply elem_of_cons in Hn as [Hn|Hn]; [discriminate|].
  inversion Hn.
Defined.

(** ** The types of the properties *)

Lemma lookup_fold_insert (t : Type_) (names : list text) :
  forall (m : gmap text Type_) (n : text),
    fold_left (fun props n0 => <[n0 := t]> props) names m !! n
    = if bool_decide (n ∈ names) then Some t else m !! n.
Proof.
  induction names as [|n0 names IH]; intros m n; cbn [fold_left].
  - case_bool_decide as Hn; [inversion Hn|reflexivity].
  - rewrite IH. do 2 case_bool_decide; try reflexivity.
    + exfalso. set_solver.
    + assert (n = n0) as -> by set_solver. apply lookup_insert_eq.
    + apply lookup_insert_ne. set_solver.
Qed.

(** X14.  An access point types its content property as bytes without an
    encoding and as unicode with one, under the name of the property; every
    other property of the pattern is typed as unicode and is given the
    name of the access point.  The content property wins over a property
    of the pattern with the same name, and there is no other property. *)
Theorem properties_are_typed
    (name0 root pat : text) (enc : option text) (cp : text) (corn : Filesystem) :
  __init__ name0 root pat enc cp = Ok corn ->
  forall n,
    properties corn !! n =
    if bool_decide (n = cp)
    then Some {| type := match enc with None => Bytes_type | Some _ => Unicode_type end;
                 type_name := cp |}
    else if bool_decide (n ∈ identity_properties corn)
         then Some {| type := Unicode_type; type_name := name0 |}
         else None.
Proof.
  unfold __init__. destruct (_parse_pattern pat) as [[parts props]|e]; simpl; [|discriminate].
  intros [= <-] n. simpl.
  destruct (decide (n = cp)) as [->|Hne].
  - rewrite bool_decide_eq_true_2 by reflexivity. now rewrite lookup_insert_eq.
  - rewrite bool_decide_eq_false_2 by assumption.
    rewrite lookup_insert_ne by congruence.
    rewrite lookup_fold_insert. now rewrite lookup_empty.
Qed.

Lemma properties_are_typed_witness :
  exists corn,
    corn_ymd = Ok corn
    /\ properties corn !! u "content"
       = Some {| type := Bytes_type; type_name := u "content" |}
    /\ properties corn !! u "year"
       = Some {| type := Unicode_type; type_name := u "log" |}.
Proof.
  destruct corn_ymd as [corn|e] eqn:E; [|vm_compute in E; discriminate].
  exists corn. split; [reflexivity|].
  pose proof (properties_are_typed (u "log") (u "/srv/data") (u "{year}/{month}-{day}.txt")
                None (u "content") corn E) as Htyped.
  assert (identity_properties corn = [u "year"; u "month"; u "day"]) as Hid
    by (vm_compute in E; injection E as <-; reflexivity).
  split.
  - rewrite (Htyped (u "content")). reflexivity.
  - rewrite (Htyped (u "year")), Hid. reflexivity.
Defined.

(** ** The patterns that compile *)






(** ** Round trip: matching a path and deriving it again *)

Lemma dollar_newline_free s rest :
  newline_free (s ++ rest) = true -> Re.dollar rest = true -> rest = [].
Proof.
  intros Hfree Hd. apply newline_free_app in Hfree as [_ Hrest].
  destruct rest as [|c [|c' rest]]; [reflexivity| |discriminate].
  simpl in Hd. apply newline_free_cons in Hrest as [Hc _]. congruence.
Qed.

(** What matching the names of a path captures, part by part: for each
    part the items of a dictionary of captures; [gss] holds the captures
    in the order of the groups. *)
Lemma match_parts_captured `{Re.Dict_order} self segs :
  forall names depth prev vs,
    (forall i seg, segs !! i = Some seg ->
                   _path_parts_re self !! (depth + i)%nat = Some (map piece_of seg)) ->
    length names = length segs ->
    Forall (fun n => newline_free n = true) names ->
    match_parts self depth names prev = Ok (Some vs) ->
    exists gss,
      vs = prev ++ concat (map Re.items gss)
      /\ Forall3 (fun seg n gs => map fst gs = field_names seg
                                  /\ n = expand (map piece_of seg) (map snd gs))
                 segs names gss.
Proof.
  induction segs as [|seg segs IH]; intros names depth prev vs Hparts Hlen Hnl.
  - destruct names; [|discriminate]. simpl. intros [= <-].
    exists []. simpl. rewrite app_nil_r. split; [reflexivity|constructor].
  - destruct names as [|n names]; [discriminate|].
    injection Hlen as Hlen. inversion Hnl as [|? ? Hn Hnl']; subst.
    rewrite match_parts_cons.
    destruct (_match_part self depth n) as [[nv|]|e] eqn:Hm; try discriminate.
    intros Hrest.
    destruct (IH names (S depth) (prev ++ nv) vs) as (gss & -> & Hall); auto.
    { intros i seg' Hi. replace (S depth + i)%nat with (depth + S i)%nat by lia.
      now apply Hparts. }
    apply match_part_spec in Hm as (r & [gs rest] & Hr & Hrun & ->).
    pose proof (Hparts 0%nat seg eq_refl) as Hr'. rewrite Nat.add_0_r in Hr'.
    pose proof (eq_trans (eq_sym Hr) Hr') as Heq. injection Heq as ->.
    destruct (run_sound _ _ _ _ Hrun) as (Hnames & Hexp & Hd & _).
    exists (gs :: gss). split; [simpl; now rewrite app_assoc|].
    constructor; [|exact Hall]. split; [now rewrite Hnames, group_names_pieces|].
    rewrite Hexp in Hn. rewrite (dollar_newline_free _ _ Hn Hd), app_nil_r in Hexp.
    exact Hexp.
Qed.

Lemma captured_render_names (kwargs : gmap text text) segs names gss :
  Forall3 (fun seg n gs => map fst gs = field_names seg
                           /\ n = expand (map piece_of seg) (map snd gs))
          segs names gss ->
  (forall n v, (n, v) ∈ concat gss -> kwargs !! n = Some v) ->
  map (render kwargs) segs = names.
Proof.
  induction 1 as [|seg n gs segs names gss [Hn Hexp] _ IH]; intros Hk; [reflexivity|].
  simpl. rewrite IH.
  - f_equal. rewrite render_expand, <- Hn, values_of_captured; [now rewrite Hexp|].
    intros n' v Hin. apply Hk. simpl. apply elem_of_app. now left.
  - intros n' v Hin. apply Hk. simpl. apply elem_of_app. now right.
Qed.

Lemma captured_names_slash_free segs names gss :
  Forall3 (fun seg n gs => map fst gs = field_names seg
                           /\ n = expand (map piece_of seg) (map snd gs))
          segs names gss ->
  Forall (fun n => slash_free n = true) names ->
  forall n v, (n, v) ∈ concat gss -> slash_free v = true.
Proof.
  induction 1 as [|seg n0 gs segs names gss [Hn Hexp] _ IH]; intros Hfree n v Hin.
  - inversion Hin.
  - inversion Hfree as [|? ? Hseg Hrest]; subst.
    simpl in Hin. apply elem_of_app in Hin as [Hin|Hin]; [|now apply (IH Hrest n v)].
    apply expand_slash_free in Hseg.
    + rewrite Forall_forall in Hseg. apply Hseg.
      apply list_elem_of_fmap. exists (n, v). auto.
    + rewrite group_names_pieces, <- Hn, !length_map. reflexivity.
Qed.

Lemma captured_all_names segs names gss :
  Forall3 (fun seg (n : text) (gs : Re.groups) =>
             map fst gs = field_names seg
             /\ n = expand (map piece_of seg) (map snd gs))
          segs names gss ->
  map fst (concat gss) = concat (map field_names segs).
Proof.
  induction 1 as [|seg n gs segs names gss [Hn _] _ IH]; [reflexivity|].
  simpl. rewrite map_app, Hn, IH. reflexivity.
Qed.

Lemma split_join_slash names :
  names <> [] ->
  Forall (fun n => slash_free n = true) names ->
  Str.split slash (join_slash names) = names.
Proof.
  induction names as [|n names IH]; intros Hne Hfree; [congruence|].
  inversion Hfree as [|? ? Hn Hrest]; subst.
  destruct names as [|n' names].
  - simpl. rewrite <- (app_nil_r n) at 1. rewrite split_app_free by assumption.
    simpl. now rewrite app_nil_r.
  - change (join_slash (n :: n' :: names)) with (n ++ slash :: join_slash (n' :: names)).
    rewrite split_app_free by assumption.
    change (Str.split slash (slash :: join_slash (n' :: names)))
      with ([] :: Str.split slash (join_slash (n' :: names))).
    rewrite IH by (auto; discriminate). now rewrite app_nil_r.
Qed.

(** The names that are matched derive the path they make. *)
Lemma matched_names_derive `{Re.Dict_order}
    (ks : list chunk) (name0 root : text) (enc : option text) (cp : text)
    (corn : Filesystem) (names : list text) (captured : Re.groups) :
  well_spaced ks = true ->
  __init__ name0 root (unparse ks) enc cp = Ok corn ->
  length names = length (_path_parts_re corn) ->
  Forall (fun n => slash_free n = true /\ newline_free n = true) names ->
  match_parts corn 0 names [] = Ok (Some captured) ->
  filename corn (as_item captured) = Ok (join_slash names)
  /\ full_filename corn (as_item captured) = Ok (_join corn names).
Proof.
  intros Hwf Hinit Hlen Hnames Hmatch.
  destruct (init_inv _ _ _ _ _ _ Hinit) as (Hparse & _ & Hpat & _).
  destruct (parse_pattern_chunks _ _ _ Hwf Hparse) as (Hparts & Hprops & Hid & Hnd & _).
  assert (Forall (fun n => slash_free n = true) names) as Hslash
    by (eapply Forall_impl; [exact Hnames|]; simpl; tauto).
  assert (Forall (fun n => newline_free n = true) names) as Hnl
    by (eapply Forall_impl; [exact Hnames|]; simpl; tauto).
  destruct (match_parts_captured corn (segments ks) names 0 [] captured)
    as (gss & -> & Hall); auto.
  { intros i seg Hi. simpl. rewrite Hparts, list_lookup_fmap, Hi. reflexivity. }
  { rewrite Hlen, Hparts, length_map. reflexivity. }
  simpl.
  assert (map fst (concat gss) = identity_properties corn) as Hfst.
  { rewrite (captured_all_names _ _ _ Hall), <- field_names_segments. auto. }
  assert (as_item (concat (map Re.items gss)) = as_item (concat gss)) as ->.
  { apply as_item_permutation; [|apply concat_items].
    rewrite (concat_items gss), Hfst. exact Hnd. }
  assert (forall n v, (n, v) ∈ concat gss ->
            as_item (concat gss) !! n = Some (PyUnicode v)) as Hlook.
  { intros n v Hin. apply as_item_lookup; [|exact Hin]. rewrite Hfst. exact Hnd. }
  destruct (filename_render ks _ _ _ _ corn (as_item (concat gss))
              (text_value (as_item (concat gss))) Hwf Hinit) as (kwargs & Hfile & Hkw).
  { intros n Hn. rewrite <- Hfst in Hn.
    apply list_elem_of_fmap in Hn as ([n' v] & -> & Hin). simpl.
    unfold text_value. rewrite (Hlook _ _ Hin). split; [reflexivity|].
    now apply (captured_names_slash_free _ _ _ Hall Hslash n' v). }
  assert (filename corn (as_item (concat gss)) = Ok (join_slash names)) as Hfilename.
  { rewrite Hfile, render_join. do 2 f_equal.
    apply (captured_render_names _ _ _ _ Hall).
    intros n v Hin. rewrite Hkw.
    - unfold text_value. rewrite (Hlook _ _ Hin). reflexivity.
    - rewrite <- Hfst. apply list_elem_of_fmap. exists (n, v). auto. }
  split; [exact Hfilename|].
  unfold full_filename. rewrite Hfilename. simpl. unfold _join.
  rewrite split_join_slash; [reflexivity| |exact Hslash].
  intros ->. pose proof (parse_pattern_has_a_part _ _ _ Hparse). simpl in Hlen. lia.
Qed.

(** X16.  What is matched derives the path it was matched on.  For a
    pattern of plain characters, escaped braces and fields (no escaped
    brace directly followed by a brace of its kind) and names without a
    slash or a newline, as many as the pattern has parts: when the names
    are matched, each at its depth, the item with the captured values has
    these names, joined, as its filename, and the joined path below the
    root as its full filename. *)
Theorem match_then_derive_roundtrip `{Re.Dict_order}
    (ks : list chunk) (name0 root : text) (enc : option text) (cp : text)
    (corn : Filesystem) (names : list text) (captured : Re.groups) :
  well_spaced ks = true ->
  __init__ name0 root (unparse ks) enc cp = Ok corn ->
  length names = length (_path_parts_re corn) ->
  Forall (fun n => slash_free n = true /\ newline_free n = true) names ->
  match_parts corn 0 names [] = Ok (Some captured) ->
  filename corn (as_item captured) = Ok (join_slash names)
  /\ full_filename corn (as_item captured) = Ok (_join corn names).
Proof. apply matched_names_derive. Qed.

Lemma match_then_derive_roundtrip_witness :
  exists corn,
    corn_dash = Ok corn
    /\ filename corn (as_item [(u "b", u "z"); (u "a", u "x-y")])
       = Ok (join_slash [u "x-y-z"])
    /\ full_filename corn (as_item [(u "b", u "z"); (u "a", u "x-y")])
       = Ok (_join corn [u "x-y-z"]).
Proof.
  destruct corn_dash as [corn|e] eqn:E; [|vm_compute in E; discriminate].
  exists corn. split; [reflexivity|].
  apply (match_then_derive_roundtrip (H := reverse_order)
           [Field (u "a"); Plain "-"; Field (u "b")] (u "pairs") (u "/srv/data") None
           (u "content") corn [u "x-y-z"] [(u "b", u "z"); (u "a", u "x-y")]).
  - reflexivity.
  - exact E.
  - vm_compute in E. injection E as <-. reflexivity.
  - repeat constructor.
  - vm_compute in E. injection E as <-. vm_compute. reflexivity.
Defined.

(** ** When a filename is derived *)

Lemma filename_values_dom (item : item_values) names :
  forall acc kwargs,
    filename_values item names acc = Ok kwargs ->
    (forall n, n ∈ names -> is_Some (kwargs !! n))
    /\ (forall n, is_Some (acc !! n) -> is_Some (kwargs !! n)).
Proof.
  induction names as [|n0 names IH]; intros acc kwargs; simpl.
  - intros [= <-]. split; [intros n Hn; inversion Hn|auto].
  - destruct (item !! n0) as [v|]; simpl; [|discriminate].
    destruct (strict_unicode v) as [value|e]; simpl; [|discriminate].
    destruct (Str.contains slash value); [discriminate|].
    intros Hrest. destruct (IH _ _ Hrest) as [Hin Hacc]. split.
    + intros n Hn. apply elem_of_cons in Hn as [->|Hn]; [|now apply Hin].
      apply Hacc. rewrite lookup_insert_eq. eauto.
    + intros n Hn. apply Hacc. destruct (decide (n0 = n)) as [->|Hne].
      * rewrite lookup_insert_eq. eauto.
      * now rewrite lookup_insert_ne.
Qed.

Lemma filename_values_ok_inv (item : item_values) names :
  forall acc kwargs,
    filename_values item names acc = Ok kwargs ->
    forall n, n ∈ names ->
      exists v s, item !! n = Some v /\ strict_unicode v = Ok s /\ slash_free s = true.
Proof.
  induction names as [|n0 names IH]; intros acc kwargs; simpl.
  - intros _ n Hn. inversion Hn.
  - destruct (item !! n0) as [v|] eqn:Hv; simpl; [|discriminate].
    destruct (strict_unicode v) as [value|e] eqn:Hs; simpl; [|discriminate].
    destruct (Str.contains slash value) eqn:Hc; [discriminate|].
    intros Hrest n Hn. apply elem_of_cons in Hn as [->|Hn]; [|eapply IH; eauto].
    exists v, value. split; [exact Hv|]. split; [exact Hs|].
    unfold slash_free. now rewrite Hc.
Qed.

Lemma filename_values_total (item : item_values) names :
  forall acc,
    (forall n, n ∈ names ->
       exists v s, item !! n = Some v /\ strict_unicode v = Ok s /\ slash_free s = true) ->
    exists kwargs, filename_values item names acc = Ok kwargs.
Proof.
  induction names as [|n0 names IH]; intros acc Hall; simpl; [eauto|].
  destruct (Hall n0 (list_elem_of_here _ _)) as (v & s & Hv & Hs & Hfree).
  rewrite Hv. simpl. rewrite Hs. simpl.
  unfold slash_free in Hfree. apply negb_true_iff in Hfree. rewrite Hfree.
  apply IH. intros n Hn. apply Hall. now apply list_elem_of_further.
Qed.

(** X17.  For a pattern of plain characters, escaped braces and fields
    (no escaped brace directly followed by a brace of its kind), the
    filename of an item is derived exactly when the item has every
    identity property, each is unicode or an ASCII byte string, and none
    contains a slash. *)
Theorem filename_is_derived_exactly_when
    (ks : list chunk) (name0 root : text) (enc : option text) (cp : text)
    (corn : Filesystem) (item : item_values) :
  well_spaced ks = true ->
  __init__ name0 root (unparse ks) enc cp = Ok corn ->
  (exists path, filename corn item = Ok path)
  <-> (forall n, n ∈ identity_properties corn ->
         exists v s, item !! n = Some v /\ strict_unicode v = Ok s /\ slash_free s = true).
Proof.
  intros Hwf Hinit.
  destruct (init_inv _ _ _ _ _ _ Hinit) as (Hparse & _ & Hpat & _).
  destruct (parse_pattern_chunks _ _ _ Hwf Hparse) as (_ & Hprops & Hid & _ & _).
  unfold filename. split.
  - intros [path Hpath].
    destruct (filename_values item (identity_properties corn) ∅) as [kwargs|e] eqn:Hk;
      [|discriminate].
    eapply filename_values_ok_inv; eauto.
  - intros Hall. destruct (filename_values_total item _ ∅ Hall) as [kwargs Hk].
    rewrite Hk. simpl. rewrite Hpat. unfold Str.format.
    rewrite format_chunks by now apply well_spaced_ok.
    exists (render kwargs ks). apply derive_render.
    intros n Hn. rewrite <- Hprops in Hn. split.
    + rewrite Forall_forall in Hid. now apply Hid.
    + apply (proj1 (filename_values_dom _ _ _ _ Hk)). exact Hn.
Qed.

Lemma filename_is_derived_exactly_when_witness :
  exists corn,
    corn_escaped = Ok corn
    /\ ((exists path, filename corn item_x = Ok path)
        <-> (forall n, n ∈ identity_properties corn ->
               exists v s, item_x !! n = Some v /\ strict_unicode v = Ok s
                           /\ slash_free s = true)).
Proof.
  eexists. split; [reflexivity|].
  apply (filename_is_derived_exactly_when pattern_escaped (u "escaped") (u "/srv/data")
           None (u "content") _ item_x eq_refl eq_refl).
Defined.

(** ** A [save] that fails on the content *)



(** ** The records of a walk, read and derived again *)

Lemma isfile_read_bytes (st : Os.fs) p :
  Os.isfile st p = true -> exists data, Os.read_bytes st p = Ok data.
Proof.
  unfold Os.isfile, Os.read_bytes, Os.is_file_at.
  destruct (Os.locate st p) as [q|]; [|discriminate].
  destruct (Os.node_at st q) as [[data|]|]; try discriminate. eauto.
Qed.

(** The records of [_all] are records below the root. *)
Lemma all_records `{Re.Dict_order} self st g item :
  (0 < length (_path_parts_re self))%nat ->
  _all self st = Some g -> item ∈ g.1 -> record_below self st [] [] item.
Proof.
  intros Hparts Hall Hin. unfold _all in Hall.
  destruct (Os.listdir st (_join self [])) as [names|e] eqn:Hlist.
  - destruct (walk_spec self st (length (_path_parts_re self)) [] [] names)
      as (g' & Hg' & _ & Hitems); [simpl; lia|simpl; lia|exact Hlist|].
    rewrite Hall in Hg'. injection Hg' as <-. now apply Hitems.
  - destruct (length (_path_parts_re self)) as [|fuel]; [lia|].
    simpl in Hall. rewrite Hlist in Hall. injection Hall as <-. inversion Hin.
Qed.

(** The names of an entry are names of the map. *)
Lemma listdir_names (st : Os.fs) p names name0 :
  Os.listdir st p = Ok names -> name0 ∈ names ->
  exists k n, st !! k = Some n /\ name0 ∈ k.
Proof.
  unfold Os.listdir. destruct (Os.locate st p) as [q|]; [|discriminate].
  destruct (Os.is_dir_at st q); [|discriminate]. intros [= <-]. unfold Os.entries.
  intros Hin. apply list_elem_of_omap in Hin as (k & Hk & Hlast).
  apply list_elem_of_fmap in Hk as ([k' n] & -> & Hkn). simpl in Hlast.
  apply elem_of_map_to_list in Hkn. exists k', n. split; [exact Hkn|].
  destruct (bool_decide (removelast k' = q)); [|discriminate].
  apply last_Some in Hlast as [l' ->]. apply elem_of_app. right. apply list_elem_of_here.
Qed.

(** The way down to a record: the names of the entries walked through,
    each matched at its depth. *)
Lemma record_below_names `{Re.Dict_order} self st path_parts previous item :
  record_below self st path_parts previous item ->
  exists names,
    length (path_parts ++ names) = length (_path_parts_re self)
    /\ lazy_values item
       = (content_property self,
          LazyFileReader_init (Str.join (root_dir self) (path_parts ++ names))
            (encoding self))
    /\ Os.isfile st (Str.join (root_dir self) (path_parts ++ names)) = true
    /\ match_parts self (length path_parts) names previous = Ok (Some (values item))
    /\ Forall (fun name => exists k n, st !! k = Some n /\ name ∈ k) names.
Proof.
  induction 1 as [pp prev names n matcher m Hd Hl Hin Hm Hrun Hf
                 |pp prev names n matcher m item Hd Hl Hin Hm Hrun Hdir Hrec IH].
  - exists [n]. split; [rewrite length_app; simpl; lia|].
    split; [reflexivity|]. split; [exact Hf|]. split.
    + rewrite match_parts_cons.
      rewrite (proj2 (match_part_spec self (length pp) n (Re.groupdict_items m)))
        by eauto.
      reflexivity.
    + constructor; [|constructor]. eapply listdir_names; eauto.
  - destruct IH as (names' & Hlen & Hlazy & Hfile & Hmatch & Hnames).
    exists (n :: names').
    replace (pp ++ n :: names') with ((pp ++ [n]) ++ names')
      by (rewrite <- app_assoc; reflexivity).
    split; [exact Hlen|]. split; [exact Hlazy|]. split; [exact Hfile|]. split.
    + rewrite match_parts_cons.
      rewrite (proj2 (match_part_spec self (length pp) n (Re.groupdict_items m)))
        by eauto.
      rewrite length_app in Hmatch. simpl in Hmatch. rewrite Nat.add_1_r in Hmatch.
      exact Hmatch.
    + constructor; [|exact Hnames]. eapply listdir_names; eauto.
Qed.

(** X19.  The content of a record that a walk yields can be read on the
    file system that was walked: the file of its accessor is read, and the
    first request returns its bytes when the access point has no encoding,
    and otherwise what decoding them gives, the text with its ends of
    lines translated or the error. *)
Theorem walked_record_is_readable `{Re.Dict_order} `{Codecs}
    (name0 root pat : text) (enc : option text) (cp : text)
    (self : Filesystem) (st : Os.fs) (g : generated Item) (item : Item) :
  __init__ name0 root pat enc cp = Ok self ->
  _all self st = Some g ->
  item ∈ g.1 ->
  exists data,
    Os.read_bytes st (reader_filename (lazy_values item).2) = Ok data
    /\ outcome (__call__ (lazy_values item).2 st)
       = match enc with
         | None => Ok (PyStr data)
         | Some e => let* s := decode e data in Ok (PyUnicode (universal_newlines s))
         end
    /\ reads (__call__ (lazy_values item).2 st) = [reader_filename (lazy_values item).2].
Proof.
  intros Hinit Hall Hin.
  destruct (init_inv _ _ _ _ _ _ Hinit) as (Hp & _ & _ & Henc & _).
  pose proof (parse_pattern_has_a_part _ _ _ Hp) as Hparts.
  pose proof (all_records self st g item Hparts Hall Hin) as Hrec.
  destruct (record_below_names _ _ _ _ _ Hrec) as (names & _ & Hlazy & Hfile & _).
  simpl in *. rewrite Hlazy, Henc. simpl.
  destruct (isfile_read_bytes _ _ Hfile) as [data Hread].
  exists data. split; [exact Hread|].
  unfold __call__, LazyFileReader_init.
  cbn [content reader_filename reader_encoding]. unfold Os.fs in *. rewrite Hread.
  destruct enc as [e|]; [|split; reflexivity].
  destruct (decode e data) as [s|err]; split; reflexivity.
Qed.

Lemma walked_record_is_readable_witness :
  exists self g item,
    corn_ymd = Ok self
    /\ _all (H := reverse_order) self dir_2024 = Some g
    /\ item ∈ g.1
    /\ Os.read_bytes dir_2024 (reader_filename (lazy_values item).2) = Ok (u "hello")
    /\ outcome (__call__ (H := latin1) (lazy_values item).2 dir_2024)
       = Ok (PyStr (u "hello")).
Proof.
  destruct corn_ymd as [self|e] eqn:E; [|vm_compute in E; discriminate].
  destruct (_all (H := reverse_order) self dir_2024) as [[[|item items] ending]|] eqn:Hall;
    try (exfalso; vm_compute in E; injection E as <-; vm_compute in Hall; discriminate).
  exists self, (item :: items, ending), item.
  split; [reflexivity|]. split; [exact Hall|]. split; [apply list_elem_of_here|].
  destruct (walked_record_is_readable (H := reverse_order) (H0 := latin1)
              (u "log") (u "/srv/data") (u "{year}/{month}-{day}.txt") None (u "content")
              self dir_2024 (item :: items, ending) item E Hall (list_elem_of_here _ _))
    as (data & Hread & Hout & _).
  assert (data = u "hello") as ->.
  { vm_compute in E. injection E as <-. vm_compute in Hall. injection Hall as <- _ _.
    vm_compute in Hread. injection Hread as <-. reflexivity. }
  split; [exact Hread|exact Hout].
Defined.

(** X20.  A record that a walk yields derives the path of the file it
    was made from: for a pattern of plain characters, escaped braces and
    fields (no escaped brace directly followed by a brace of its kind), on
    a file system where no name has a slash or a newline, the full filename
    of the values of the record is the file of its content accessor, so
    that saving the record writes the file it was read from. *)
Theorem walked_record_derives_its_file `{Re.Dict_order}
    (ks : list chunk) (name0 root : text) (enc : option text) (cp : text)
    (self : Filesystem) (st : Os.fs) (g : generated Item) (item : Item) :
  well_spaced ks = true ->
  __init__ name0 root (unparse ks) enc cp = Ok self ->
  (forall k n, st !! k = Some n ->
     Forall (fun name => slash_free name = true /\ newline_free name = true) k) ->
  _all self st = Some g ->
  item ∈ g.1 ->
  full_filename self (as_item (values item)) = Ok (reader_filename (lazy_values item).2).
Proof.
  intros Hwf Hinit Hst Hall Hin.
  destruct (init_inv _ _ _ _ _ _ Hinit) as (Hp & _ & _ & _ & _).
  pose proof (parse_pattern_has_a_part _ _ _ Hp) as Hparts.
  pose proof (all_records self st g item Hparts Hall Hin) as Hrec.
  destruct (record_below_names _ _ _ _ _ Hrec)
    as (names & Hlen & Hlazy & _ & Hmatch & Hnames).
  simpl in *. rewrite Hlazy. simpl.
  destruct (matched_names_derive ks name0 root enc cp self names (values item))
    as [_ Hfull]; auto.
  rewrite Forall_forall in *. intros name Hname.
  destruct (Hnames name Hname) as (k & n & Hk & Hink).
  specialize (Hst k n Hk). rewrite Forall_forall in Hst. now apply Hst.
Qed.

Lemma walked_record_derives_its_file_witness :
  exists self g item,
    corn_ymd = Ok self
    /\ _all (H := reverse_order) self dir_2024 = Some g
    /\ item ∈ g.1
    /\ full_filename self (as_item (values item)) = Ok (u "/srv/data/2024/03-01.txt")
    /\ reader_filename (lazy_values item).2 = u "/srv/data/2024/03-01.txt".
Proof.
  destruct corn_ymd as [self|e] eqn:E; [|vm_compute in E; discriminate].
  destruct (_all (H := reverse_order) self dir_2024) as [[[|item items] ending]|] eqn:Hall;
    try (exfalso; vm_compute in E; injection E as <-; vm_compute in Hall; discriminate).
  exists self, (item :: items, ending), item.
  split; [reflexivity|]. split; [exact Hall|]. split; [apply list_elem_of_here|].
  assert (reader_filename (lazy_values item).2 = u "/srv/data/2024/03-01.txt") as Hfile.
  { vm_compute in E. injection E as <-. vm_compute in Hall. injection Hall as <- _ _.
    reflexivity. }
  split; [|exact Hfile]. rewrite <- Hfile.
  apply (walked_record_derives_its_file (H := reverse_order)
           [Field (u "year"); Plain "/"; Field (u "month"); Plain "-"; Field (u "day");
            Plain "."; Plain "t"; Plain "x"; Plain "t"]
           (u "log") (u "/srv/data") None (u "content") self dir_2024
           (item :: items, ending) item).
  - reflexivity.
  - exact E.
  - intros k n Hk.
    assert (k ∈ map fst (map_to_list dir_2024)) as Hin.
    { apply list_elem_of_fmap. exists (k, n). split; [reflexivity|].
      now apply elem_of_map_to_list. }
    revert Hin. vm_compute (map fst (map_to_list dir_2024)). intros Hin.
    repeat (apply elem_of_cons in Hin as [->|Hin];
            [repeat constructor|]).
    inversion Hin.
  - exact Hall.
  - apply list_elem_of_here.
Defined.
